(** * fit2gpx: the FIT decoder and the track-point projector

    A shallow embedding of [fit2gpx.py]: the byte cursor, the field/type
    decoder ([parse_value]), the definition table, the message stream parser
    ([FitParser.parse]) and the record projector ([records_to_gpx]).

    Python integers are [Z]; [bytes] objects are [list byte]; Python floats
    are IEEE binary64 values ([spec_float] at precision 53); dictionaries
    keyed by small integers are [gmap Z _]; exceptions are the [Err] results
    of an error monad threaded through the parser state. *)

From Stdlib Require Import ZArith List Lia Strings.Byte SpecFloat.
From stdpp Require Import gmap list.
Import ListNotations.
Local Open Scope Z_scope.

(** ** Exceptions and results *)

(** The exception classes the program can raise.  [ValueError_missing] is the
    [ValueError('Missing definition for local message %d')] of
    [parse_data_message]; [StructError] is [struct.error]. *)
Inductive exn : Type :=
| IndexError
| StructError
| ValueError_missing (local_msg : Z)
| TypeError
| AttributeError
| UnicodeDecodeError
| OverflowError
| ZeroDivisionError.

Inductive result (A : Type) : Type :=
| Ok (a : A)
| Err (e : exn).
Arguments Ok {A} a.
Arguments Err {A} e.

Definition rbind {A B} (r : result A) (k : A -> result B) : result B :=
  match r with
  | Ok a => k a
  | Err e => Err e
  end.

Definition is_Err {A} (r : result A) : Prop :=
  match r with Ok _ => False | Err _ => True end.

(** ** Bytes and struct decoding *)

Definition byte_val (b : byte) : Z := Z.of_N (Byte.to_N b).

(** [len(raw)] *)
Definition len {A} (l : list A) : Z := Z.of_nat (length l).

(** Little-endian unsigned value of a byte string. *)
Fixpoint le_unsigned (bs : list byte) : Z :=
  match bs with
  | [] => 0
  | b :: rest => byte_val b + 256 * le_unsigned rest
  end.

(** ['<'] and ['>'] of the struct format strings. *)
Inductive endianness : Type := LittleEndian | BigEndian.

Definition unsigned_of (endian : endianness) (bs : list byte) : Z :=
  match endian with
  | LittleEndian => le_unsigned bs
  | BigEndian => le_unsigned (rev bs)
  end.

(** Two's complement reading of a [8 * length bs]-bit pattern. *)
Definition signed_of (endian : endianness) (bs : list byte) : Z :=
  let u := unsigned_of endian bs in
  let w := 8 * len bs in
  if u <? 2 ^ (w - 1) then u else u - 2 ^ w.

(** The IEEE 754 value of a bit pattern with [mw] mantissa bits and [ew]
    exponent bits, as a binary64 number (every binary32 value is one). *)
Definition float_of_bits (mw ew : Z) (bits : Z) : spec_float :=
  let sign := Z.testbit bits (mw + ew) in
  let e := Z.land (Z.shiftr bits mw) (2 ^ ew - 1) in
  let m := Z.land bits (2 ^ mw - 1) in
  if e =? 2 ^ ew - 1 then
    if m =? 0 then S754_infinity sign else S754_nan
  else if e =? 0 then
    binary_normalize 53 1024 (cond_Zopp sign m) (2 - 2 ^ (ew - 1) - mw) sign
  else
    binary_normalize 53 1024 (cond_Zopp sign (m + 2 ^ mw))
      (e - (2 ^ (ew - 1) - 1) - mw) sign.

(** ** Values *)

(** A Python [str]: its code points. *)
Definition pystr : Type := list Z.

(** The values a decoded field can hold. *)
#[warnings="-register-all"]
Inductive value : Type :=
| VInt (n : Z)
| VFloat (x : spec_float)
| VStr (s : pystr)
| VBytes (b : list byte)
| VTuple (items : list value).

(** The struct format characters of [base_formats]. *)
Inductive fmt : Type :=
| fmt_B | fmt_b | fmt_H | fmt_h | fmt_I | fmt_i
| fmt_s | fmt_f | fmt_d | fmt_q | fmt_Q.

Definition base_formats (base_num : Z) : option fmt :=
  match base_num with
  | 0 => Some fmt_B    (* enum *)
  | 1 => Some fmt_b    (* sint8 *)
  | 2 => Some fmt_B    (* uint8 *)
  | 3 => Some fmt_h    (* sint16 *)
  | 4 => Some fmt_H    (* uint16 *)
  | 5 => Some fmt_i    (* sint32 *)
  | 6 => Some fmt_I    (* uint32 *)
  | 7 => Some fmt_s    (* string *)
  | 8 => Some fmt_f    (* float32 *)
  | 9 => Some fmt_d    (* float64 *)
  | 10 => Some fmt_B   (* uint8z *)
  | 11 => Some fmt_H   (* uint16z *)
  | 12 => Some fmt_I   (* uint32z *)
  | 13 => Some fmt_B   (* byte *)
  | 14 => Some fmt_q   (* sint64 *)
  | 15 => Some fmt_Q   (* uint64 *)
  | 16 => Some fmt_Q   (* uint64z *)
  | _ => None
  end.

(** [struct.calcsize] of a one-character format. *)
Definition calcsize (f : fmt) : Z :=
  match f with
  | fmt_B | fmt_b | fmt_s => 1
  | fmt_H | fmt_h => 2
  | fmt_I | fmt_i | fmt_f => 4
  | fmt_q | fmt_Q | fmt_d => 8
  end.

(** One item of [struct.unpack]: [bs] holds exactly [calcsize f] bytes. *)
Definition unpack_one (endian : endianness) (f : fmt) (bs : list byte) : value :=
  match f with
  | fmt_B | fmt_H | fmt_I | fmt_Q => VInt (unsigned_of endian bs)
  | fmt_b | fmt_h | fmt_i | fmt_q => VInt (signed_of endian bs)
  | fmt_f => VFloat (float_of_bits 23 8 (unsigned_of endian bs))
  | fmt_d => VFloat (float_of_bits 52 11 (unsigned_of endian bs))
  | fmt_s => VBytes bs
  end.

Fixpoint unpack_items (endian : endianness) (f : fmt) (count : nat)
    (raw : list byte) : list value :=
  match count with
  | O => []
  | S n =>
      unpack_one endian f (take (Z.to_nat (calcsize f)) raw)
      :: unpack_items endian f n (drop (Z.to_nat (calcsize f)) raw)
  end.

(** [struct.unpack(endian + f * count, raw)]: the buffer must hold exactly
    the bytes the format describes. *)
Definition unpack (endian : endianness) (f : fmt) (count : Z)
    (raw : list byte) : result (list value) :=
  if len raw =? calcsize f * count
  then Ok (unpack_items endian f (Z.to_nat count) raw)
  else Err StructError.

(** ** Text *)

Definition is_continuation (b : Z) : bool := (0x80 <=? b) && (b <=? 0xBF).

Definition in_range (lo hi b : Z) : bool := (lo <=? b) && (b <=? hi).

(** [bytes.decode('utf-8')] in strict mode: the code points, or
    [UnicodeDecodeError] on an ill-formed sequence (a stray continuation
    byte, a truncated sequence, an overlong form, a surrogate, or a value
    above U+10FFFF). *)
Fixpoint utf8_decode (bs : list byte) : result pystr :=
  match bs with
  | [] => Ok []
  | c0 :: rest =>
    let b0 := byte_val c0 in
    if b0 <? 0x80 then
      rbind (utf8_decode rest) (fun s => Ok (b0 :: s))
    else if in_range 0xC2 0xDF b0 then
      match rest with
      | c1 :: rest1 =>
        let b1 := byte_val c1 in
        if is_continuation b1 then
          rbind (utf8_decode rest1) (fun s =>
            Ok (Z.land b0 0x1F * 64 + Z.land b1 0x3F :: s))
        else Err UnicodeDecodeError
      | _ => Err UnicodeDecodeError
      end
    else if in_range 0xE0 0xEF b0 then
      match rest with
      | c1 :: c2 :: rest2 =>
        let b1 := byte_val c1 in
        let b2 := byte_val c2 in
        if in_range (if b0 =? 0xE0 then 0xA0 else 0x80)
                    (if b0 =? 0xED then 0x9F else 0xBF) b1
           && is_continuation b2 then
          rbind (utf8_decode rest2) (fun s =>
            Ok (Z.land b0 0x0F * 4096 + Z.land b1 0x3F * 64
                + Z.land b2 0x3F :: s))
        else Err UnicodeDecodeError
      | _ => Err UnicodeDecodeError
      end
    else if in_range 0xF0 0xF4 b0 then
      match rest with
      | c1 :: c2 :: c3 :: rest3 =>
        let b1 := byte_val c1 in
        let b2 := byte_val c2 in
        let b3 := byte_val c3 in
        if in_range (if b0 =? 0xF0 then 0x90 else 0x80)
                    (if b0 =? 0xF4 then 0x8F else 0xBF) b1
           && is_continuation b2 && is_continuation b3 then
          rbind (utf8_decode rest3) (fun s =>
            Ok (Z.land b0 0x07 * 262144 + Z.land b1 0x3F * 4096
                + Z.land b2 0x3F * 64 + Z.land b3 0x3F :: s))
        else Err UnicodeDecodeError
      | _ => Err UnicodeDecodeError
      end
    else Err UnicodeDecodeError
  end.

(** [s.rstrip('\x00')]: drop the NUL code points at the end. *)
Fixpoint rstrip_nul (s : pystr) : pystr :=
  match s with
  | [] => []
  | c :: rest =>
    match rstrip_nul rest with
    | [] => if c =? 0 then [] else [c]
    | rest' => c :: rest'
    end
  end.

(** ** The field/type decoder *)

(** [FitParser.parse_value(raw, base_type, endian)] *)
Definition parse_value (raw : list byte) (base_type : Z)
    (endian : endianness) : result value :=
  let base_num := Z.land base_type 0x1F in
  match base_formats base_num with
  | None => Ok (VBytes raw)
  | Some f =>
    let size := calcsize f in
    let count := len raw / size in
    rbind (unpack endian f count raw) (fun vals =>
      if base_type =? 7 then  (* string *)
        match vals with
        | [] => Err IndexError
        | VBytes b :: _ =>
          rbind (utf8_decode b) (fun s => Ok (VStr (rstrip_nul s)))
        | _ :: _ => Err AttributeError
        end
      else if count =? 1 then
        match vals with
        | [] => Err IndexError
        | v :: _ => Ok v
        end
      else Ok (VTuple vals))
  end.

(** ** Parser state and its monad *)

(** One entry of the definition table: the dictionary
    [{'global': ..., 'fields': ..., 'endian': ...}]; a field is the triple
    [(field_def, size, base_type)]. *)
Record definition : Type := mkDefinition {
  d_global : Z;
  d_fields : list (Z * Z * Z);
  d_endian : endianness
}.

(** The attributes of a [FitParser] object. *)
Record FitParser : Type := mkFitParser {
  data : list byte;
  pos : Z;
  defs : gmap Z definition;
  last_timestamp : option value
}.

(** [FitParser.__init__] *)
Definition init (d : list byte) : FitParser :=
  {| data := d; pos := 0; defs := ∅; last_timestamp := None |}.

Definition set_pos (p : Z) (st : FitParser) : FitParser :=
  {| data := data st; pos := p; defs := defs st;
     last_timestamp := last_timestamp st |}.

Definition set_defs (m : gmap Z definition) (st : FitParser) : FitParser :=
  {| data := data st; pos := pos st; defs := m;
     last_timestamp := last_timestamp st |}.

Definition set_last_timestamp (t : option value) (st : FitParser) : FitParser :=
  {| data := data st; pos := pos st; defs := defs st; last_timestamp := t |}.

(** A method of the parser: it reads and updates the object, and returns a
    value or raises. *)
Definition M (A : Type) : Type := FitParser -> result (A * FitParser).

Definition ret {A} (a : A) : M A := fun st => Ok (a, st).

Definition bind {A B} (m : M A) (k : A -> M B) : M B :=
  fun st =>
    match m st with
    | Ok (a, st') => k a st'
    | Err e => Err e
    end.

Definition lift {A} (r : result A) : M A :=
  fun st =>
    match r with
    | Ok a => Ok (a, st)
    | Err e => Err e
    end.

Definition gets {A} (f : FitParser -> A) : M A := fun st => Ok (f st, st).

Definition modify (f : FitParser -> FitParser) : M unit :=
  fun st => Ok (tt, f st).

Notation "x <- m ;; k" := (bind m (fun x => k))
  (at level 100, m at next level, right associativity).
Notation "m ;;; k" := (bind m (fun _ => k))
  (at level 100, right associativity).

(** ** The byte cursor *)

(** [data[lo:lo+size]] for non-negative [lo] and [size]: slicing never
    raises, it returns what is there. *)
Definition slice (d : list byte) (lo size : Z) : list byte :=
  take (Z.to_nat size) (drop (Z.to_nat lo) d).

(** [FitParser.read(size)] *)
Definition read (size : Z) : M (list byte) :=
  fun st => Ok (slice (data st) (pos st) size, set_pos (pos st + size) st).

(** [b[0]] on a [bytes] object *)
Definition item0 (b : list byte) : result Z :=
  match b with
  | [] => Err IndexError
  | c :: _ => Ok (byte_val c)
  end.

(** [self.read(1)[0]] *)
Definition read_byte : M Z := b <- read 1 ;; lift (item0 b).

(** [struct.unpack(endian + 'H', raw)[0]] *)
Definition unpack_H (endian : endianness) (raw : list byte) : result Z :=
  if len raw =? 2 then Ok (unsigned_of endian raw) else Err StructError.

(** [struct.unpack_from('<I', d, offset)[0]] *)
Definition unpack_from_I (d : list byte) (offset : Z) : result Z :=
  if len d - offset <? 4 then Err StructError
  else Ok (unsigned_of LittleEndian (slice d offset 4)).

(** ** The definition table *)

(** [FitParser.get_global(local_msg)] *)
Definition get_global (local_msg : Z) (st : FitParser) : option Z :=
  d_global <$> defs st !! local_msg.

(** The loop of [parse_definition]: [num_fields] triples, in order. *)
Fixpoint read_fields (num_fields : nat) : M (list (Z * Z * Z)) :=
  match num_fields with
  | O => ret []
  | S n =>
    field_def <- read_byte ;;
    size <- read_byte ;;
    base_type <- read_byte ;;
    rest <- read_fields n ;;
    ret ((field_def, size, base_type) :: rest)
  end.

(** [FitParser.parse_definition(local_msg)] *)
Definition parse_definition (local_msg : Z) : M unit :=
  read 1 ;;;  (* reserved *)
  arch <- read_byte ;;
  let endian := if arch =? 0 then LittleEndian else BigEndian in
  raw <- read 2 ;;
  global_msg <- lift (unpack_H endian raw) ;;
  num_fields <- read_byte ;;
  fields <- read_fields (Z.to_nat num_fields) ;;
  modify (fun st =>
    set_defs (<[local_msg := mkDefinition global_msg fields endian]> (defs st)) st).

(** The loop of [parse_data_message] over [d['fields']]. *)
Fixpoint decode_fields (endian : endianness) (fds : list (Z * Z * Z))
    (fields : gmap Z value) : M (gmap Z value) :=
  match fds with
  | [] => ret fields
  | (field_def, size, base_type) :: rest =>
    raw <- read size ;;
    v <- lift (parse_value raw base_type endian) ;;
    decode_fields endian rest (<[field_def := v]> fields)
  end.

(** [FitParser.parse_data_message(local_msg)] *)
Definition parse_data_message (local_msg : Z) : M (gmap Z value) :=
  fun st =>
    match defs st !! local_msg with
    | None => Err (ValueError_missing local_msg)
    | Some d => decode_fields (d_endian d) (d_fields d) ∅ st
    end.

(** ** The message stream parser *)

(** Lines 54-56 of [parse]: [(last & ~0x1F) + time_offset], plus [0x20] when
    that is not above [last]; [&] raises on anything but an integer. *)
Definition compressed_timestamp (last : value) (time_offset : Z) : result Z :=
  match last with
  | VInt t =>
    let ts := Z.land t (Z.lnot 0x1F) + time_offset in
    Ok (if ts <=? t then ts + 0x20 else ts)
  | _ => Err TypeError
  end.

(** [self.get_global(local_msg) == 20] *)
Definition is_record (local_msg : Z) (st : FitParser) : bool :=
  match get_global local_msg st with
  | Some g => g =? 20
  | None => false
  end.

(** [records.append(fields)] when the message is a record message. *)
Definition forward (local_msg : Z) (fields : gmap Z value)
    (records : list (gmap Z value)) : M (list (gmap Z value)) :=
  fun st =>
    Ok (if is_record local_msg st then records ++ [fields] else records, st).

(** The branch of the loop body for a compressed timestamp header. *)
Definition compressed_message (header : Z) (records : list (gmap Z value))
    : M (list (gmap Z value)) :=
  let local_msg := Z.land (Z.shiftr header 5) 0x3 in
  let time_offset := Z.land header 0x1F in
  modify (fun st =>
    match last_timestamp st with
    | None => set_last_timestamp (Some (VInt 0)) st
    | Some _ => st
    end) ;;;
  last <- gets last_timestamp ;;
  ts <- lift (compressed_timestamp (default (VInt 0) last) time_offset) ;;
  modify (set_last_timestamp (Some (VInt ts))) ;;;
  fields <- parse_data_message local_msg ;;
  forward local_msg (<[253 := VInt ts]> fields) records.

(** The branch of the loop body for a normal header. *)
Definition normal_message (header : Z) (records : list (gmap Z value))
    : M (list (gmap Z value)) :=
  let is_def := Z.land header 0x40 in
  let local_msg := Z.land header 0x0F in
  if negb (is_def =? 0) then
    parse_definition local_msg ;;;
    ret records
  else
    fields <- parse_data_message local_msg ;;
    last <- gets last_timestamp ;;
    fields' <-
      match fields !! 253, last with
      | Some t, _ => modify (set_last_timestamp (Some t)) ;;; ret fields
      | None, Some t => ret (<[253 := t]> fields)
      | None, None => ret fields
      end ;;
    forward local_msg fields' records.

(** One iteration of the [while] loop of [parse]. *)
Definition parse_message (records : list (gmap Z value))
    : M (list (gmap Z value)) :=
  header <- read_byte ;;
  if negb (Z.land header 0x80 =? 0)  (* compressed timestamp header *)
  then compressed_message header records
  else normal_message header records.

(** The [while self.pos < end] loop.  [fuel] bounds the iterations; [None]
    means the bound was too small (it never is, see [parse_loop_fuel]). *)
Fixpoint parse_loop (fuel : nat) (end_ : Z) (records : list (gmap Z value))
    (st : FitParser) : option (result (list (gmap Z value))) :=
  if pos st <? end_ then
    match fuel with
    | O => None
    | S fuel' =>
      match parse_message records st with
      | Ok (records', st') => parse_loop fuel' end_ records' st'
      | Err e => Some (Err e)
      end
    end
  else Some (Ok records).

(** [FitParser.parse()] *)
Definition parse (st : FitParser) : option (result (list (gmap Z value))) :=
  match item0 (data st) with
  | Err e => Some (Err e)
  | Ok header_size =>
    match unpack_from_I (data st) 4 with
    | Err e => Some (Err e)
    | Ok data_size =>
      parse_loop (S (length (data st))) (header_size + data_size) []
        (set_pos header_size st)
    end
  end.

(** ** Python arithmetic on decoded values *)

Definition is_zero (x : spec_float) : bool :=
  match x with S754_zero _ => true | _ => false end.

Definition is_infinity (x : spec_float) : bool :=
  match x with S754_infinity _ => true | _ => false end.

(** The binary64 number nearest to the integer [n], ties to even (infinite
    when [n] is beyond the range). *)
Definition nearest_float (n : Z) : spec_float :=
  binary_normalize 53 1024 n 0 false.

(** [float(n)]: an integer too large for a float raises. *)
Definition float_of_int (n : Z) : result spec_float :=
  let x := nearest_float n in
  if is_infinity x then Err OverflowError else Ok x.

(** The binary64 number nearest to the quotient [a / b] of two integers,
    [b] not zero, ties to even. *)
Definition int_quotient (a b : Z) : spec_float :=
  let sign := xorb (a <? 0) (b <? 0) in
  let '(q, e, l) := SFdiv_core_binary 53 1024 (Z.abs a) 0 (Z.abs b) 0 in
  binary_round_aux 53 1024 sign q e l.

(** [a / b] on integers: the correctly rounded quotient. *)
Definition int_truediv (a b : Z) : result spec_float :=
  if b =? 0 then Err ZeroDivisionError
  else
    let x := int_quotient a b in
    if is_infinity x then Err OverflowError else Ok x.

(** [x / y] on floats *)
Definition float_truediv (x y : spec_float) : result spec_float :=
  if is_zero y then Err ZeroDivisionError else Ok (SFdiv 53 1024 x y).

(** [seq * n]: [n] copies of a sequence, none when [n <= 0]. *)
Definition repeat_seq {A} (n : Z) (l : list A) : list A :=
  concat (replicate (Z.to_nat n) l).

(** [v * w] *)
Definition py_mul (v w : value) : result value :=
  match v, w with
  | VInt a, VInt b => Ok (VInt (a * b))
  | VInt a, VFloat y =>
    rbind (float_of_int a) (fun x => Ok (VFloat (SFmul 53 1024 x y)))
  | VFloat x, VInt b =>
    rbind (float_of_int b) (fun y => Ok (VFloat (SFmul 53 1024 x y)))
  | VFloat x, VFloat y => Ok (VFloat (SFmul 53 1024 x y))
  | VStr s, VInt n | VInt n, VStr s => Ok (VStr (repeat_seq n s))
  | VBytes b, VInt n | VInt n, VBytes b => Ok (VBytes (repeat_seq n b))
  | VTuple t, VInt n | VInt n, VTuple t => Ok (VTuple (repeat_seq n t))
  | _, _ => Err TypeError
  end.

(** [v / w]: defined on numbers only, and then a float. *)
Definition py_truediv (v w : value) : result spec_float :=
  match v, w with
  | VInt a, VInt b => int_truediv a b
  | VInt a, VFloat y => rbind (float_of_int a) (fun x => float_truediv x y)
  | VFloat x, VInt b => rbind (float_of_int b) (fun y => float_truediv x y)
  | VFloat x, VFloat y => float_truediv x y
  | _, _ => Err TypeError
  end.

(** [x - n] for a float [x] and an integer [n] *)
Definition float_sub_int (x : spec_float) (n : Z) : result spec_float :=
  rbind (float_of_int n) (fun y => Ok (SFsub 53 1024 x y)).

(** The float literal [5.0] *)
Definition five : spec_float := S754_finite false 5629499534213120 (-50).

(** ** The record projector *)

(** A [trkpt] element: its [lat] and [lon] attributes and the text of its
    [ele] and [time] children, when it has them. *)
Record trkpt : Type := mkTrkpt {
  lat : pystr;
  lon : pystr;
  ele : option pystr;
  time : option pystr
}.

Section Projector.

(** Two functions of the Python standard library are parameters of the
    projector: [format_float d x] is [f"{x:.{d}f}"], and
    [epoch_isoformat v] is
    [(FIT_EPOCH + timedelta(seconds=v)).isoformat() + 'Z'], which raises
    on a value that is no number or that leaves the range of [datetime]. *)
Variable format_float : Z -> spec_float -> pystr.
Variable epoch_isoformat : value -> result pystr.

(** The body of the [for r in records] loop: the element appended to the
    track segment, if any. *)
Definition trackpoint (r : gmap Z value) : result (option trkpt) :=
  match r !! 0, r !! 1 with
  | Some r0, Some r1 =>
    rbind (py_mul r0 (VInt 180)) (fun p =>
    rbind (py_truediv p (VInt (2 ^ 31))) (fun lat_ =>
    rbind (py_mul r1 (VInt 180)) (fun q =>
    rbind (py_truediv q (VInt (2 ^ 31))) (fun lon_ =>
    rbind
      match r !! 2 with
      | Some r2 =>
        rbind (py_truediv r2 (VFloat five)) (fun d =>
        rbind (float_sub_int d 500) (fun alt =>
        Ok (Some (format_float 2 alt))))
      | None => Ok None
      end (fun ele_ =>
    rbind
      match r !! 253 with
      | Some t => rbind (epoch_isoformat t) (fun s => Ok (Some s))
      | None => Ok None
      end (fun time_ =>
    Ok (Some (mkTrkpt (format_float 6 lat_) (format_float 6 lon_)
                ele_ time_))))))))
  | _, _ => Ok None
  end.

(** [records_to_gpx(records, out_path)]: the points of the track segment
    that is written out; nothing is written when an exception escapes. *)
Fixpoint records_to_gpx (records : list (gmap Z value))
    : result (list trkpt) :=
  match records with
  | [] => Ok []
  | r :: rest =>
    rbind (trackpoint r) (fun p =>
    rbind (records_to_gpx rest) (fun ps =>
    Ok (match p with Some tp => tp :: ps | None => ps end)))
  end.

(** The script body: parse the whole input, then render. *)
Definition main (d : list byte) : option (result (list trkpt)) :=
  match parse (init d) with
  | Some (Ok records) => Some (records_to_gpx records)
  | Some (Err e) => Some (Err e)
  | None => None
  end.

End Projector.

(** * Vocabulary of the properties *)

(** The value is a number: an integer or a float. *)
Definition is_scalar (v : value) : Prop :=
  match v with
  | VInt _ | VFloat _ => True
  | _ => False
  end.

(** The same cursor over another definition table and timestamp. *)
Definition with_cursor (st : FitParser) (dm : gmap Z definition)
    (lt : option value) : FitParser :=
  mkFitParser (data st) (pos st) dm lt.

(** [m] reads the buffer at the cursor and moves the cursor, and neither
    looks at nor changes the rest of the parser. *)
Definition cursor_only {A} (m : M A) : Prop :=
  forall st,
    match m st with
    | Ok (a, st') =>
      st' = set_pos (pos st') st /\
      forall dm lt, m (with_cursor st dm lt) = Ok (a, with_cursor st' dm lt)
    | Err e => forall dm lt, m (with_cursor st dm lt) = Err e
    end.

(** What [parse_definition] reads before it stores: the definition that
    stands at the cursor. *)
Definition read_definition : M definition :=
  read 1 ;;;
  arch <- read_byte ;;
  let endian := if arch =? 0 then LittleEndian else BigEndian in
  raw <- read 2 ;;
  global_msg <- lift (unpack_H endian raw) ;;
  num_fields <- read_byte ;;
  fields <- read_fields (Z.to_nat num_fields) ;;
  ret (mkDefinition global_msg fields endian).

(** The declared size of a field triple. *)
Definition field_size (fd : Z * Z * Z) : Z := snd (fst fd).

(** The field identifier of a field triple. *)
Definition field_id (fd : Z * Z * Z) : Z := fst (fst fd).

(** The value under 253 after a normal data message, and the timestamp the
    parser then remembers. *)
Definition inherit_timestamp (fields : gmap Z value) (last : option value)
    : gmap Z value :=
  match fields !! 253, last with
  | Some _, _ => fields
  | None, Some t => <[253 := t]> fields
  | None, None => fields
  end.

Definition next_timestamp (fields : gmap Z value) (last : option value)
    : option value :=
  match fields !! 253 with
  | Some t => Some t
  | None => last
  end.

(** The declared sizes in a definition table are not negative. *)
Definition sizes_ok (dm : gmap Z definition) : Prop :=
  forall slot d, dm !! slot = Some d ->
    Forall (fun fd => 0 <= field_size fd) (d_fields d).

(** The invariant of the loop: the cursor is not negative, and no declared
    size is. *)
Definition wf (st : FitParser) : Prop := 0 <= pos st /\ sizes_ok (defs st).

(** The bytes between the cursor and the end of the buffer. *)
Definition remaining (st : FitParser) : nat :=
  (length (data st) - Z.to_nat (pos st))%nat.

(** The timestamp rebuilt from the last one [T] and the offset [o]. *)
Definition reconstructed (T o : Z) : Z :=
  if T - T mod 32 + o <=? T then T - T mod 32 + o + 32 else T - T mod 32 + o.

(** The exception raised when the message at the cursor names a slot that
    holds no definition. *)
Definition undefined_slot_error (header : Z) (last : option value) : exn :=
  if Z.land header 0x80 =? 0 then ValueError_missing (Z.land header 0x0F)
  else
    match last with
    | None | Some (VInt _) =>
      ValueError_missing (Z.land (Z.shiftr header 5) 0x3)
    | Some _ => TypeError
    end.

(** The slot a data or compressed timestamp header names. *)
Definition header_slot (header : Z) : Z :=
  if Z.land header 0x80 =? 0 then Z.land header 0x0F
  else Z.land (Z.shiftr header 5) 0x3.

(** The record holds field 253. *)
Definition has_timestamp (r : gmap Z value) : Prop := is_Some (r !! 253).

(** The definition declares field 253. *)
Definition declares_timestamp (d : definition) : Prop :=
  In 253 (map field_id (d_fields d)).

(** The message at the cursor is a definition message for [slot]. *)
Definition defines (slot : Z) (st : FitParser) : Prop :=
  exists header st1,
    read_byte st = Ok (header, st1) /\
    Z.land header 0x80 = 0 /\ Z.land header 0x40 <> 0 /\
    Z.land header 0x0F = slot.

(** [latest_definition slot d st]: the parser reached [st] by iterations of
    the loop, and the last definition message for [slot] among them read the
    definition [d]. *)
Inductive latest_definition (slot : Z) (d : definition) : FitParser -> Prop :=
| latest_defined st header st1 st2 records records' st' :
    read_byte st = Ok (header, st1) ->
    Z.land header 0x80 = 0 -> Z.land header 0x40 <> 0 ->
    Z.land header 0x0F = slot ->
    read_definition st1 = Ok (d, st2) ->
    parse_message records st = Ok (records', st') ->
    latest_definition slot d st'
| latest_kept st records records' st' :
    latest_definition slot d st ->
    ~ defines slot st ->
    parse_message records st = Ok (records', st') ->
    latest_definition slot d st'.

(** [value × 180 / 2^31], as Python evaluates it on a decoded value. *)
Definition degrees (v : value) : result spec_float :=
  rbind (py_mul v (VInt 180)) (fun p => py_truediv p (VInt (2 ^ 31))).

(** [value / 5.0 − 500], as Python evaluates it on a decoded value. *)
Definition meters (v : value) : result spec_float :=
  rbind (py_truediv v (VFloat five)) (fun d => float_sub_int d 500).

(** The integers a struct format can hold: lower bound and strict upper
    bound; none for the float and string formats. *)
Definition fmt_range (f : fmt) : option (Z * Z) :=
  match f with
  | fmt_B => Some (0, 2 ^ 8)
  | fmt_b => Some (- 2 ^ 7, 2 ^ 7)
  | fmt_H => Some (0, 2 ^ 16)
  | fmt_h => Some (- 2 ^ 15, 2 ^ 15)
  | fmt_I => Some (0, 2 ^ 32)
  | fmt_i => Some (- 2 ^ 31, 2 ^ 31)
  | fmt_Q => Some (0, 2 ^ 64)
  | fmt_q => Some (- 2 ^ 63, 2 ^ 63)
  | fmt_f | fmt_d | fmt_s => None
  end.

(** [v] is a struct item of format [f]: an integer in the range of an
    integer format, a float for a float format, one byte for ['s']. *)
Definition item_ok (f : fmt) (v : value) : Prop :=
  match v with
  | VInt n => exists lo hi, fmt_range f = Some (lo, hi) /\ lo <= n < hi
  | VFloat _ => f = fmt_f \/ f = fmt_d
  | VBytes b => f = fmt_s /\ length b = 1%nat
  | VStr _ | VTuple _ => False
  end.

(** The bytes a field list declares: the sum of the sizes. *)
Definition fields_size (fds : list (Z * Z * Z)) : Z :=
  foldr (fun fd acc => field_size fd + acc) 0 fds.

(** A definition as [parse_definition] can store it: a 16-bit global
    number, at most 255 fields, and bytes for the identifier, the size and
    the base type of every field. *)
Definition definition_ok (d : definition) : Prop :=
  0 <= d_global d < 65536 /\
  len (d_fields d) <= 255 /\
  Forall (fun fd => 0 <= field_id fd < 256 /\ 0 <= field_size fd < 256 /\
                    0 <= snd fd < 256) (d_fields d).

(** The slots of the table are among 0..15 and hold such definitions. *)
Definition table_ok (dm : gmap Z definition) : Prop :=
  forall slot d, dm !! slot = Some d -> 0 <= slot <= 15 /\ definition_ok d.

(** [reaches st st']: the loop gets from [st] to [st'] by iterations that do
    not raise. *)
Inductive reaches : FitParser -> FitParser -> Prop :=
| reaches_here st : reaches st st
| reaches_next st records records' st1 st2 :
    parse_message records st = Ok (records', st1) ->
    reaches st1 st2 ->
    reaches st st2.

(** The exceptions a decode pass can end with. *)
Definition decode_error (e : exn) : Prop :=
  e = IndexError \/ e = StructError \/ e = UnicodeDecodeError \/
  e = TypeError \/
  exists slot, 0 <= slot <= 15 /\ e = ValueError_missing slot.

(** [v] is a value the field/type decoder can return. *)
Definition decoded (v : value) : Prop :=
  exists raw base_type endian, parse_value raw base_type endian = Ok v.

(** Every field of the record but the timestamp holds a value of the
    field/type decoder. *)
Definition record_ok (r : gmap Z value) : Prop :=
  forall k v, k <> 253 -> r !! k = Some v -> decoded v.

(** The float [x] is the number [n / 2 ^ k], with no rounding. *)
Definition exact_quotient (x : spec_float) (n k : Z) : Prop :=
  match x with
  | S754_zero _ => n = 0
  | S754_finite s m e =>
    (if s then Zneg m else Zpos m) * 2 ^ Z.max 0 (e + k)
    = n * 2 ^ Z.max 0 (- (e + k))
  | _ => False
  end.

(** The record holds both position fields, 0 and 1. *)
Definition has_position (r : gmap Z value) : bool :=
  match r !! 0, r !! 1 with
  | Some _, Some _ => true
  | _, _ => false
  end.

(** The parser [st] over its buffer followed by [extra]. *)
Definition extend (extra : list byte) (st : FitParser) : FitParser :=
  mkFitParser (data st ++ extra) (pos st) (defs st) (last_timestamp st).

(** [m] reads forward, and as long as it stays within the buffer it does
    the same over any longer buffer. *)
Definition buffer_local {A} (m : M A) : Prop :=
  forall st a st', wf st -> m st = Ok (a, st') ->
    wf st' /\ data st' = data st /\ pos st <= pos st' /\
    forall extra, pos st' <= len (data st) ->
      m (extend extra st) = Ok (a, extend extra st').

(** No message of the pass over [d] runs past the end of [d]: every
    iteration that starts before the end of the data section leaves the
    cursor within the buffer. *)
Definition within_buffer (d : list byte) : Prop :=
  forall header_size data_size st' records records' st'',
    item0 d = Ok header_size -> unpack_from_I d 4 = Ok data_size ->
    reaches (set_pos header_size (init d)) st' ->
    pos st' < header_size + data_size ->
    parse_message records st' = Ok (records', st'') ->
    pos st'' <= len d.

(** The bytes a data message at [st] reads for the field at index [i] of the
    field list [fds], declared with [size]: the slice that starts where the
    fields before it end, short or empty where the buffer ends first. *)
Definition field_slice (st : FitParser) (fds : list (Z * Z * Z)) (i : nat)
    (size : Z) : list byte :=
  slice (data st) (pos st + fields_size (take i fds)) size.

(** [fields] is the record the definition [d] prescribes for the bytes at
    the cursor of [st]: its keys are the identifiers [d] declares, the slice
    of every declared field is accepted by the field/type decoder with the
    base type of the field and the byte order of [d], and the value of the
    last field declared with an identifier is the one stored under it. *)
Definition decoded_with (d : definition) (st : FitParser)
    (fields : gmap Z value) : Prop :=
  (forall k, is_Some (fields !! k) <-> In k (map field_id (d_fields d))) /\
  forall (i : nat) fid size bt,
    d_fields d !! i = Some (fid, size, bt) ->
    exists v,
      parse_value (field_slice st (d_fields d) i size) bt (d_endian d) = Ok v /\
      ((forall (j : nat) fd, (i < j)%nat -> d_fields d !! j = Some fd ->
          field_id fd <> fid) ->
       fields !! fid = Some v).

(** The field/type decoder raises [e] on the slice of a field that [d]
    declares, and accepts the slices of the fields before it. *)
Definition rejected_with (d : definition) (st : FitParser) (e : exn) : Prop :=
  exists (i : nat) fid size bt,
    d_fields d !! i = Some (fid, size, bt) /\
    parse_value (field_slice st (d_fields d) i size) bt (d_endian d) = Err e /\
    forall (j : nat) fid' size' bt',
      (j < i)%nat -> d_fields d !! j = Some (fid', size', bt') ->
      exists v,
        parse_value (field_slice st (d_fields d) j size') bt' (d_endian d)
        = Ok v.

(** [loop_reaches end_ st st']: the loop with the bound [end_] gets from
    [st] to [st'] by iterations that do not raise; an iteration starts only
    while the cursor is before [end_]. *)
Inductive loop_reaches (end_ : Z) : FitParser -> FitParser -> Prop :=
| loop_reaches_here st : loop_reaches end_ st st
| loop_reaches_next st records records' st1 st2 :
    pos st < end_ ->
    parse_message records st = Ok (records', st1) ->
    loop_reaches end_ st1 st2 ->
    loop_reaches end_ st st2.

(** * Sample inputs *)

(** A parser in the middle of a pass: slot 0 holds a record definition with
    the one-byte field 253, and two bytes are left. *)
Definition sample_parser (last : option value) : FitParser :=
  mkFitParser [x82; x07] 0
    {[ 0 := mkDefinition 20 [(253, 1, 2)] LittleEndian ]} last.

Definition sample_parser_after (ts : Z) : FitParser :=
  mkFitParser [x82; x07] 2
    {[ 0 := mkDefinition 20 [(253, 1, 2)] LittleEndian ]} (Some (VInt ts)).

(** A stream that defines slot 0 only, then holds a data message for it and
    a compressed timestamp header for slot 1. *)
Definition undefined_slot_stream : list byte :=
  [x0c; x00; x00; x00; x0c; x00; x00; x00; x00; x00; x00; x00;
   x40; x00; x00; x14; x00; x01; x00; x01; x02;
   x00; x07;
   xa0].

(** A stream whose slot 0 declares field 253 as a 32-bit float: the data
    message leaves a float as the last known timestamp, and the compressed
    timestamp header for the undefined slot 1 then raises [TypeError], not
    the [ValueError] of the missing definition. *)
Definition float_timestamp_stream : list byte :=
  [x0c; x00; x00; x00; x0f; x00; x00; x00; x00; x00; x00; x00;
   x40; x00; x00; x14; x00; x01; xfd; x04; x88;
   x00; x00; x00; x80; x3f;
   xa0].

Definition float_one : spec_float := S754_finite false 4503599627370496 (-52).

Definition float_timestamp_defs : gmap Z definition :=
  {[ 0 := mkDefinition 20 [(253, 4, 0x88)] LittleEndian ]}.

(** A stream with one record definition that declares latitude and
    longitude only, and one data message for it. *)
Definition no_timestamp_stream : list byte :=
  [x0c; x00; x00; x00; x15; x00; x00; x00; x00; x00; x00; x00;
   x40; x00; x00; x14; x00; x02; x00; x04; x85; x01; x04; x85;
   x00; x01; x00; x00; x00; x02; x00; x00; x00].

Definition no_timestamp_defs : gmap Z definition :=
  {[ 0 := mkDefinition 20 [(0, 4, 0x85); (1, 4, 0x85)] LittleEndian ]}.

(** Two definition messages for slot 0 in a row, then a data header. *)
Definition redefinition_buffer : list byte :=
  [x40; x00; x00; x14; x00; x00;
   x40; x00; x00; x15; x00; x01; x03; x01; x02;
   x00; x09].

Definition redefinition_parser (p : Z) (dm : gmap Z definition) : FitParser :=
  mkFitParser redefinition_buffer p dm None.

(** A file cut short: its header announces a body of 14 bytes, and the
    buffer ends 4 bytes early, right after the header byte of a data message
    whose only field is a 4-byte unsigned integer. *)
Definition truncated_stream : list byte :=
  [x0c; x00; x00; x00; x0e; x00; x00; x00; x00; x00; x00; x00;
   x40; x00; x00; x14; x00; x01; x00; x04; x86;
   x00].

Definition truncated_defs : gmap Z definition :=
  {[ 0 := mkDefinition 20 [(0, 4, 0x86)] LittleEndian ]}.

(** A record definition whose field 0 is declared with size 8 and a 32-bit
    type: the latitude decodes to an array of two integers. *)
Definition array_position_stream : list byte :=
  [x0c; x00; x00; x00; x19; x00; x00; x00; x00; x00; x00; x00;
   x40; x00; x00; x14; x00; x02; x00; x08; x85; x01; x04; x85;
   x00; x01; x00; x00; x00; x02; x00; x00; x00; x03; x00; x00; x00].

(** The minimal stream: one record definition in slot 0 with latitude and
    longitude as 32-bit signed integers and the timestamp as a 32-bit
    unsigned integer, and one data message of zeros. *)
Definition minimal_stream : list byte :=
  [x0c; x00; x00; x00; x1c; x00; x00; x00; x00; x00; x00; x00;
   x40; x00; x00; x14; x00; x03; x00; x04; x85; x01; x04; x85; xfd; x04; x86;
   x00; x00; x00; x00; x00; x00; x00; x00; x00; x00; x00; x00; x00].

(** A record with a position of 2^30 and -2^31 semicircles and a raw
    elevation of 2500. *)
Definition sample_record : gmap Z value :=
  {[ 0 := VInt (2 ^ 30); 1 := VInt (- 2 ^ 31); 2 := VInt 2500 ]}.


(** A parser at a data message whose definition declares field 3 twice. *)
Definition duplicate_field_parser : FitParser :=
  mkFitParser [x01; x02] 0
    {[ 0 := mkDefinition 20 [(3, 1, 2); (3, 1, 2)] LittleEndian ]} None.

(** A stream whose only definition has the global number 21: one
    definition message for slot 0 and one data message for it. *)
Definition non_record_stream : list byte :=
  [x0c; x00; x00; x00; x0b; x00; x00; x00; x00; x00; x00; x00;
   x40; x00; x00; x15; x00; x01; x00; x01; x02;
   x00; x07].

(** A stream with one record definition in slot 0 (latitude and longitude
    as 32-bit signed integers, the timestamp as a 32-bit unsigned integer,
    little-endian) and one data message with the given payload. *)
Definition position_stream (payload : list byte) : list byte :=
  [x0c; x00; x00; x00; x1c; x00; x00; x00; x00; x00; x00; x00;
   x40; x00; x00; x14; x00; x03; x00; x04; x85; x01; x04; x85; xfd; x04; x86;
   x00] ++ payload.

(** A stream whose data section defines slot 0 with the global number 21
    and holds one data message for it, followed by six bytes that are no
    part of the data section and would read as a definition message with
    the global number 20. *)
Definition trailer_stream : list byte :=
  non_record_stream ++ [x40; x00; x00; x14; x00; x00].

(** * Properties *)

(** ** The monad *)

Lemma bind_Ok_inv {A B} (m : M A) (k : A -> M B) st r :
  bind m k st = Ok r -> exists a st1, m st = Ok (a, st1) /\ k a st1 = Ok r.
Proof.
  unfold bind. destruct (m st) as [[a st1]|e]; [eauto | discriminate].
Qed.

Lemma bind_Err_inv {A B} (m : M A) (k : A -> M B) st e :
  bind m k st = Err e ->
  m st = Err e \/ exists a st1, m st = Ok (a, st1) /\ k a st1 = Err e.
Proof.
  unfold bind. destruct (m st) as [[a st1]|e']; [eauto | intros [= ->]; auto].
Qed.

Lemma bind_Ok_eq {A B} (m : M A) (k : A -> M B) st a st1 :
  m st = Ok (a, st1) -> bind m k st = k a st1.
Proof. unfold bind. intros ->. reflexivity. Qed.

Lemma bind_Err_eq {A B} (m : M A) (k : A -> M B) st e :
  m st = Err e -> bind m k st = Err e.
Proof. unfold bind. intros ->. reflexivity. Qed.

Lemma lift_Ok_inv {A} (r : result A) st a st' :
  lift r st = Ok (a, st') -> r = Ok a /\ st' = st.
Proof. unfold lift. destruct r; intros [= <- <-] || discriminate; auto. Qed.

Lemma lift_Err_inv {A} (r : result A) st e :
  @lift A r st = Err e -> r = Err e.
Proof. unfold lift. destruct r; [discriminate | congruence]. Qed.

Tactic Notation "inv_bind" hyp(H) "as" ident(a) ident(st1) ident(E) :=
  apply bind_Ok_inv in H as (a & st1 & E & H).

Tactic Notation "inv_bind" hyp(H) :=
  let a := fresh "a" in
  let st1 := fresh "st" in
  let E := fresh "E" in
  apply bind_Ok_inv in H as (a & st1 & E & H).

(** ** The cursor *)

Lemma byte_val_range (b : byte) : 0 <= byte_val b < 256.
Proof.
  unfold byte_val. pose proof (Byte.to_N_bounded b) as Hb. lia.
Qed.

Lemma len_nonneg {A} (l : list A) : 0 <= len l.
Proof. unfold len. lia. Qed.

(** A one-byte slice is empty exactly when the cursor is at or past the
    end of the buffer. *)
Lemma slice_one_nil (d : list byte) (lo : Z) :
  0 <= lo -> (slice d lo 1 = [] <-> len d <= lo).
Proof.
  intros Hlo. unfold slice, len. change (Z.to_nat 1) with 1%nat.
  destruct (drop (Z.to_nat lo) d) as [|c rest] eqn:E; simpl.
  - split; [intros _ | reflexivity].
    assert (length (drop (Z.to_nat lo) d) = 0%nat) as Hl by (rewrite E; reflexivity).
    rewrite length_drop in Hl. lia.
  - split; [discriminate | intros Hle].
    assert (length (drop (Z.to_nat lo) d) = S (length rest)) as Hl by (rewrite E; reflexivity).
    rewrite length_drop in Hl. lia.
Qed.

Lemma read_byte_unfold st :
  read_byte st =
  match slice (data st) (pos st) 1 with
  | [] => Err IndexError
  | c :: _ => Ok (byte_val c, set_pos (pos st + 1) st)
  end.
Proof.
  unfold read_byte, bind, read, lift, item0.
  destruct (slice (data st) (pos st) 1); reflexivity.
Qed.

(** A successful one-byte read found a byte: the cursor was inside the
    buffer, and it moves by one. *)
Lemma read_byte_Ok st v st' :
  read_byte st = Ok (v, st') ->
  st' = set_pos (pos st + 1) st /\ 0 <= v < 256 /\
  (0 <= pos st -> pos st + 1 <= len (data st)).
Proof.
  rewrite read_byte_unfold.
  destruct (slice (data st) (pos st) 1) as [|c rest] eqn:E; [discriminate|].
  intros [= <- <-]. split; [reflexivity|]. split; [apply byte_val_range|].
  intros Hpos. destruct (Z_lt_le_dec (pos st) (len (data st))) as [?|Hle]; [lia|].
  apply slice_one_nil in Hle; [congruence | assumption].
Qed.

(** With no byte left, the one-byte read raises [IndexError]. *)
Lemma read_byte_Err st :
  0 <= pos st -> len (data st) <= pos st -> read_byte st = Err IndexError.
Proof.
  intros Hpos Hle. rewrite read_byte_unfold.
  apply slice_one_nil in Hle; [|assumption]. rewrite Hle. reflexivity.
Qed.

Lemma read_byte_Err_inv st e : read_byte st = Err e -> e = IndexError.
Proof.
  rewrite read_byte_unfold.
  destruct (slice (data st) (pos st) 1); [congruence | discriminate].
Qed.

(** ** The field/type decoder *)

Lemma calcsize_pos f : 0 < calcsize f.
Proof. destruct f; reflexivity. Qed.

(** The table knows the kinds 0 to 16 and no other. *)
Lemma base_formats_None k : base_formats k = None <-> ~ 0 <= k <= 16.
Proof.
  split.
  - intros H [H0 H16].
    assert (Hk : k = 0 \/ k = 1 \/ k = 2 \/ k = 3 \/ k = 4 \/ k = 5 \/ k = 6 \/
            k = 7 \/ k = 8 \/ k = 9 \/ k = 10 \/ k = 11 \/ k = 12 \/ k = 13 \/
            k = 14 \/ k = 15 \/ k = 16) by lia.
    repeat (destruct Hk as [-> | Hk]; [discriminate H|]). subst k. discriminate H.
  - intros H. destruct k as [|p|p]; [lia | | reflexivity].
    do 5 (destruct p as [p|p|]; try reflexivity; try lia).
Qed.

Lemma base_formats_string base_type f :
  base_formats (Z.land base_type 0x1F) = Some f -> f <> fmt_s ->
  (base_type =? 7) = false.
Proof.
  intros Hf Hs. apply Z.eqb_neq. intros ->. simpl in Hf. congruence.
Qed.

Lemma unpack_items_length endian f n raw :
  length (unpack_items endian f n raw) = n.
Proof.
  revert raw. induction n as [|n IH]; intros raw; simpl; [reflexivity|].
  now rewrite IH.
Qed.

(** Item [i] of an unpacked array is the scalar read from the [i]-th group
    of [calcsize f] bytes. *)
Lemma unpack_items_lookup endian f n raw (i : nat) :
  (i < n)%nat ->
  unpack_items endian f n raw !! i =
  Some (unpack_one endian f
          (take (Z.to_nat (calcsize f)) (drop (i * Z.to_nat (calcsize f)) raw))).
Proof.
  revert raw i. induction n as [|n IH]; intros raw i Hi; [lia|].
  destruct i as [|i]; simpl.
  - reflexivity.
  - rewrite IH by lia. rewrite drop_drop. reflexivity.
Qed.

Lemma unpack_exact endian f count raw :
  len raw = calcsize f * count ->
  unpack endian f count raw = Ok (unpack_items endian f (Z.to_nat count) raw).
Proof. intros H. unfold unpack. apply Z.eqb_eq in H. now rewrite H. Qed.

Lemma unpack_inexact endian f count raw :
  len raw <> calcsize f * count ->
  unpack endian f count raw = Err StructError.
Proof. intros H. unfold unpack. apply Z.eqb_neq in H. now rewrite H. Qed.

Lemma exact_multiple (n w : Z) : 0 < w -> (n = w * (n / w) <-> n mod w = 0).
Proof.
  intros Hw. pose proof (Z.div_mod n w ltac:(lia)) as Hdm. lia.
Qed.

(** What [parse_value] does with a recognized kind whose code is not the
    literal 7: a length that is no multiple of the width is rejected by
    [struct.unpack]; a length of exactly one width gives the item itself;
    any other multiple gives the tuple. *)
Lemma parse_value_known raw base_type endian f :
  base_formats (Z.land base_type 0x1F) = Some f ->
  (base_type =? 7) = false ->
  parse_value raw base_type endian =
  if len raw mod calcsize f =? 0 then
    if len raw / calcsize f =? 1 then Ok (unpack_one endian f raw)
    else Ok (VTuple (unpack_items endian f (Z.to_nat (len raw / calcsize f)) raw))
  else Err StructError.
Proof.
  intros Hf H7. unfold parse_value. rewrite Hf. cbn zeta.
  pose proof (calcsize_pos f) as Hw.
  destruct (len raw mod calcsize f =? 0) eqn:Hm.
  - apply Z.eqb_eq in Hm. apply exact_multiple in Hm; [|assumption].
    rewrite (unpack_exact _ _ _ _ Hm). cbn [rbind]. rewrite H7.
    destruct (len raw / calcsize f =? 1) eqn:H1; [|reflexivity].
    apply Z.eqb_eq in H1. rewrite H1 in *. simpl.
    rewrite take_ge; [reflexivity|]. unfold len in Hm. lia.
  - apply Z.eqb_neq in Hm. rewrite unpack_inexact; [reflexivity|].
    intros H. apply exact_multiple in H; [contradiction | assumption].
Qed.

(** A one-byte [bytes] object decodes as UTF-8 exactly when it is ASCII. *)
Lemma utf8_decode_single (c : byte) :
  utf8_decode [c] =
  if byte_val c <? 0x80 then Ok [byte_val c] else Err UnicodeDecodeError.
Proof.
  simpl. destruct (byte_val c <? 0x80); [reflexivity|].
  repeat match goal with |- context [if ?b then _ else _] => destruct b end;
    reflexivity.
Qed.

(** What [parse_value] does with the base-type code 7: it decodes the first
    byte of the slice, and nothing else. *)
Lemma parse_value_string raw endian :
  parse_value raw 7 endian =
  match raw with
  | [] => Err IndexError
  | c :: _ =>
    if byte_val c <? 0x80 then Ok (VStr (rstrip_nul [byte_val c]))
    else Err UnicodeDecodeError
  end.
Proof.
  unfold parse_value. change (base_formats (Z.land 7 0x1F)) with (Some fmt_s).
  cbv iota beta zeta. change (calcsize fmt_s) with 1.
  rewrite Z.div_1_r. rewrite unpack_exact by (simpl; lia). cbn [rbind].
  change (7 =? 7) with true. cbv iota.
  unfold len. rewrite Nat2Z.id.
  destruct raw as [|c rest]; [reflexivity|].
  cbn [length unpack_items unpack_one calcsize]. change (Z.to_nat 1) with 1%nat.
  cbn [take]. rewrite utf8_decode_single.
  destruct (byte_val c <? 0x80); reflexivity.
Qed.

(** When the field/type decoder raises, and when it does not. *)
Lemma parse_value_Err_iff raw base_type endian :
  is_Err (parse_value raw base_type endian) <->
  exists f, base_formats (Z.land base_type 0x1F) = Some f /\
    (len raw mod calcsize f <> 0 \/
     (base_type = 7 /\
      match raw with [] => True | c :: _ => 0x80 <= byte_val c end)).
Proof.
  destruct (base_formats (Z.land base_type 0x1F)) as [f|] eqn:Hf.
  - destruct (Z.eq_dec base_type 7) as [-> | Hne].
    + simpl in Hf. injection Hf as <-. rewrite parse_value_string.
      split.
      * intros He. exists fmt_s. split; [reflexivity|]. right. split; [reflexivity|].
        destruct raw as [|c rest]; [exact I|].
        destruct (Z.ltb_spec (byte_val c) 0x80); [destruct He | lia].
      * intros (f & Hf & [Hm | [_ Hc]]).
        -- injection Hf as <-. simpl in Hm. rewrite Z.mod_1_r in Hm. lia.
        -- destruct raw as [|c rest]; [exact I|].
           destruct (Z.ltb_spec (byte_val c) 0x80); [lia | exact I].
    + assert (H7 : (base_type =? 7) = false) by (now apply Z.eqb_neq).
      rewrite (parse_value_known _ _ _ _ Hf H7).
      destruct (Z.eqb_spec (len raw mod calcsize f) 0) as [Hm | Hm].
      * split.
        -- destruct (len raw / calcsize f =? 1); intros [].
        -- intros (f' & Hf' & [Hm' | [? _]]); [|contradiction].
           assert (f' = f) by congruence. subst f'. contradiction.
      * split; [|intros _; exact I].
        intros _. exists f. split; [reflexivity | left; assumption].
  - unfold parse_value. rewrite Hf. split; [intros [] |].
    intros (f & Hf' & _). discriminate.
Qed.

(** The numeric kind lies in 0..31, so the unrecognized kinds are 17..31. *)
Lemma base_num_range base_type : 0 <= Z.land base_type 0x1F < 32.
Proof.
  change 0x1F with (Z.ones 5). rewrite Z.land_ones by lia.
  apply Z.mod_pos_bound. reflexivity.
Qed.

Lemma unrecognized_kind_iff base_type :
  base_formats (Z.land base_type 0x1F) = None <-> 17 <= Z.land base_type 0x1F.
Proof.
  rewrite base_formats_None. pose proof (base_num_range base_type). lia.
Qed.

Lemma unpack_one_scalar endian f raw : f <> fmt_s -> is_scalar (unpack_one endian f raw).
Proof. destruct f; simpl; auto. Qed.

(** C5, as the code has it: for a recognized numeric base type, a slice of
    exactly one scalar width decodes to that scalar; a slice of [k >= 2]
    widths decodes to the array of its [k] scalars, item [i] read from bytes
    [i * w .. i * w + w) in the given byte order; an empty slice decodes to
    the empty array; and a slice whose length is no multiple of the width is
    rejected with [struct.error].  A 16-bit unsigned field of size 8 is an
    array of four integers, and one of size 2 is a single integer. *)
Theorem C5_numeric_scalar_or_array raw base_type endian f :
  base_formats (Z.land base_type 0x1F) = Some f -> f <> fmt_s ->
  (len raw = calcsize f ->
     parse_value raw base_type endian = Ok (unpack_one endian f raw) /\
     is_scalar (unpack_one endian f raw)) /\
  (forall k, 2 <= k -> len raw = k * calcsize f ->
     exists items,
       parse_value raw base_type endian = Ok (VTuple items) /\
       len items = k /\
       forall i, 0 <= i < k ->
         items !! Z.to_nat i =
         Some (unpack_one endian f (slice raw (i * calcsize f) (calcsize f))) /\
         is_scalar (unpack_one endian f (slice raw (i * calcsize f) (calcsize f)))) /\
  (len raw = 0 -> parse_value raw base_type endian = Ok (VTuple [])) /\
  (len raw mod calcsize f <> 0 ->
     parse_value raw base_type endian = Err StructError) /\
  (f = fmt_H -> len raw = 8 ->
     exists a b c d,
       parse_value raw base_type endian = Ok (VTuple [VInt a; VInt b; VInt c; VInt d])) /\
  (f = fmt_H -> len raw = 2 ->
     exists a, parse_value raw base_type endian = Ok (VInt a)).
Proof.
  intros Hf Hs. pose proof (base_formats_string _ _ Hf Hs) as H7.
  pose proof (calcsize_pos f) as Hw.
  rewrite (parse_value_known _ _ _ _ Hf H7).
  repeat split.
  - rewrite H, Z.mod_same, Z.div_same by lia. reflexivity.
  - now apply unpack_one_scalar.
  - intros k Hk Hlen. rewrite Hlen, Z.mod_mul, Z.div_mul by lia.
    change (0 =? 0) with true. cbv iota.
    destruct (Z.eqb_spec k 1) as [?|_]; [lia|].
    eexists. split; [reflexivity|]. split.
    + unfold len. rewrite unpack_items_length. lia.
    + intros i Hi. split; [|now apply unpack_one_scalar].
      rewrite unpack_items_lookup by lia. unfold slice.
      replace (Z.to_nat i * Z.to_nat (calcsize f))%nat
        with (Z.to_nat (i * calcsize f)) by lia.
      reflexivity.
  - intros Hlen. rewrite Hlen. rewrite Z.mod_0_l, Z.div_0_l by lia. reflexivity.
  - intros Hm. apply Z.eqb_neq in Hm. now rewrite Hm.
  - intros -> Hlen. rewrite Hlen. simpl.
    destruct raw as [|r0 [|r1 [|r2 [|r3 [|r4 [|r5 [|r6 [|r7 [|r8 rest]]]]]]]]];
      try discriminate Hlen; [|unfold len in Hlen; simpl in Hlen; lia].
    unfold unpack_items, unpack_one. do 4 eexists. reflexivity.
  - intros -> Hlen. rewrite Hlen. simpl. eexists. reflexivity.
Qed.

Lemma C5_numeric_scalar_or_array_witness :
  base_formats (Z.land 0x84 0x1F) = Some fmt_H /\ fmt_H <> fmt_s /\
  parse_value [x01; x02] 0x84 BigEndian = Ok (VInt 258) /\
  exists items,
    parse_value [x01; x02; x03; x04] 0x84 BigEndian = Ok (VTuple items) /\
    len items = 2.
Proof.
  split; [reflexivity|]. split; [discriminate|]. split.
  - destruct (C5_numeric_scalar_or_array [x01; x02] 0x84 BigEndian fmt_H
                eq_refl ltac:(discriminate)) as (Hone & _).
    destruct (Hone eq_refl) as [Heq _]. exact Heq.
  - destruct (C5_numeric_scalar_or_array [x01; x02; x03; x04] 0x84 BigEndian
                fmt_H eq_refl ltac:(discriminate)) as (_ & Harr & _).
    destruct (Harr 2 ltac:(lia) eq_refl) as (items & Heq & Hlen & _).
    exists items. split; assumption.
Defined.

(** A three-byte slice of 16-bit unsigned type is no multiple of the width,
    and the decoder raises instead of returning a single scalar. *)
Lemma C5_counterexample :
  base_formats (Z.land 0x84 0x1F) = Some fmt_H /\
  len [x01; x02; x03] mod calcsize fmt_H <> 0 /\
  parse_value [x01; x02; x03] 0x84 LittleEndian = Err StructError /\
  ~ (exists v, parse_value [x01; x02; x03] 0x84 LittleEndian = Ok v /\ is_scalar v).
Proof.
  split; [reflexivity|]. split; [discriminate|]. split; [reflexivity|].
  intros (v & Hv & _). discriminate Hv.
Qed.

(** C6, at the failing input: the five bytes ["abc\x00\x00"] of a field of
    base type 7 decode to the one-character string ["a"], where decoding the
    slice as UTF-8 and trimming the trailing NULs gives ["abc"]; and under
    the base-type code 0x87, whose low five bits are 7 as well, the same
    bytes decode to a tuple of five one-byte [bytes] objects. *)
Theorem C6_string_keeps_first_byte :
  parse_value [x61; x62; x63; x00; x00] 7 LittleEndian = Ok (VStr [97]) /\
  rbind (utf8_decode [x61; x62; x63; x00; x00])
        (fun s => Ok (VStr (rstrip_nul s))) = Ok (VStr [97; 98; 99]) /\
  Z.land 0x87 0x1F = 7 /\
  parse_value [x61; x62; x63; x00; x00] 0x87 LittleEndian
  = Ok (VTuple [VBytes [x61]; VBytes [x62]; VBytes [x63];
                VBytes [x00]; VBytes [x00]]).
Proof. repeat split. Qed.

(** C9: a base-type code whose kind, after masking to the low five bits, is
    not in the table decodes to the raw slice itself, whatever the slice and
    the byte order; no exception is raised. *)
Theorem C9_unrecognized_kind_passthrough raw base_type endian :
  base_formats (Z.land base_type 0x1F) = None ->
  parse_value raw base_type endian = Ok (VBytes raw).
Proof. intros Hf. unfold parse_value. now rewrite Hf. Qed.

Lemma C9_unrecognized_kind_passthrough_witness :
  base_formats (Z.land 0x91 0x1F) = None /\
  parse_value [x01; x02; x03] 0x91 BigEndian = Ok (VBytes [x01; x02; x03]).
Proof.
  split; [reflexivity|].
  apply (C9_unrecognized_kind_passthrough [x01; x02; x03] 0x91 BigEndian).
  reflexivity.
Defined.

(** ** Methods that only move the cursor *)

Lemma cursor_only_Ok {A} (m : M A) st a st' :
  cursor_only m -> m st = Ok (a, st') ->
  data st' = data st /\ defs st' = defs st /\
  last_timestamp st' = last_timestamp st.
Proof.
  intros Hm E. specialize (Hm st). rewrite E in Hm. destruct Hm as [-> _].
  auto.
Qed.

Lemma cursor_only_ret {A} (a : A) : cursor_only (ret a).
Proof. intros [d p dm lt]. simpl. auto. Qed.

Lemma cursor_only_lift {A} (r : result A) : cursor_only (lift r).
Proof. intros [d p dm lt]. unfold lift. destruct r; simpl; auto. Qed.

Lemma cursor_only_read size : cursor_only (read size).
Proof. intros [d p dm lt]. simpl. auto. Qed.

Lemma cursor_only_bind {A B} (m : M A) (k : A -> M B) :
  cursor_only m -> (forall a, cursor_only (k a)) -> cursor_only (bind m k).
Proof.
  intros Hm Hk st. unfold bind. specialize (Hm st).
  destruct (m st) as [[a st1]|e].
  - destruct Hm as [Hst1 Hm]. specialize (Hk a st1).
    destruct (k a st1) as [[b st2]|e].
    + destruct Hk as [Hst2 Hk]. split.
      * rewrite Hst2 at 1. rewrite Hst1. reflexivity.
      * intros dm lt. rewrite Hm. apply Hk.
    + intros dm lt. rewrite Hm. apply Hk.
  - intros dm lt. now rewrite Hm.
Qed.

Lemma cursor_only_read_byte : cursor_only read_byte.
Proof.
  apply cursor_only_bind; [apply cursor_only_read|].
  intros b. apply cursor_only_lift.
Qed.

Lemma cursor_only_read_fields n : cursor_only (read_fields n).
Proof.
  induction n as [|n IH]; simpl; [apply cursor_only_ret|].
  repeat (apply cursor_only_bind; [apply cursor_only_read_byte | intros ?]).
  apply cursor_only_bind; [exact IH | intros ?]. apply cursor_only_ret.
Qed.

Lemma cursor_only_decode_fields endian fds fields :
  cursor_only (decode_fields endian fds fields).
Proof.
  revert fields. induction fds as [|[[field_def size] base_type] fds IH];
    intros fields; simpl; [apply cursor_only_ret|].
  apply cursor_only_bind; [apply cursor_only_read | intros raw].
  apply cursor_only_bind; [apply cursor_only_lift | intros v]. apply IH.
Qed.

(** ** The definition table *)

Lemma cursor_only_read_definition : cursor_only read_definition.
Proof.
  unfold read_definition.
  apply cursor_only_bind; [apply cursor_only_read | intros _].
  apply cursor_only_bind; [apply cursor_only_read_byte | intros arch].
  apply cursor_only_bind; [apply cursor_only_read | intros raw].
  apply cursor_only_bind; [apply cursor_only_lift | intros g].
  apply cursor_only_bind; [apply cursor_only_read_byte | intros n].
  apply cursor_only_bind; [apply cursor_only_read_fields | intros fds].
  apply cursor_only_ret.
Qed.

(** [parse_definition] stores under the slot what [read_definition] read. *)
Lemma parse_definition_unfold local_msg st :
  parse_definition local_msg st =
  match read_definition st with
  | Ok (d, st') => Ok (tt, set_defs (<[local_msg := d]> (defs st')) st')
  | Err e => Err e
  end.
Proof.
  unfold parse_definition, read_definition, bind, modify, ret.
  repeat match goal with
         | |- context [match ?m ?s with Ok _ => _ | Err _ => _ end] =>
           destruct (m s) as [[? ?]|?]
         end; reflexivity.
Qed.

(** A successful read of [n] field triples consumed [3 * n] bytes that were
    all there, and every component read is a byte value. *)
Lemma read_fields_Ok n st fds st' :
  read_fields n st = Ok (fds, st') ->
  pos st' = pos st + 3 * Z.of_nat n /\
  data st' = data st /\
  length fds = n /\
  Forall (fun fd => 0 <= field_size fd < 256) fds /\
  (0 <= pos st -> n <> O -> pos st' <= len (data st)).
Proof.
  revert st fds st'. induction n as [|n IH]; intros st fds st' H.
  - injection H as <- <-. repeat split; auto; try lia; try congruence.
  - simpl in H. inv_bind H. inv_bind H. inv_bind H. inv_bind H.
    injection H as <- <-.
    apply read_byte_Ok in E as (-> & Ha & Hb0).
    apply read_byte_Ok in E0 as (-> & Ha0 & Hb1).
    apply read_byte_Ok in E1 as (-> & Ha1 & Hb2).
    apply IH in E2 as (Hp & Hd & Hl & Hf & Hb). simpl in *.
    split; [lia|]. split; [assumption|]. split; [congruence|]. split.
    + constructor; [exact Ha0 | exact Hf].
    + intros Hpos _. destruct n as [|n]; [|apply Hb; lia]. lia.
Qed.

Lemma read_fields_Err n st e : read_fields n st = Err e -> e = IndexError.
Proof.
  revert st. induction n as [|n IH]; intros st H; [discriminate|].
  simpl in H.
  repeat (apply bind_Err_inv in H as [H | (? & ? & _ & H)];
          [now apply read_byte_Err_inv in H|]).
  apply bind_Err_inv in H as [H | (? & ? & _ & H)]; [eauto | discriminate].
Qed.

(** A successful definition read consumed the five fixed bytes and three
    bytes per field, all of them inside the buffer. *)
Lemma read_definition_Ok st d st' :
  read_definition st = Ok (d, st') ->
  st' = set_pos (pos st + 5 + 3 * len (d_fields d)) st /\
  (0 <= pos st -> pos st' <= len (data st)) /\
  Forall (fun fd => 0 <= field_size fd < 256) (d_fields d).
Proof.
  intros H. pose proof (cursor_only_read_definition st) as Hc.
  rewrite H in Hc. destruct Hc as [Hst' _].
  unfold read_definition in H.
  inv_bind H as r0 s0 E0. injection E0 as _ <-.
  inv_bind H as arch s1 E1. apply read_byte_Ok in E1 as (-> & _ & Hb1).
  inv_bind H as raw s2 E2. injection E2 as _ <-.
  inv_bind H as g s3 E3. apply lift_Ok_inv in E3 as [_ ->].
  inv_bind H as n s4 E4. apply read_byte_Ok in E4 as (-> & Hn & Hb2).
  inv_bind H as fds s5 E5. apply read_fields_Ok in E5 as (Hp & Hd & Hl & Hf & Hb).
  injection H as <- <-. simpl in *.
  assert (Hpos : pos s5 = pos st + 5 + 3 * len fds).
  { unfold len. rewrite Hl, Hp. lia. }
  split; [rewrite Hst'; now rewrite Hpos|].
  split; [|assumption].
  intros Hpos0. destruct (Z.to_nat n) as [|k] eqn:Hk.
  - rewrite Hp. specialize (Hb2 ltac:(lia)). lia.
  - apply Hb; lia.
Qed.

(** A definition read only fails for want of bytes: [IndexError] from
    indexing an empty slice, [struct.error] from unpacking a short one. *)
Lemma read_definition_Err st e :
  read_definition st = Err e -> e = IndexError \/ e = StructError.
Proof.
  unfold read_definition. intros H.
  apply bind_Err_inv in H as [H | (? & ? & _ & H)]; [discriminate|].
  apply bind_Err_inv in H as [H | (? & ? & _ & H)];
    [left; now apply read_byte_Err_inv in H|].
  apply bind_Err_inv in H as [H | (? & ? & _ & H)]; [discriminate|].
  apply bind_Err_inv in H as [H | (? & ? & _ & H)].
  { apply lift_Err_inv in H. unfold unpack_H in H.
    destruct (len _ =? 2); [discriminate | right; congruence]. }
  apply bind_Err_inv in H as [H | (? & ? & _ & H)];
    [left; now apply read_byte_Err_inv in H|].
  apply bind_Err_inv in H as [H | (? & ? & _ & H)];
    [left; now apply read_fields_Err in H | discriminate].
Qed.

(** ** Data messages *)

Lemma parse_data_message_missing local_msg st :
  defs st !! local_msg = None ->
  parse_data_message local_msg st = Err (ValueError_missing local_msg).
Proof. intros H. unfold parse_data_message. now rewrite H. Qed.

Lemma parse_data_message_defined local_msg st d :
  defs st !! local_msg = Some d ->
  parse_data_message local_msg st =
  decode_fields (d_endian d) (d_fields d) ∅ st.
Proof. intros H. unfold parse_data_message. now rewrite H. Qed.

Lemma parse_data_message_frame local_msg st fields st' :
  parse_data_message local_msg st = Ok (fields, st') ->
  data st' = data st /\ defs st' = defs st /\
  last_timestamp st' = last_timestamp st.
Proof.
  unfold parse_data_message. destruct (defs st !! local_msg) as [d|];
    [|discriminate].
  apply cursor_only_Ok, cursor_only_decode_fields.
Qed.

(** The keys of the decoded record are the identifiers the definition
    declares (and those already present). *)
Lemma decode_fields_keys endian fds fields0 st fields st' (k : Z) :
  decode_fields endian fds fields0 st = Ok (fields, st') ->
  (is_Some (fields !! k) <-> In k (map field_id fds) \/ is_Some (fields0 !! k)).
Proof.
  revert fields0 st. induction fds as [|[[fid size] bt] fds IH];
    intros fields0 st H.
  - injection H as <- <-. simpl. tauto.
  - simpl in H. inv_bind H. inv_bind H. apply IH in H. rewrite H.
    simpl. unfold field_id at 2. simpl.
    destruct (decide (fid = k)) as [-> | Hne].
    + rewrite lookup_insert_eq. split; eauto.
    + rewrite lookup_insert_ne by assumption. tauto.
Qed.

(** With non-negative sizes the field loop never moves the cursor back. *)
Lemma decode_fields_pos endian fds fields0 st fields st' :
  Forall (fun fd => 0 <= field_size fd) fds ->
  decode_fields endian fds fields0 st = Ok (fields, st') ->
  pos st <= pos st'.
Proof.
  revert fields0 st. induction fds as [|[[fid size] bt] fds IH];
    intros fields0 st Hf H.
  - injection H as <- <-. lia.
  - apply Forall_cons in Hf as [Hsize Hf]. unfold field_size in Hsize.
    simpl in Hsize, H. inv_bind H. injection E as <- <-.
    inv_bind H. apply lift_Ok_inv in E as [_ ->].
    apply IH in H; [|assumption]. simpl in H. lia.
Qed.

(** ** One iteration of the parse loop *)

Lemma parse_message_unfold records st :
  parse_message records st =
  match read_byte st with
  | Ok (header, st1) =>
    if negb (Z.land header 0x80 =? 0)
    then compressed_message header records st1
    else normal_message header records st1
  | Err e => Err e
  end.
Proof.
  unfold parse_message, bind.
  destruct (read_byte st) as [[header st1]|e]; [|reflexivity].
  destruct (negb (Z.land header 0x80 =? 0)); reflexivity.
Qed.

Lemma is_record_defined local_msg st d :
  defs st !! local_msg = Some d -> is_record local_msg st = (d_global d =? 20).
Proof. intros H. unfold is_record, get_global. now rewrite H. Qed.

(** The compressed branch, when the last known timestamp is unset (then it
    counts as 0) or an integer [T]: the new timestamp is stored first, the
    data message is decoded next, and the timestamp is put into the record
    under 253 last. *)
Lemma compressed_message_int header records st T ts :
  default (VInt 0) (last_timestamp st) = VInt T ->
  compressed_timestamp (VInt T) (Z.land header 0x1F) = Ok ts ->
  compressed_message header records st =
  (fields <- parse_data_message (Z.land (Z.shiftr header 5) 0x3) ;;
   forward (Z.land (Z.shiftr header 5) 0x3) (<[253 := VInt ts]> fields) records)
    (set_last_timestamp (Some (VInt ts)) st).
Proof.
  intros HT Hts. unfold compressed_message.
  unfold bind at 1. unfold modify at 1. unfold bind at 1. unfold gets at 1.
  unfold bind at 1.
  assert (Hlast : default (VInt 0)
            (last_timestamp
               match last_timestamp st with
               | Some _ => st
               | None => set_last_timestamp (Some (VInt 0)) st
               end) = VInt T).
  { destruct (last_timestamp st) eqn:E; simpl; [rewrite E|]; exact HT. }
  rewrite Hlast. unfold lift at 1. rewrite Hts.
  unfold bind at 1. unfold modify at 1.
  destruct (last_timestamp st); reflexivity.
Qed.

(** The compressed branch on a last known timestamp that is no integer:
    the [&] raises before anything is decoded. *)
Lemma compressed_message_TypeError header records st v :
  last_timestamp st = Some v -> (forall T, v <> VInt T) ->
  compressed_message header records st = Err TypeError.
Proof.
  intros Hv Hni. unfold compressed_message, bind, modify, gets, lift.
  rewrite Hv. simpl. rewrite Hv. simpl.
  destruct v; try reflexivity. now destruct (Hni n).
Qed.

(** A normal data message whose fields decode. *)
Lemma normal_message_data header records st fields st2 :
  Z.land header 0x40 = 0 ->
  parse_data_message (Z.land header 0x0F) st = Ok (fields, st2) ->
  normal_message header records st =
  Ok (if is_record (Z.land header 0x0F) st2
      then records ++ [inherit_timestamp fields (last_timestamp st)]
      else records,
      set_last_timestamp (next_timestamp fields (last_timestamp st)) st2).
Proof.
  intros Hd Hp. unfold normal_message. rewrite Hd.
  change (negb (0 =? 0)) with false. cbv iota.
  rewrite (bind_Ok_eq _ _ _ _ _ Hp).
  destruct (parse_data_message_frame _ _ _ _ Hp) as (_ & _ & Hl).
  unfold bind, gets, modify, ret, forward, inherit_timestamp, next_timestamp.
  rewrite Hl.
  destruct st2 as [d2 p2 dm2 lt2]. simpl in *. subst lt2.
  destruct (fields !! 253) as [t|]; [reflexivity|].
  destruct (last_timestamp st); reflexivity.
Qed.

(** A normal data message whose decoding raises. *)
Lemma normal_message_data_Err header records st e :
  Z.land header 0x40 = 0 ->
  parse_data_message (Z.land header 0x0F) st = Err e ->
  normal_message header records st = Err e.
Proof.
  intros Hd Hp. unfold normal_message. rewrite Hd.
  change (negb (0 =? 0)) with false. cbv iota.
  now rewrite (bind_Err_eq _ _ _ _ Hp).
Qed.

(** A definition message. *)
Lemma normal_message_definition header records st :
  Z.land header 0x40 <> 0 ->
  normal_message header records st =
  match read_definition st with
  | Ok (d, st') =>
    Ok (records, set_defs (<[Z.land header 0x0F := d]> (defs st')) st')
  | Err e => Err e
  end.
Proof.
  intros Hd. unfold normal_message. apply Z.eqb_neq in Hd. rewrite Hd.
  change (negb false) with true. cbv iota. unfold bind at 1.
  rewrite parse_definition_unfold.
  destruct (read_definition st) as [[d st']|e]; reflexivity.
Qed.

(** Every way the compressed branch can succeed. *)
Lemma compressed_message_Ok_inv header records st records' st' :
  compressed_message header records st = Ok (records', st') ->
  exists T ts fields,
    default (VInt 0) (last_timestamp st) = VInt T /\
    compressed_timestamp (VInt T) (Z.land header 0x1F) = Ok ts /\
    parse_data_message (Z.land (Z.shiftr header 5) 0x3)
      (set_last_timestamp (Some (VInt ts)) st) = Ok (fields, st') /\
    records' = if is_record (Z.land (Z.shiftr header 5) 0x3) st'
               then records ++ [<[253 := VInt ts]> fields] else records.
Proof.
  intros H.
  assert (Hint : exists T, default (VInt 0) (last_timestamp st) = VInt T).
  { destruct (last_timestamp st) as [v|] eqn:Hv; [|now exists 0].
    destruct v; try (rewrite (compressed_message_TypeError _ _ _ _ Hv) in H;
                     [discriminate | intros ?; discriminate]).
    now eexists. }
  destruct Hint as [T HT]. exists T.
  assert (Hts : exists ts, compressed_timestamp (VInt T) (Z.land header 0x1F) = Ok ts)
    by (simpl; eauto).
  destruct Hts as [ts Hts]. exists ts.
  rewrite (compressed_message_int _ _ _ _ _ HT Hts) in H.
  inv_bind H as fields st2 E. exists fields.
  unfold forward in H. injection H as <- <-. auto.
Qed.

(** ** Termination of the parse loop *)

Lemma sizes_ok_empty : sizes_ok ∅.
Proof. intros slot d H. rewrite lookup_empty in H. discriminate. Qed.

Lemma sizes_ok_insert dm slot d :
  sizes_ok dm -> Forall (fun fd => 0 <= field_size fd < 256) (d_fields d) ->
  sizes_ok (<[slot := d]> dm).
Proof.
  intros Hdm Hd slot' d' H. destruct (decide (slot = slot')) as [-> | Hne].
  - rewrite lookup_insert_eq in H. injection H as <-.
    eapply Forall_impl; [exact Hd|]. simpl. intros; lia.
  - rewrite lookup_insert_ne in H by assumption. eauto.
Qed.

(** An iteration that succeeds found its header byte inside the buffer and
    moved the cursor forward, and it keeps the invariant. *)
Lemma parse_message_progress records st records' st' :
  wf st -> parse_message records st = Ok (records', st') ->
  wf st' /\ data st' = data st /\
  pos st + 1 <= pos st' /\ pos st + 1 <= len (data st).
Proof.
  intros [Hpos Hsz] H. rewrite parse_message_unfold in H.
  destruct (read_byte st) as [[header st1]|e] eqn:Hrd; [|discriminate].
  apply read_byte_Ok in Hrd as (-> & _ & Hb). specialize (Hb Hpos).
  destruct (negb (Z.land header 0x80 =? 0)).
  - apply compressed_message_Ok_inv in H as (T & ts & fields & _ & _ & Hp & _).
    pose proof (parse_data_message_frame _ _ _ _ Hp) as (Hd & Hdm & _).
    simpl in Hd, Hdm.
    unfold parse_data_message in Hp. simpl in Hp.
    destruct (defs st !! _) as [d|] eqn:Hslot; [|discriminate].
    apply decode_fields_pos in Hp; [|eauto]. simpl in Hp.
    repeat split; try assumption; try lia. now rewrite Hdm.
  - destruct (Z.eq_dec (Z.land header 0x40) 0) as [Hdef | Hdef].
    + destruct (parse_data_message (Z.land header 0x0F) (set_pos (pos st + 1) st))
        as [[fields st2]|e] eqn:Hp.
      * rewrite (normal_message_data _ _ _ _ _ Hdef Hp) in H.
        injection H as _ <-.
        pose proof (parse_data_message_frame _ _ _ _ Hp) as (Hd & Hdm & _).
        simpl in Hd, Hdm.
        unfold parse_data_message in Hp. simpl in Hp.
        destruct (defs st !! _) as [d|] eqn:Hslot; [|discriminate].
        apply decode_fields_pos in Hp; [|eauto]. simpl in Hp.
        repeat split; simpl; try assumption; try lia. now rewrite Hdm.
      * rewrite (normal_message_data_Err _ _ _ _ Hdef Hp) in H. discriminate.
    + rewrite (normal_message_definition _ _ _ Hdef) in H.
      destruct (read_definition (set_pos (pos st + 1) st)) as [[d st2]|e] eqn:Hr;
        [|discriminate].
      injection H as _ <-.
      apply read_definition_Ok in Hr as (-> & _ & Hf). simpl.
      pose proof (len_nonneg (d_fields d)).
      repeat split; simpl; try lia.
      now apply sizes_ok_insert.
Qed.

(** With more fuel than bytes remain, the loop returns: either the records
    or the exception that ended the pass. *)
Lemma parse_loop_fuel fuel end_ records st :
  wf st -> (remaining st < fuel)%nat ->
  exists r, parse_loop fuel end_ records st = Some r.
Proof.
  revert records st. induction fuel as [|fuel IH]; intros records st Hwf Hfuel.
  - lia.
  - simpl. destruct (pos st <? end_); [|eauto].
    destruct (parse_message records st) as [[records' st']|e] eqn:Hstep;
      [|eauto].
    apply parse_message_progress in Hstep as (Hwf' & Hd & Hp & Hb);
      [|assumption].
    apply IH; [assumption|].
    destruct Hwf as [Hpos _]. unfold remaining, len in *. rewrite Hd. lia.
Qed.

(** [parse] terminates on every buffer, whatever lengths its header
    declares. *)
Theorem parse_total st :
  sizes_ok (defs st) -> exists r, parse st = Some r.
Proof.
  intros Hsz. unfold parse.
  destruct (item0 (data st)) as [header_size|e] eqn:Hh; [|eauto].
  destruct (unpack_from_I (data st) 4) as [data_size|e]; [|eauto].
  apply parse_loop_fuel.
  - split; [|exact Hsz]. simpl. unfold item0 in Hh.
    destruct (data st) as [|c rest]; [discriminate|]. injection Hh as <-.
    apply byte_val_range.
  - unfold remaining. simpl. lia.
Qed.

(** X1: [parse] on a fresh parser terminates on every buffer: the loop
    returns the records or the exception after at most [len(data) + 1]
    iterations. *)
Corollary parse_init_total d : exists r, parse (init d) = Some r.
Proof. apply parse_total, sizes_ok_empty. Qed.

(** ** Compressed timestamps *)

(** [T & ~0x1F] is [T] with its five low bits cleared, for every integer
    [T], negative ones included. *)
Lemma land_lnot_31 T : Z.land T (Z.lnot 0x1F) = T - T mod 32.
Proof.
  rewrite <- Z.ldiff_land. change 0x1F with (Z.ones 5).
  rewrite Z.ldiff_ones_r by lia.
  rewrite Z.shiftr_div_pow2, Z.shiftl_mul_pow2 by lia.
  change (2 ^ 5) with 32. pose proof (Z.div_mod T 32 ltac:(lia)). lia.
Qed.

Lemma cleared_low_bits T i :
  0 <= i -> Z.testbit (T - T mod 32) i = (5 <=? i) && Z.testbit T i.
Proof.
  intros Hi. rewrite <- land_lnot_31. rewrite Z.land_spec, Z.lnot_spec by lia.
  change 0x1F with (Z.ones 5). rewrite Z.testbit_ones by lia.
  destruct (Z.testbit T i); [|now rewrite !andb_false_r + rewrite andb_false_l].
  rewrite andb_true_l, andb_true_r.
  destruct (Z.leb_spec 5 i), (Z.leb_spec 0 i), (Z.ltb_spec i 5); simpl; lia || reflexivity.
Qed.

Lemma offset_range header : 0 <= Z.land header 0x1F <= 31.
Proof. pose proof (base_num_range header). lia. Qed.

Lemma compressed_timestamp_int T o :
  compressed_timestamp (VInt T) o = Ok (reconstructed T o).
Proof. unfold compressed_timestamp, reconstructed. now rewrite land_lnot_31. Qed.

(** The rebuilt timestamp is the first instant after [T] whose five low
    bits are the offset. *)
Lemma reconstructed_spec T o :
  0 <= o <= 31 ->
  T < reconstructed T o /\ reconstructed T o mod 32 = o /\
  forall x, T < x -> x mod 32 = o -> reconstructed T o <= x.
Proof.
  intros Ho. unfold reconstructed.
  pose proof (Z.mod_pos_bound T 32 ltac:(lia)) as HT.
  pose proof (Z.div_mod T 32 ltac:(lia)) as HdT.
  assert (Hc : T - T mod 32 = 32 * (T / 32)) by lia. rewrite Hc.
  assert (Hm : forall q, (32 * q + o) mod 32 = o).
  { intros q. rewrite Z.add_comm, Z.mul_comm, Z.mod_add by lia.
    apply Z.mod_small. lia. }
  destruct (Z.leb_spec (32 * (T / 32) + o) T) as [Hle | Hgt].
  - split; [lia|]. split.
    + replace (32 * (T / 32) + o + 32) with (32 * (T / 32 + 1) + o) by lia. apply Hm.
    + intros x Hx Hxo. pose proof (Z.div_mod x 32 ltac:(lia)). nia.
  - split; [lia|]. split; [apply Hm|].
    intros x Hx Hxo. pose proof (Z.div_mod x 32 ltac:(lia)). nia.
Qed.

(** One iteration on a compressed timestamp header, from an unset or integer
    last known timestamp, when the fields of the message decode. *)
Lemma compressed_step records st header st1 T fields st2 :
  read_byte st = Ok (header, st1) ->
  Z.land header 0x80 <> 0 ->
  default (VInt 0) (last_timestamp st) = VInt T ->
  parse_data_message (Z.land (Z.shiftr header 5) 0x3)
    (set_last_timestamp
       (Some (VInt (reconstructed T (Z.land header 0x1F)))) st1)
  = Ok (fields, st2) ->
  parse_message records st =
  Ok (if is_record (Z.land (Z.shiftr header 5) 0x3) st2
      then records
           ++ [<[253 := VInt (reconstructed T (Z.land header 0x1F))]> fields]
      else records, st2) /\
  last_timestamp st2 = Some (VInt (reconstructed T (Z.land header 0x1F))).
Proof.
  intros Hrd Hc HT Hp. rewrite parse_message_unfold, Hrd.
  apply Z.eqb_neq in Hc. rewrite Hc. change (negb false) with true. cbv iota.
  assert (HT1 : default (VInt 0) (last_timestamp st1) = VInt T).
  { apply read_byte_Ok in Hrd as (-> & _). exact HT. }
  rewrite (compressed_message_int _ _ _ _ _ HT1 (compressed_timestamp_int _ _)).
  rewrite (bind_Ok_eq _ _ _ _ _ Hp). split; [reflexivity|].
  apply parse_data_message_frame in Hp as (_ & _ & ->). reflexivity.
Qed.

(** C2: on a compressed timestamp header with offset [o], read while the
    last known timestamp is the integer [T], the rebuilt timestamp [ts] is
    [T] with its five low bits cleared plus [o], plus 32 when that is not
    above [T]; [ts] is above [T] and congruent to [o] modulo 32 (and it is
    the least such instant); when the message decodes, [ts] is the new last
    known timestamp and stands under 253 in the decoded record, whatever
    the message body held there, the other fields being those of the
    body. *)
Theorem C2_compressed_timestamp records st header st1 T fields st2 :
  read_byte st = Ok (header, st1) ->
  Z.land header 0x80 <> 0 ->
  last_timestamp st = Some (VInt T) ->
  let o := Z.land header 0x1F in
  let slot := Z.land (Z.shiftr header 5) 0x3 in
  let cleared := Z.land T (Z.lnot 0x1F) in
  let ts := if cleared + o <=? T then cleared + o + 32 else cleared + o in
  parse_data_message slot (set_last_timestamp (Some (VInt ts)) st1)
  = Ok (fields, st2) ->
  0 <= o <= 31 /\
  (forall i, 0 <= i -> Z.testbit cleared i = (5 <=? i) && Z.testbit T i) /\
  T < ts /\ ts mod 32 = o /\
  (forall x, T < x -> x mod 32 = o -> ts <= x) /\
  (exists record,
     parse_message records st =
     Ok (if is_record slot st2 then records ++ [record] else records, st2) /\
     record !! 253 = Some (VInt ts) /\
     forall k, k <> 253 -> record !! k = fields !! k) /\
  last_timestamp st2 = Some (VInt ts).
Proof.
  intros Hrd Hc HT o slot cleared ts Hp.
  assert (Hts : ts = reconstructed T o).
  { unfold ts, cleared, reconstructed. now rewrite land_lnot_31. }
  pose proof (offset_range header) as Ho. fold o in Ho.
  destruct (reconstructed_spec T o Ho) as (Hgt & Hmod & Hmin).
  rewrite Hts in *.
  assert (HT0 : default (VInt 0) (last_timestamp st) = VInt T) by now rewrite HT.
  destruct (compressed_step records _ _ _ _ _ _ Hrd Hc HT0 Hp) as [Hstep Hlast].
  split; [exact Ho|]. split.
  { intros i Hi. unfold cleared. rewrite land_lnot_31. now apply cleared_low_bits. }
  split; [exact Hgt|]. split; [exact Hmod|]. split; [exact Hmin|].
  split; [|exact Hlast].
  eexists. split; [exact Hstep|]. split.
  - apply lookup_insert_eq.
  - intros k Hk. now apply lookup_insert_ne.
Qed.

(** C10: on a compressed timestamp header read before any timestamp is
    known, the last known timestamp counts as 0 and nothing is raised for
    it: the rebuilt timestamp is the offset [o] itself when [o > 0], and 32
    when [o = 0]; when the message decodes, that value is remembered and
    stands under 253 in the record. *)
Theorem C10_first_compressed_timestamp records st header st1 fields st2 :
  read_byte st = Ok (header, st1) ->
  Z.land header 0x80 <> 0 ->
  last_timestamp st = None ->
  let o := Z.land header 0x1F in
  let slot := Z.land (Z.shiftr header 5) 0x3 in
  let ts := if 0 <? o then o else 32 in
  parse_data_message slot (set_last_timestamp (Some (VInt ts)) st1)
  = Ok (fields, st2) ->
  compressed_timestamp (default (VInt 0) (last_timestamp st)) o = Ok ts /\
  parse_message records st =
  Ok (if is_record slot st2 then records ++ [<[253 := VInt ts]> fields]
      else records, st2) /\
  last_timestamp st2 = Some (VInt ts).
Proof.
  intros Hrd Hc HT o slot ts Hp.
  pose proof (offset_range header) as Ho. fold o in Ho.
  assert (Hts : ts = reconstructed 0 o).
  { unfold ts, reconstructed. rewrite Z.mod_0_l by lia.
    replace (0 - 0 + o) with o by lia.
    destruct (Z.ltb_spec 0 o), (Z.leb_spec o 0); lia. }
  rewrite Hts in *. rewrite HT. simpl default.
  split; [apply compressed_timestamp_int|].
  assert (HT0 : default (VInt 0) (last_timestamp st) = VInt 0) by now rewrite HT.
  exact (compressed_step records _ _ _ _ _ _ Hrd Hc HT0 Hp).
Qed.

Lemma C2_compressed_timestamp_witness :
  read_byte (sample_parser (Some (VInt 100)))
  = Ok (0x82, set_pos 1 (sample_parser (Some (VInt 100)))) /\
  Z.land 0x82 0x80 <> 0 /\
  last_timestamp (sample_parser (Some (VInt 100))) = Some (VInt 100) /\
  parse_data_message 0
    (set_last_timestamp (Some (VInt 130))
       (set_pos 1 (sample_parser (Some (VInt 100)))))
  = Ok ({[ 253 := VInt 7 ]}, sample_parser_after 130) /\
  100 < 130 /\ 130 mod 32 = 2 /\
  (exists record,
     parse_message [] (sample_parser (Some (VInt 100)))
     = Ok ([record], sample_parser_after 130) /\
     record !! 253 = Some (VInt 130)) /\
  last_timestamp (sample_parser_after 130) = Some (VInt 130).
Proof.
  assert (Hrd : read_byte (sample_parser (Some (VInt 100)))
                = Ok (0x82, set_pos 1 (sample_parser (Some (VInt 100)))))
    by reflexivity.
  assert (Hc : Z.land 0x82 0x80 <> 0) by discriminate.
  assert (HT : last_timestamp (sample_parser (Some (VInt 100))) = Some (VInt 100))
    by reflexivity.
  assert (Hp : parse_data_message 0
                 (set_last_timestamp (Some (VInt 130))
                    (set_pos 1 (sample_parser (Some (VInt 100)))))
               = Ok ({[ 253 := VInt 7 ]}, sample_parser_after 130))
    by reflexivity.
  destruct (C2_compressed_timestamp [] _ _ _ _ _ _ Hrd Hc HT Hp)
    as (_ & _ & Hgt & Hmod & _ & (record & Hstep & H253 & _) & Hlast).
  split; [exact Hrd|]. split; [exact Hc|]. split; [exact HT|].
  split; [exact Hp|]. split; [exact Hgt|]. split; [exact Hmod|].
  split; [|exact Hlast].
  exists record. split; assumption.
Defined.

Lemma C10_first_compressed_timestamp_witness :
  read_byte (sample_parser None) = Ok (0x82, set_pos 1 (sample_parser None)) /\
  Z.land 0x82 0x80 <> 0 /\
  last_timestamp (sample_parser None) = None /\
  parse_data_message 0
    (set_last_timestamp (Some (VInt 2)) (set_pos 1 (sample_parser None)))
  = Ok ({[ 253 := VInt 7 ]}, sample_parser_after 2) /\
  parse_message [] (sample_parser None)
  = Ok ([ <[253 := VInt 2]> {[ 253 := VInt 7 ]} ], sample_parser_after 2) /\
  last_timestamp (sample_parser_after 2) = Some (VInt 2).
Proof.
  assert (Hrd : read_byte (sample_parser None)
                = Ok (0x82, set_pos 1 (sample_parser None))) by reflexivity.
  assert (Hc : Z.land 0x82 0x80 <> 0) by discriminate.
  assert (HT : last_timestamp (sample_parser None) = None) by reflexivity.
  assert (Hp : parse_data_message 0
                 (set_last_timestamp (Some (VInt 2))
                    (set_pos 1 (sample_parser None)))
               = Ok ({[ 253 := VInt 7 ]}, sample_parser_after 2))
    by reflexivity.
  destruct (C10_first_compressed_timestamp [] _ _ _ _ _ Hrd Hc HT Hp)
    as (_ & Hstep & Hlast).
  split; [exact Hrd|]. split; [exact Hc|]. split; [exact HT|].
  split; [exact Hp|]. split; [exact Hstep | exact Hlast].
Defined.

(** ** Slots without a definition *)

(** The loop stops at the first iteration that raises. *)
Lemma parse_loop_Err fuel end_ records st e :
  pos st < end_ -> parse_message records st = Err e ->
  parse_loop (S fuel) end_ records st = Some (Err e).
Proof.
  intros Hpos H. simpl. apply Z.ltb_lt in Hpos. now rewrite Hpos, H.
Qed.

(** C3, as the code has it: when the header at the cursor is a data header
    or a compressed timestamp header and its slot holds no definition, the
    iteration raises and the loop ends with that exception, records and
    all.  The exception is the [ValueError] for the missing definition,
    except on a compressed timestamp header read while the last known
    timestamp is no integer: the timestamp arithmetic comes first and
    raises [TypeError]. *)
Theorem C3_undefined_slot_is_fatal records st header st1 :
  read_byte st = Ok (header, st1) ->
  (Z.land header 0x80 = 0 -> Z.land header 0x40 = 0) ->
  defs st !! header_slot header = None ->
  parse_message records st
  = Err (undefined_slot_error header (last_timestamp st)) /\
  (forall fuel end_, pos st < end_ ->
     parse_loop (S fuel) end_ records st
     = Some (Err (undefined_slot_error header (last_timestamp st)))) /\
  ((Z.land header 0x80 = 0 \/
    (forall v, last_timestamp st = Some v -> exists T, v = VInt T)) ->
   undefined_slot_error header (last_timestamp st)
   = ValueError_missing (header_slot header)).
Proof.
  intros Hrd Hdata Hslot.
  assert (Hstep : parse_message records st
                  = Err (undefined_slot_error header (last_timestamp st))).
  { rewrite parse_message_unfold, Hrd.
    pose proof Hrd as Hst1. apply read_byte_Ok in Hst1 as (-> & _).
    unfold undefined_slot_error, header_slot in *.
    destruct (Z.eqb_spec (Z.land header 0x80) 0) as [H80 | H80].
    - change (negb true) with false. cbv iota.
      apply normal_message_data_Err; [auto|].
      now apply parse_data_message_missing.
    - change (negb false) with true. cbv iota.
      destruct (last_timestamp st) as [v|] eqn:Hv.
      + destruct v as [T| | | |];
          try (eapply compressed_message_TypeError;
               [exact Hv | intros ?; discriminate]).
        erewrite compressed_message_int;
          [|simpl; rewrite Hv; reflexivity | apply compressed_timestamp_int].
        apply bind_Err_eq. now apply parse_data_message_missing.
      + erewrite compressed_message_int;
          [|simpl; rewrite Hv; reflexivity | apply compressed_timestamp_int].
        apply bind_Err_eq. now apply parse_data_message_missing. }
  split; [exact Hstep|]. split.
  - intros fuel end_ Hpos. now apply parse_loop_Err.
  - unfold undefined_slot_error, header_slot.
    intros [H80 | Hint].
    + now rewrite H80.
    + destruct (Z.land header 0x80 =? 0); [reflexivity|].
      destruct (last_timestamp st) as [v|]; [|reflexivity].
      destruct (Hint v eq_refl) as [T ->]. reflexivity.
Qed.

Lemma C3_undefined_slot_is_fatal_witness :
  exists records st st1,
    read_byte st = Ok (0xa0, st1) /\
    (Z.land 0xa0 0x80 = 0 -> Z.land 0xa0 0x40 = 0) /\
    defs st !! header_slot 0xa0 = None /\
    parse_message records st = Err (ValueError_missing 1) /\
    parse_loop 2 24 records st = Some (Err (ValueError_missing 1)) /\
    parse (init undefined_slot_stream) = Some (Err (ValueError_missing 1)).
Proof.
  exists [ {[ 0 := VInt 7 ]} ].
  exists (mkFitParser undefined_slot_stream 23
            {[ 0 := mkDefinition 20 [(0, 1, 2)] LittleEndian ]} None).
  eexists.
  assert (Hrd : read_byte
                  (mkFitParser undefined_slot_stream 23
                     {[ 0 := mkDefinition 20 [(0, 1, 2)] LittleEndian ]} None)
                = Ok (0xa0,
                      mkFitParser undefined_slot_stream 24
                        {[ 0 := mkDefinition 20 [(0, 1, 2)] LittleEndian ]} None))
    by reflexivity.
  destruct (C3_undefined_slot_is_fatal [ {[ 0 := VInt 7 ]} ] _ _ _ Hrd
              ltac:(discriminate) eq_refl) as (Hstep & Hloop & _).
  split; [exact Hrd|]. split; [discriminate|]. split; [reflexivity|].
  split; [exact Hstep|]. split; [apply (Hloop 1%nat 24); reflexivity|].
  reflexivity.
Defined.

Lemma C3_counterexample :
  parse_message [] (set_pos 12 (init float_timestamp_stream))
  = Ok ([], mkFitParser float_timestamp_stream 21 float_timestamp_defs None) /\
  parse_message []
    (mkFitParser float_timestamp_stream 21 float_timestamp_defs None)
  = Ok ([ {[ 253 := VFloat float_one ]} ],
        mkFitParser float_timestamp_stream 26 float_timestamp_defs
          (Some (VFloat float_one))) /\
  read_byte (mkFitParser float_timestamp_stream 26 float_timestamp_defs
               (Some (VFloat float_one)))
  = Ok (0xa0, mkFitParser float_timestamp_stream 27 float_timestamp_defs
                (Some (VFloat float_one))) /\
  Z.land 0xa0 0x80 <> 0 /\
  float_timestamp_defs !! Z.land (Z.shiftr 0xa0 5) 0x3 = None /\
  parse_message [ {[ 253 := VFloat float_one ]} ]
    (mkFitParser float_timestamp_stream 26 float_timestamp_defs
       (Some (VFloat float_one)))
  = Err TypeError /\
  parse (init float_timestamp_stream) = Some (Err TypeError) /\
  forall slot, TypeError <> ValueError_missing slot.
Proof.
  split; [reflexivity|]. split; [reflexivity|]. split; [reflexivity|].
  split; [discriminate|].
  split; [reflexivity|]. split; [reflexivity|]. split; [reflexivity|].
  discriminate.
Qed.

(** ** Timestamps of forwarded records *)

(** What one successful iteration appends to the records: nothing, or one
    record.  A record from a compressed timestamp message holds 253; a
    record from a normal data message holds 253 exactly when a timestamp was
    known before or the slot's definition declares the field. *)
Lemma parse_message_forwards records st records' st' :
  parse_message records st = Ok (records', st') ->
  exists header st1,
    read_byte st = Ok (header, st1) /\
    (records' = records \/
     exists record,
       records' = records ++ [record] /\
       (Z.land header 0x80 <> 0 -> has_timestamp record) /\
       (Z.land header 0x80 = 0 ->
        Z.land header 0x40 = 0 /\
        exists d, defs st !! Z.land header 0x0F = Some d /\ d_global d = 20 /\
          (has_timestamp record <->
           is_Some (last_timestamp st) \/ declares_timestamp d))).
Proof.
  intros H. rewrite parse_message_unfold in H.
  destruct (read_byte st) as [[header st1]|e] eqn:Hrd; [|discriminate].
  exists header, st1. split; [reflexivity|].
  apply read_byte_Ok in Hrd as (-> & _).
  destruct (Z.eqb_spec (Z.land header 0x80) 0) as [H80 | H80].
  - change (negb true) with false in H. cbv iota in H.
    destruct (Z.eq_dec (Z.land header 0x40) 0) as [Hdef | Hdef].
    + destruct (parse_data_message (Z.land header 0x0F) (set_pos (pos st + 1) st))
        as [[fields st2]|e] eqn:Hp.
      * rewrite (normal_message_data _ _ _ _ _ Hdef Hp) in H.
        injection H as <- <-.
        pose proof (parse_data_message_frame _ _ _ _ Hp) as (_ & Hdm & _).
        simpl in Hdm. unfold parse_data_message in Hp. simpl in Hp.
        destruct (defs st !! Z.land header 0x0F) as [d|] eqn:Hslot;
          [|discriminate].
        rewrite (is_record_defined _ _ d) by (now rewrite Hdm).
        destruct (Z.eqb_spec (d_global d) 20) as [Hg | Hg]; [|now left].
        right. eexists. split; [reflexivity|]. split; [contradiction|].
        intros _. split; [assumption|]. exists d. split; [reflexivity|].
        split; [assumption|].
        assert (Hk : is_Some (fields !! 253) <-> declares_timestamp d).
        { rewrite (decode_fields_keys _ _ _ _ _ _ 253 Hp), lookup_empty.
          unfold declares_timestamp. split; [|auto].
          intros [? | [? ?]]; [assumption | discriminate]. }
        unfold has_timestamp, inherit_timestamp. simpl last_timestamp.
        destruct (fields !! 253) as [t|] eqn:H253.
        -- rewrite H253. split; [intros _ | eauto].
           right. apply Hk. eauto.
        -- destruct (last_timestamp st) as [t|].
           ++ rewrite lookup_insert_eq. split; eauto.
           ++ rewrite H253. rewrite <- Hk. split; [auto|].
              intros [[? ?] | ?]; [discriminate | assumption].
      * rewrite (normal_message_data_Err _ _ _ _ Hdef Hp) in H. discriminate.
    + rewrite (normal_message_definition _ _ _ Hdef) in H.
      destruct (read_definition _) as [[d st2]|e]; [|discriminate].
      injection H as <- _. now left.
  - change (negb false) with true in H. cbv iota in H.
    apply compressed_message_Ok_inv in H as (T & ts & fields & _ & _ & _ & ->).
    destruct (is_record _ st'); [|now left].
    right. eexists. split; [reflexivity|]. split; [|contradiction].
    intros _. unfold has_timestamp. rewrite lookup_insert_eq. eauto.
Qed.

(** Once a timestamp is known, one stays known. *)
Lemma parse_message_keeps_timestamp records st records' st' :
  parse_message records st = Ok (records', st') ->
  is_Some (last_timestamp st) -> is_Some (last_timestamp st').
Proof.
  intros H Hlast. rewrite parse_message_unfold in H.
  destruct (read_byte st) as [[header st1]|e] eqn:Hrd; [|discriminate].
  apply read_byte_Ok in Hrd as (-> & _).
  destruct (negb (Z.land header 0x80 =? 0)).
  - apply compressed_message_Ok_inv in H as (T & ts & fields & _ & _ & Hp & _).
    apply parse_data_message_frame in Hp as (_ & _ & ->). simpl. eauto.
  - destruct (Z.eq_dec (Z.land header 0x40) 0) as [Hdef | Hdef].
    + destruct (parse_data_message (Z.land header 0x0F) (set_pos (pos st + 1) st))
        as [[fields st2]|e] eqn:Hp.
      * rewrite (normal_message_data _ _ _ _ _ Hdef Hp) in H.
        injection H as _ <-. simpl. unfold next_timestamp.
        destruct (fields !! 253); eauto.
      * rewrite (normal_message_data_Err _ _ _ _ Hdef Hp) in H. discriminate.
    + rewrite (normal_message_definition _ _ _ Hdef) in H.
      destruct (read_definition _) as [[d st2]|e] eqn:Hr; [|discriminate].
      injection H as _ <-.
      apply (cursor_only_Ok _ _ _ _ cursor_only_read_definition) in Hr
        as (_ & _ & Hl).
      simpl in *. now rewrite Hl.
Qed.

(** From a state in which a timestamp is known, every record the rest of
    the pass forwards holds field 253. *)
Lemma parse_loop_timestamps fuel end_ records st rs :
  is_Some (last_timestamp st) ->
  parse_loop fuel end_ records st = Some (Ok rs) ->
  exists new, rs = records ++ new /\ Forall has_timestamp new.
Proof.
  revert records st. induction fuel as [|fuel IH]; intros records st Hlast H;
    simpl in H.
  - destruct (pos st <? end_); [discriminate|]. injection H as <-.
    exists []. split; [now rewrite app_nil_r | constructor].
  - destruct (pos st <? end_).
    + destruct (parse_message records st) as [[records' st']|e] eqn:Hstep;
        [|discriminate].
      pose proof (parse_message_keeps_timestamp _ _ _ _ Hstep Hlast) as Hlast'.
      apply (IH _ _ Hlast') in H as (new & -> & Hnew).
      apply parse_message_forwards in Hstep
        as (header & st1 & _ & [-> | (record & -> & Hc & Hn)]).
      * eauto.
      * exists (record :: new). split; [now rewrite <- app_assoc|].
        constructor; [|assumption].
        destruct (Z.eq_dec (Z.land header 0x80) 0) as [H80 | H80]; [|auto].
        destruct (Hn H80) as (_ & d & _ & _ & Hiff). apply Hiff. now left.
    + injection H as <-. exists []. split; [now rewrite app_nil_r | constructor].
Qed.

(** ** The definition table over a pass *)

(** A definition message stores what it read under its slot, over whatever
    the slot held, and leaves the other slots alone. *)
Lemma definition_step records st header st1 d st2 :
  read_byte st = Ok (header, st1) ->
  Z.land header 0x80 = 0 -> Z.land header 0x40 <> 0 ->
  read_definition st1 = Ok (d, st2) ->
  parse_message records st
  = Ok (records, set_defs (<[Z.land header 0x0F := d]> (defs st)) st2).
Proof.
  intros Hrd H80 H40 Hr. rewrite parse_message_unfold, Hrd, H80.
  change (negb (0 =? 0)) with false. cbv iota.
  rewrite (normal_message_definition _ _ _ H40), Hr.
  apply (cursor_only_Ok _ _ _ _ cursor_only_read_definition) in Hr as (_ & -> & _).
  apply read_byte_Ok in Hrd as (-> & _). reflexivity.
Qed.

(** An iteration that is no definition message for [slot] leaves the slot
    as it is. *)
Lemma parse_message_keeps_slot slot records st records' st' :
  parse_message records st = Ok (records', st') ->
  ~ defines slot st ->
  defs st' !! slot = defs st !! slot.
Proof.
  intros H Hnd. rewrite parse_message_unfold in H.
  destruct (read_byte st) as [[header st1]|e] eqn:Hrd; [|discriminate].
  pose proof Hrd as Hst1. apply read_byte_Ok in Hst1 as (-> & _).
  destruct (Z.eqb_spec (Z.land header 0x80) 0) as [H80 | H80].
  - change (negb true) with false in H. cbv iota in H.
    destruct (Z.eq_dec (Z.land header 0x40) 0) as [Hdef | Hdef].
    + destruct (parse_data_message (Z.land header 0x0F) (set_pos (pos st + 1) st))
        as [[fields st2]|e] eqn:Hp.
      * rewrite (normal_message_data _ _ _ _ _ Hdef Hp) in H.
        injection H as _ <-.
        apply parse_data_message_frame in Hp as (_ & Hdm & _).
        simpl. now rewrite Hdm.
      * rewrite (normal_message_data_Err _ _ _ _ Hdef Hp) in H. discriminate.
    + rewrite (normal_message_definition _ _ _ Hdef) in H.
      destruct (read_definition _) as [[d st2]|e] eqn:Hr; [|discriminate].
      injection H as _ <-.
      apply (cursor_only_Ok _ _ _ _ cursor_only_read_definition) in Hr
        as (_ & Hdm & _).
      simpl in *. rewrite Hdm. apply lookup_insert_ne.
      intros Heq. apply Hnd. exists header, (set_pos (pos st + 1) st). auto.
  - change (negb false) with true in H. cbv iota in H.
    apply compressed_message_Ok_inv in H as (T & ts & fields & _ & _ & Hp & _).
    apply parse_data_message_frame in Hp as (_ & Hdm & _). now rewrite Hdm.
Qed.

Lemma latest_definition_lookup slot d st :
  latest_definition slot d st -> defs st !! slot = Some d.
Proof.
  induction 1 as [st header st1 st2 records records' st' Hrd H80 H40 Hs Hr Hstep
                 | st records records' st' _ IH Hnd Hstep].
  - rewrite (definition_step _ _ _ _ _ _ Hrd H80 H40 Hr) in Hstep.
    injection Hstep as _ <-. simpl. rewrite Hs. apply lookup_insert_eq.
  - rewrite (parse_message_keeps_slot _ _ _ _ _ Hstep Hnd). exact IH.
Qed.

(** One iteration on a normal data header whose slot holds [d]. *)
Lemma data_step records st header st1 d :
  read_byte st = Ok (header, st1) ->
  Z.land header 0x80 = 0 -> Z.land header 0x40 = 0 ->
  defs st !! Z.land header 0x0F = Some d ->
  parse_message records st =
  match decode_fields (d_endian d) (d_fields d) ∅ st1 with
  | Ok (fields, st2) =>
    Ok (if d_global d =? 20
        then records ++ [inherit_timestamp fields (last_timestamp st)]
        else records,
        set_last_timestamp (next_timestamp fields (last_timestamp st)) st2)
  | Err e => Err e
  end.
Proof.
  intros Hrd H80 H40 Hd. rewrite parse_message_unfold, Hrd, H80.
  change (negb (0 =? 0)) with false. cbv iota.
  apply read_byte_Ok in Hrd as (-> & _).
  assert (Hpd : parse_data_message (Z.land header 0x0F) (set_pos (pos st + 1) st)
                = decode_fields (d_endian d) (d_fields d) ∅ (set_pos (pos st + 1) st))
    by now apply parse_data_message_defined.
  destruct (decode_fields _ _ _ _) as [[fields st2]|e] eqn:Hp.
  - rewrite (normal_message_data _ _ _ _ _ H40 Hpd).
    rewrite (is_record_defined _ _ d); [reflexivity|].
    apply parse_data_message_frame in Hpd as (_ & -> & _). exact Hd.
  - now apply normal_message_data_Err.
Qed.

(** One iteration on a compressed timestamp header whose slot holds [d],
    from an unset or integer last known timestamp. *)
Lemma compressed_data_step records st header st1 d T :
  read_byte st = Ok (header, st1) ->
  Z.land header 0x80 <> 0 ->
  defs st !! Z.land (Z.shiftr header 5) 0x3 = Some d ->
  default (VInt 0) (last_timestamp st) = VInt T ->
  parse_message records st =
  match decode_fields (d_endian d) (d_fields d) ∅
          (set_last_timestamp
             (Some (VInt (reconstructed T (Z.land header 0x1F)))) st1) with
  | Ok (fields, st2) =>
    Ok (if d_global d =? 20
        then records
             ++ [<[253 := VInt (reconstructed T (Z.land header 0x1F))]> fields]
        else records, st2)
  | Err e => Err e
  end.
Proof.
  intros Hrd H80 Hd HT.
  assert (Hd1 : defs (set_last_timestamp
                        (Some (VInt (reconstructed T (Z.land header 0x1F)))) st1)
                !! Z.land (Z.shiftr header 5) 0x3 = Some d).
  { pose proof Hrd as Hst1. apply read_byte_Ok in Hst1 as (-> & _). exact Hd. }
  pose proof (parse_data_message_defined _ _ _ Hd1) as Hpd.
  destruct (decode_fields _ _ _ _) as [[fields st2]|e] eqn:Hp.
  - destruct (compressed_step records _ _ _ _ _ _ Hrd H80 HT Hpd) as [-> _].
    rewrite (is_record_defined _ _ d); [reflexivity|].
    apply parse_data_message_frame in Hpd as (_ & -> & _). exact Hd1.
  - rewrite parse_message_unfold, Hrd.
    apply Z.eqb_neq in H80. rewrite H80. change (negb false) with true. cbv iota.
    assert (HT1 : default (VInt 0) (last_timestamp st1) = VInt T).
    { apply read_byte_Ok in Hrd as (-> & _). exact HT. }
    rewrite (compressed_message_int _ _ _ _ _ HT1 (compressed_timestamp_int _ _)).
    now apply bind_Err_eq.
Qed.

(** ** Reads past the end of the buffer *)

(** A slice holds the bytes that exist: fewer than asked for when the
    buffer ends first. *)
Lemma slice_length (d : list byte) (lo size : Z) :
  0 <= lo -> 0 <= size ->
  len (slice d lo size) = Z.min size (Z.max 0 (len d - lo)).
Proof.
  intros Hlo Hsize. unfold slice, len. rewrite length_take, length_drop. lia.
Qed.

(** The cursor itself never raises: [read] returns the slice, short or not,
    and moves on by the size asked for. *)
Lemma read_never_raises size st :
  read size st = Ok (slice (data st) (pos st) size, set_pos (pos st + size) st).
Proof. reflexivity. Qed.

(** The header of the file: [data[0]] raises [IndexError] on an empty
    buffer, and [unpack_from] raises [struct.error] on fewer than 8 bytes. *)
Lemma parse_short_header st :
  len (data st) < 8 ->
  parse st = Some (Err (if len (data st) =? 0 then IndexError else StructError)).
Proof.
  intros Hlen. unfold parse, item0, unpack_from_I.
  destruct (data st) as [|c rest] eqn:Hd; [reflexivity|].
  assert (Hlt : (len (c :: rest) - 4 <? 4) = true) by (apply Z.ltb_lt; lia).
  rewrite Hlt.
  assert (Hne : (len (c :: rest) =? 0) = false).
  { apply Z.eqb_neq. unfold len. simpl. lia. }
  now rewrite Hne.
Qed.

(** The record header byte: with the cursor at or past the end of the
    buffer, the iteration raises [IndexError]. *)
Lemma parse_message_no_header records st :
  0 <= pos st -> len (data st) <= pos st ->
  parse_message records st = Err IndexError.
Proof.
  intros Hpos Hle. rewrite parse_message_unfold.
  now rewrite (read_byte_Err _ Hpos Hle).
Qed.

(** A definition message: either every byte it read was in the buffer, or
    it raised [IndexError] or [struct.error]. *)
Lemma parse_definition_in_buffer local_msg st :
  0 <= pos st ->
  match parse_definition local_msg st with
  | Ok (_, st') => pos st' <= len (data st)
  | Err e => e = IndexError \/ e = StructError
  end.
Proof.
  intros Hpos. rewrite parse_definition_unfold.
  destruct (read_definition st) as [[d st']|e] eqn:Hr.
  - apply read_definition_Ok in Hr as (-> & Hb & _). simpl in *. auto.
  - now apply read_definition_Err in Hr.
Qed.

(** ** Binary64 rounding stays in range *)

Lemma digits2_pos_bounds (p : positive) :
  2 ^ (Zpos (digits2_pos p) - 1) <= Zpos p < 2 ^ Zpos (digits2_pos p).
Proof.
  induction p as [p IH | p IH |]; simpl digits2_pos.
  - rewrite Pos2Z.inj_succ.
    replace (Z.succ (Zpos (digits2_pos p)) - 1) with (Z.succ (Zpos (digits2_pos p) - 1)) by lia.
    rewrite !Z.pow_succ_r by lia. lia.
  - rewrite Pos2Z.inj_succ.
    replace (Z.succ (Zpos (digits2_pos p)) - 1) with (Z.succ (Zpos (digits2_pos p) - 1)) by lia.
    rewrite !Z.pow_succ_r by lia. lia.
  - simpl. lia.
Qed.

Lemma Zdigits2_nonneg m : 0 <= Zdigits2 m.
Proof. destruct m; simpl; lia. Qed.

(** A non-negative integer has at most [k] binary digits exactly when it is
    below [2 ^ k]. *)
Lemma Zdigits2_le_iff m k :
  0 <= m -> 0 <= k -> (Zdigits2 m <= k <-> m < 2 ^ k).
Proof.
  intros Hm Hk. destruct m as [|p|p]; [|clear Hm|lia].
  - simpl. pose proof (Z.pow_pos_nonneg 2 k). lia.
  - simpl Zdigits2. pose proof (digits2_pos_bounds p) as [Hlo Hhi]. split.
    + intros Hd. eapply Z.lt_le_trans; [exact Hhi|].
      apply Z.pow_le_mono_r; lia.
    + intros Hlt. destruct (Z_le_gt_dec (Zpos (digits2_pos p)) k) as [?|Hgt];
        [assumption|].
      assert (2 ^ k <= 2 ^ (Zpos (digits2_pos p) - 1))
        by (apply Z.pow_le_mono_r; lia).
      lia.
Qed.

Lemma Zdigits2_lt_pow m : 0 <= m -> m < 2 ^ Zdigits2 m.
Proof.
  intros Hm. apply Zdigits2_le_iff; [assumption | apply Zdigits2_nonneg | lia].
Qed.

Lemma Zdigits2_mono a b : 0 <= a <= b -> Zdigits2 a <= Zdigits2 b.
Proof.
  intros [Ha Hab]. apply Zdigits2_le_iff; [lia | apply Zdigits2_nonneg|].
  pose proof (Zdigits2_lt_pow b ltac:(lia)). lia.
Qed.

Lemma Zdigits2_succ m : 0 <= m -> Zdigits2 (m + 1) <= Zdigits2 m + 1.
Proof.
  intros Hm. pose proof (Zdigits2_nonneg m).
  apply Zdigits2_le_iff; [lia | lia |].
  pose proof (Zdigits2_lt_pow m Hm). rewrite Z.pow_add_r by lia.
  change (2 ^ 1) with 2. lia.
Qed.

Lemma Zdigits2_div_pow m n :
  0 <= m -> 0 <= n -> Zdigits2 (m / 2 ^ n) <= Z.max (Zdigits2 m - n) 0.
Proof.
  intros Hm Hn. pose proof (Zdigits2_nonneg m) as Hd.
  pose proof (Zdigits2_lt_pow m Hm) as Hlt.
  assert (Hp : 0 < 2 ^ n) by (apply Z.pow_pos_nonneg; lia).
  apply Zdigits2_le_iff; [apply Z.div_pos; lia | lia |].
  destruct (Z_le_gt_dec n (Zdigits2 m)) as [Hle | Hgt].
  - rewrite Z.max_l by lia. apply Z.div_lt_upper_bound; [lia|].
    rewrite <- Z.pow_add_r by lia. now replace (n + (Zdigits2 m - n)) with (Zdigits2 m) by lia.
  - rewrite Z.max_r by lia. simpl.
    assert (2 ^ Zdigits2 m <= 2 ^ n) by (apply Z.pow_le_mono_r; lia).
    rewrite Z.div_small; lia.
Qed.

Lemma shr_1_m r : 0 <= shr_m r -> shr_m (shr_1 r) = shr_m r / 2.
Proof.
  destruct r as [m rb sb]. simpl. intros Hm.
  destruct m as [|[p|p|]|p]; simpl; try lia.
  - reflexivity.
  - rewrite Pos2Z.inj_xI. apply Z.div_unique with (r := 1); lia.
  - rewrite Pos2Z.inj_xO. apply Z.div_unique with (r := 0); lia.
  - reflexivity.
Qed.

Lemma iter_shr_1_m p r :
  0 <= shr_m r -> shr_m (SpecFloat.iter_pos shr_1 p r) = shr_m r / 2 ^ Zpos p.
Proof.
  revert r. induction p as [p IH | p IH |]; intros r Hr; simpl SpecFloat.iter_pos.
  - assert (H1 : 0 <= shr_m (shr_1 r)).
    { rewrite shr_1_m by assumption. apply Z.div_pos; lia. }
    assert (H2 : 0 <= shr_m (SpecFloat.iter_pos shr_1 p (shr_1 r))).
    { rewrite IH by assumption. apply Z.div_pos; [lia|]. apply Z.pow_pos_nonneg; lia. }
    assert (Hpow : 2 ^ Zpos p~1 = 2 * 2 ^ Zpos p * 2 ^ Zpos p).
    { rewrite (Pos2Z.inj_xI p).
      replace (2 * Zpos p + 1) with (1 + Zpos p + Zpos p) by lia.
      rewrite !Z.pow_add_r by lia. reflexivity. }
    rewrite IH, IH, shr_1_m by assumption.
    rewrite !Z.div_div by (try apply Z.pow_pos_nonneg; lia).
    rewrite Hpow. f_equal. lia.
  - assert (H2 : 0 <= shr_m (SpecFloat.iter_pos shr_1 p r)).
    { rewrite IH by assumption. apply Z.div_pos; [lia|]. apply Z.pow_pos_nonneg; lia. }
    assert (Hpow : 2 ^ Zpos p~0 = 2 ^ Zpos p * 2 ^ Zpos p).
    { rewrite (Pos2Z.inj_xO p).
      replace (2 * Zpos p) with (Zpos p + Zpos p) by lia.
      now rewrite !Z.pow_add_r by lia. }
    rewrite IH, IH by assumption.
    rewrite !Z.div_div by (try apply Z.pow_pos_nonneg; lia).
    now rewrite Hpow.
  - rewrite shr_1_m by assumption. reflexivity.
Qed.

(** The exponent of binary64 numbers with [x] digits above the point. *)
Lemma fexp_eq x : fexp 53 1024 x = Z.max (x - 53) (-1074).
Proof. reflexivity. Qed.

(** The mantissa and exponent after [shr_fexp]: the exponent only grows,
    up to the binary64 exponent of the number, and the mantissa loses the
    digits shifted out. *)
Lemma shr_fexp_bounds m e l :
  0 <= m ->
  let '(mrs, e') := shr_fexp 53 1024 m e l in
  e' = Z.max e (fexp 53 1024 (Zdigits2 m + e)) /\
  0 <= shr_m mrs /\
  Zdigits2 (shr_m mrs) + e' <= Z.max (Zdigits2 m + e) e'.
Proof.
  intros Hm. unfold shr_fexp, shr.
  assert (Hrec : shr_m (shr_record_of_loc m l) = m)
    by (destruct l as [|[| |]]; reflexivity).
  destruct (fexp 53 1024 (Zdigits2 m + e) - e) as [|n|n] eqn:Hn.
  - rewrite Hrec. split; [lia|]. split; [assumption | lia].
  - rewrite iter_shr_1_m by (rewrite Hrec; assumption). rewrite Hrec.
    split; [lia|]. split.
    + apply Z.div_pos; [assumption | apply Z.pow_pos_nonneg; lia].
    + pose proof (Zdigits2_div_pow m (Zpos n) Hm ltac:(lia)). lia.
  - rewrite Hrec. split; [lia|]. split; [assumption | lia].
Qed.

Lemma round_nearest_even_bounds m l :
  m <= round_nearest_even m l <= m + 1.
Proof.
  destruct l as [|[| |]]; simpl; try lia. destruct (Z.even m); lia.
Qed.

(** Rounding a number below [2 ^ 1023] whose exponent is at most 971 never
    gives an infinity. *)
Lemma binary_round_aux_finite s m e l :
  0 <= m -> e <= 971 -> Zdigits2 m + e <= 1023 ->
  is_infinity (binary_round_aux 53 1024 s m e l) = false.
Proof.
  intros Hm He Hd. unfold binary_round_aux.
  pose proof (shr_fexp_bounds m e l Hm) as H1.
  destruct (shr_fexp 53 1024 m e l) as [mrs' e'].
  destruct H1 as (He' & Hm' & Hd'). rewrite fexp_eq in He'.
  set (m1 := round_nearest_even (shr_m mrs') (loc_of_shr_record mrs')).
  pose proof (round_nearest_even_bounds (shr_m mrs') (loc_of_shr_record mrs')) as Hr.
  fold m1 in Hr.
  assert (Hm1 : 0 <= m1) by lia.
  pose proof (shr_fexp_bounds m1 e' loc_Exact Hm1) as H2.
  destruct (shr_fexp 53 1024 m1 e' loc_Exact) as [mrs'' e''].
  destruct H2 as (He'' & _ & _). rewrite fexp_eq in He''.
  destruct (shr_m mrs'') as [|p|p]; try reflexivity.
  assert (Hdm1 : Zdigits2 m1 <= Zdigits2 (shr_m mrs') + 1).
  { etransitivity; [apply (Zdigits2_mono m1 (shr_m mrs' + 1)); lia|].
    now apply Zdigits2_succ. }
  assert (Hle : e'' <= 1024 - 53) by lia.
  apply Z.leb_le in Hle. now rewrite Hle.
Qed.

Lemma iter_xO_pow (m d : positive) :
  Zpos (Pos.iter xO m d) = Zpos m * 2 ^ Zpos d.
Proof.
  induction d as [|d IH] using Pos.peano_ind.
  - simpl. lia.
  - rewrite Pos.iter_succ, Pos2Z.inj_xO, IH, Pos2Z.inj_succ.
    rewrite Z.pow_succ_r by lia. lia.
Qed.

(** [float(n)] is finite for every integer below [2 ^ 1000] in size. *)
Lemma nearest_float_finite n :
  Z.abs n < 2 ^ 1000 -> is_infinity (nearest_float n) = false.
Proof.
  intros Hn. unfold nearest_float, binary_normalize.
  assert (Hgen : forall s m, Zpos m < 2 ^ 1000 ->
            is_infinity (binary_round 53 1024 s m 0) = false).
  { intros s m Hm. unfold binary_round, shl_align.
    assert (Hd : Zdigits2 (Zpos m) <= 1000)
      by (apply Zdigits2_le_iff; lia).
    simpl Zdigits2 in Hd.
    destruct (fexp 53 1024 (Zpos (digits2_pos m) + 0) - 0) as [|d|d] eqn:Hf.
    - apply binary_round_aux_finite; simpl; lia.
    - apply binary_round_aux_finite; simpl; lia.
    - rewrite fexp_eq in Hf |- *.
      apply binary_round_aux_finite; [lia | lia |].
      assert (Hdig : Zdigits2 (Zpos (Pos.iter xO m d)) <= Zpos (digits2_pos m) + Zpos d).
      { apply Zdigits2_le_iff; [lia | lia |].
        rewrite iter_xO_pow, Z.pow_add_r by lia.
        pose proof (digits2_pos_bounds m) as [_ Hhi].
        assert (0 < 2 ^ Zpos d) by (apply Z.pow_pos_nonneg; lia).
        nia. }
      lia. }
  destruct n as [|m|m]; [reflexivity | apply Hgen; lia | apply Hgen; lia].
Qed.

Lemma float_of_int_Ok n :
  Z.abs n < 2 ^ 1000 -> float_of_int n = Ok (nearest_float n).
Proof.
  intros Hn. unfold float_of_int. cbv zeta.
  now rewrite (nearest_float_finite n Hn).
Qed.

(** [a / b] is finite for every [a] below [2 ^ 1000] in size. *)
Lemma int_quotient_finite a b :
  b <> 0 -> Z.abs a < 2 ^ 1000 -> is_infinity (int_quotient a b) = false.
Proof.
  intros Hb Ha. unfold int_quotient, SFdiv_core_binary. cbv zeta.
  set (d1 := Zdigits2 (Z.abs a)). set (d2 := Zdigits2 (Z.abs b)).
  set (e' := Z.min (fexp 53 1024 (d1 + 0 - (d2 + 0))) (0 - 0)).
  set (m' := match 0 - 0 - e' with
             | 0 => Z.abs a
             | Zpos _ => Z.shiftl (Z.abs a) (0 - 0 - e')
             | Zneg _ => 0
             end).
  assert (Hd1 : 0 <= d1 <= 1000).
  { split; [apply Zdigits2_nonneg|]. apply Zdigits2_le_iff; lia. }
  assert (He' : e' <= 0) by (unfold e'; lia).
  assert (Hm' : 0 <= m' < 2 ^ (d1 - e')).
  { pose proof (Zdigits2_lt_pow (Z.abs a) ltac:(lia)) as Hlt. fold d1 in Hlt.
    unfold m'. destruct (0 - 0 - e') as [|s|s] eqn:Hs.
    - replace (d1 - e') with d1 by lia. lia.
    - rewrite Z.shiftl_mul_pow2 by lia.
      replace (d1 - e') with (d1 + (0 - 0 - e')) by lia.
      rewrite Z.pow_add_r by lia. rewrite Hs.
      assert (0 < 2 ^ Zpos s) by (apply Z.pow_pos_nonneg; lia). nia.
    - lia. }
  assert (Hq : Z.div_eucl m' (Z.abs b) = (m' / Z.abs b, m' mod Z.abs b)).
  { unfold Z.div, Z.modulo. now destruct (Z.div_eucl m' (Z.abs b)). }
  rewrite Hq.
  assert (Hq0 : 0 <= m' / Z.abs b <= m').
  { split; [apply Z.div_pos; lia|]. apply Z.div_le_upper_bound; nia. }
  apply binary_round_aux_finite; [lia | lia |].
  assert (Zdigits2 (m' / Z.abs b) <= d1 - e'); [|lia].
  apply Zdigits2_le_iff; lia.
Qed.

Lemma int_truediv_Ok a b :
  b <> 0 -> Z.abs a < 2 ^ 1000 -> int_truediv a b = Ok (int_quotient a b).
Proof.
  intros Hb Ha. unfold int_truediv. apply Z.eqb_neq in Hb as Hb'. rewrite Hb'.
  cbv zeta. now rewrite (int_quotient_finite a b Hb Ha).
Qed.

(** ** The record projector *)

Lemma trackpoint_dropped format_float epoch_isoformat (r : gmap Z value) :
  r !! 0 = None \/ r !! 1 = None ->
  trackpoint format_float epoch_isoformat r = Ok None.
Proof.
  unfold trackpoint. intros [-> | ->]; [reflexivity|].
  now destruct (r !! 0).
Qed.

(** The loop of [records_to_gpx] skips a dropped record. *)
Lemma records_to_gpx_dropped format_float epoch_isoformat
    (r : gmap Z value) rest :
  r !! 0 = None \/ r !! 1 = None ->
  records_to_gpx format_float epoch_isoformat (r :: rest)
  = records_to_gpx format_float epoch_isoformat rest.
Proof.
  intros H. cbn [records_to_gpx]. rewrite trackpoint_dropped by assumption.
  cbn [rbind]. now destruct (records_to_gpx format_float epoch_isoformat rest).
Qed.

Lemma trackpoint_present format_float epoch_isoformat (r : gmap Z value) v0 v1 :
  r !! 0 = Some v0 -> r !! 1 = Some v1 ->
  trackpoint format_float epoch_isoformat r =
  rbind (degrees v0) (fun lat_ =>
  rbind (degrees v1) (fun lon_ =>
  rbind
    match r !! 2 with
    | Some v2 => rbind (meters v2) (fun alt => Ok (Some (format_float 2 alt)))
    | None => Ok None
    end (fun ele_ =>
  rbind
    match r !! 253 with
    | Some t => rbind (epoch_isoformat t) (fun s => Ok (Some s))
    | None => Ok None
    end (fun time_ =>
  Ok (Some (mkTrkpt (format_float 6 lat_) (format_float 6 lon_) ele_ time_)))))).
Proof.
  intros H0 H1. unfold trackpoint, degrees, meters. rewrite H0, H1.
  destruct (py_mul v0 (VInt 180)) as [p|e]; [|reflexivity]. simpl.
  destruct (py_truediv p (VInt (2 ^ 31))) as [lat_|e]; [|reflexivity]. simpl.
  destruct (py_mul v1 (VInt 180)) as [q|e]; [|reflexivity]. simpl.
  destruct (py_truediv q (VInt (2 ^ 31))) as [lon_|e]; [|reflexivity]. simpl.
  destruct (r !! 2) as [v2|]; [|reflexivity].
  destruct (py_truediv v2 (VFloat five)) as [d|e]; reflexivity.
Qed.

(** On an integer of at most 64 bits the conversion to degrees never
    raises: the result is the float nearest to [a * 180 / 2^31]. *)
Lemma degrees_int a :
  Z.abs a < 2 ^ 64 -> degrees (VInt a) = Ok (int_quotient (a * 180) (2 ^ 31)).
Proof.
  intros Ha. unfold degrees. simpl. apply int_truediv_Ok; [discriminate|].
  rewrite Z.abs_mul. change (Z.abs 180) with 180.
  assert (2 ^ 64 * 180 < 2 ^ 1000) by reflexivity. lia.
Qed.

Lemma degrees_float x :
  degrees (VFloat x)
  = Ok (SFdiv 53 1024 (SFmul 53 1024 x (nearest_float 180)) (nearest_float (2 ^ 31))).
Proof. reflexivity. Qed.

Lemma degrees_TypeError v : ~ is_scalar v -> degrees v = Err TypeError.
Proof. destruct v; simpl; intros H; try reflexivity; now destruct H. Qed.

Lemma meters_int c :
  Z.abs c < 2 ^ 64 ->
  meters (VInt c)
  = Ok (SFsub 53 1024 (SFdiv 53 1024 (nearest_float c) five) (nearest_float 500)).
Proof.
  intros Hc. unfold meters. simpl. rewrite float_of_int_Ok; [reflexivity|].
  assert (2 ^ 64 < 2 ^ 1000) by reflexivity. lia.
Qed.

Lemma meters_float x :
  meters (VFloat x)
  = Ok (SFsub 53 1024 (SFdiv 53 1024 x five) (nearest_float 500)).
Proof. reflexivity. Qed.

Lemma meters_TypeError v : ~ is_scalar v -> meters v = Err TypeError.
Proof. destruct v; simpl; intros H; try reflexivity; now destruct H. Qed.

(** C7, as the code has it.  A record without field 0 or without field 1
    gives no point and no exception.  With both present the point holds
    [value × 180 / 2^31] for latitude and longitude, and
    [value / 5.0 − 500] for the elevation when field 2 is present, no
    elevation when it is absent, all in binary64 arithmetic and formatted by
    the standard library; the point is lost only if one of these
    computations, or the timestamp conversion, raises.  The computations
    never raise on an integer of at most 64 bits nor on a float, and they
    raise [TypeError] on an array, a text or raw bytes.  Half a turn of
    semicircles is 90 degrees, and the raw elevations 2500 and 0 are 0 and
    -500 meters. *)
Theorem C7_trackpoint format_float epoch_isoformat (r : gmap Z value) :
  (r !! 0 = None \/ r !! 1 = None ->
   trackpoint format_float epoch_isoformat r = Ok None /\
   forall rest,
     records_to_gpx format_float epoch_isoformat (r :: rest)
     = records_to_gpx format_float epoch_isoformat rest) /\
  (forall v0 v1, r !! 0 = Some v0 -> r !! 1 = Some v1 ->
     trackpoint format_float epoch_isoformat r =
     rbind (degrees v0) (fun lat_ =>
     rbind (degrees v1) (fun lon_ =>
     rbind
       match r !! 2 with
       | Some v2 =>
         rbind (meters v2) (fun alt => Ok (Some (format_float 2 alt)))
       | None => Ok None
       end (fun ele_ =>
     rbind
       match r !! 253 with
       | Some t => rbind (epoch_isoformat t) (fun s => Ok (Some s))
       | None => Ok None
       end (fun time_ =>
     Ok (Some (mkTrkpt (format_float 6 lat_) (format_float 6 lon_)
                 ele_ time_))))))) /\
  (forall a, Z.abs a < 2 ^ 64 ->
     degrees (VInt a) = Ok (int_quotient (a * 180) (2 ^ 31))) /\
  (forall x,
     degrees (VFloat x)
     = Ok (SFdiv 53 1024 (SFmul 53 1024 x (nearest_float 180))
             (nearest_float (2 ^ 31)))) /\
  (forall c, Z.abs c < 2 ^ 64 ->
     meters (VInt c)
     = Ok (SFsub 53 1024 (SFdiv 53 1024 (nearest_float c) five)
             (nearest_float 500))) /\
  (forall x,
     meters (VFloat x)
     = Ok (SFsub 53 1024 (SFdiv 53 1024 x five) (nearest_float 500))) /\
  (forall v, ~ is_scalar v ->
     degrees v = Err TypeError /\ meters v = Err TypeError) /\
  degrees (VInt (2 ^ 30)) = Ok (nearest_float 90) /\
  degrees (VInt (- 2 ^ 31)) = Ok (nearest_float (-180)) /\
  meters (VInt 2500) = Ok (S754_zero false) /\
  meters (VInt 0) = Ok (nearest_float (-500)).
Proof.
  split.
  { intros H. split; [now apply trackpoint_dropped|].
    intros rest. now apply records_to_gpx_dropped. }
  split; [apply trackpoint_present|].
  split; [exact degrees_int|]. split; [exact degrees_float|].
  split; [exact meters_int|]. split; [exact meters_float|].
  split.
  { intros v Hv. split; [now apply degrees_TypeError | now apply meters_TypeError]. }
  repeat split; vm_compute; reflexivity.
Qed.

Lemma C7_trackpoint_witness :
  trackpoint (fun _ _ => []) (fun _ => Ok []) {[ 0 := VInt 1 ]} = Ok None /\
  trackpoint (fun _ x => if is_zero x then [48] else [49]) (fun _ => Ok [])
    sample_record
  = Ok (Some (mkTrkpt [49] [49] (Some [48]) None)) /\
  degrees (VInt (2 ^ 30)) = Ok (nearest_float 90) /\
  meters (VInt 2500) = Ok (S754_zero false).
Proof.
  destruct (C7_trackpoint (fun _ _ => []) (fun _ => Ok []) {[ 0 := VInt 1 ]})
    as (Hdrop & _).
  destruct (C7_trackpoint (fun _ x => if is_zero x then [48] else [49])
              (fun _ => Ok []) sample_record)
    as (_ & Hpoint & _ & _ & _ & _ & _ & Hdeg & _ & Hele & _).
  split; [apply (Hdrop (or_intror eq_refl))|].
  split; [|split; [exact Hdeg | exact Hele]].
  rewrite (Hpoint (VInt (2 ^ 30)) (VInt (- 2 ^ 31)) eq_refl eq_refl).
  reflexivity.
Defined.

(** That record is forwarded with fields 0 and 1 present, and the projector
    raises [TypeError] on it instead of computing a position. *)
Lemma C7_counterexample :
  parse (init array_position_stream)
  = Some (Ok [ {[ 0 := VTuple [VInt 1; VInt 2]; 1 := VInt 3 ]} ]) /\
  ({[ 0 := VTuple [VInt 1; VInt 2]; 1 := VInt 3 ]} : gmap Z value) !! 0
  = Some (VTuple [VInt 1; VInt 2]) /\
  ({[ 0 := VTuple [VInt 1; VInt 2]; 1 := VInt 3 ]} : gmap Z value) !! 1
  = Some (VInt 3) /\
  trackpoint (fun _ _ => []) (fun _ => Ok [])
    {[ 0 := VTuple [VInt 1; VInt 2]; 1 := VInt 3 ]}
  = Err TypeError /\
  main (fun _ _ => []) (fun _ => Ok []) array_position_stream
  = Some (Err TypeError).
Proof. repeat split. Qed.

(** ** The minimal stream *)

(** The end-to-end scenario: the minimal stream decodes to one record, and
    the script renders exactly one point, at latitude 0.0 and longitude 0.0,
    without elevation, with the time text of 0 seconds after the epoch. *)
Theorem minimal_stream_one_point format_float epoch_isoformat :
  parse (init minimal_stream)
  = Some (Ok [ {[ 0 := VInt 0; 1 := VInt 0; 253 := VInt 0 ]} ]) /\
  main format_float epoch_isoformat minimal_stream
  = Some (rbind (epoch_isoformat (VInt 0)) (fun s =>
            Ok [ mkTrkpt (format_float 6 (S754_zero false))
                   (format_float 6 (S754_zero false)) None (Some s) ])).
Proof.
  assert (Hparse : parse (init minimal_stream)
                   = Some (Ok [ {[ 0 := VInt 0; 1 := VInt 0; 253 := VInt 0 ]} ]))
    by reflexivity.
  split; [exact Hparse|].
  unfold main. rewrite Hparse. cbn [records_to_gpx].
  rewrite (trackpoint_present _ _ _ (VInt 0) (VInt 0)) by reflexivity.
  change (degrees (VInt 0)) with (Ok (A := spec_float) (S754_zero false)).
  cbn [rbind].
  change (({[ 0 := VInt 0; 1 := VInt 0; 253 := VInt 0 ]} : gmap Z value) !! 2)
    with (@None value).
  change (({[ 0 := VInt 0; 1 := VInt 0; 253 := VInt 0 ]} : gmap Z value) !! 253)
    with (Some (VInt 0)).
  cbn [rbind].
  destruct (epoch_isoformat (VInt 0)); reflexivity.
Qed.

(** ** The range of decoded values *)

Lemma le_unsigned_range bs : 0 <= le_unsigned bs < 256 ^ len bs.
Proof.
  induction bs as [|b bs IH]; [simpl; unfold len; simpl; lia|].
  cbn [le_unsigned]. pose proof (byte_val_range b).
  replace (len (b :: bs)) with (Z.succ (len bs)) by (unfold len; simpl; lia).
  rewrite Z.pow_succ_r by apply len_nonneg. lia.
Qed.

Lemma unsigned_of_range endian bs : 0 <= unsigned_of endian bs < 256 ^ len bs.
Proof.
  destruct endian; simpl; [apply le_unsigned_range|].
  replace (len bs) with (len (rev bs)) by (unfold len; now rewrite length_rev).
  apply le_unsigned_range.
Qed.

Lemma signed_of_range endian bs :
  0 < len bs ->
  - 2 ^ (8 * len bs - 1) <= signed_of endian bs < 2 ^ (8 * len bs - 1).
Proof.
  intros Hlen. unfold signed_of. cbv zeta.
  pose proof (unsigned_of_range endian bs) as Hu.
  assert (Hpow : 256 ^ len bs = 2 * 2 ^ (8 * len bs - 1)).
  { change 256 with (2 ^ 8). rewrite <- Z.pow_mul_r by lia.
    replace (8 * len bs) with (Z.succ (8 * len bs - 1)) at 1 by lia.
    rewrite Z.pow_succ_r by lia. reflexivity. }
  assert (Hw : 2 ^ (8 * len bs) = 2 * 2 ^ (8 * len bs - 1)).
  { replace (8 * len bs) with (Z.succ (8 * len bs - 1)) at 1 by lia.
    rewrite Z.pow_succ_r by lia. reflexivity. }
  destruct (Z.ltb_spec (unsigned_of endian bs) (2 ^ (8 * len bs - 1))); lia.
Qed.

(** An item unpacked from exactly [calcsize f] bytes is an item of [f]. *)
Lemma unpack_one_ok endian f bs :
  len bs = calcsize f -> item_ok f (unpack_one endian f bs).
Proof.
  intros Hlen. pose proof (unsigned_of_range endian bs) as Hu.
  pose proof (signed_of_range endian bs) as Hs. rewrite Hlen in Hu, Hs.
  destruct f; simpl in *;
    try (eexists _, _; split; [reflexivity|]; lia);
    try (now left); try (now right).
  split; [reflexivity|]. unfold len in Hlen. lia.
Qed.

Lemma unpack_items_ok endian f n raw :
  len raw = Z.of_nat n * calcsize f ->
  Forall (item_ok f) (unpack_items endian f n raw).
Proof.
  pose proof (calcsize_pos f) as Hw.
  revert raw. induction n as [|n IH]; intros raw Hlen; [constructor|].
  cbn [unpack_items]. constructor.
  - apply unpack_one_ok. unfold len in *. rewrite length_take. lia.
  - apply IH. unfold len in *. rewrite length_drop. lia.
Qed.

(** X3: what [parse_value] returns for a recognized base type is typed by
    the struct format of that type.  For a code other than 7, a slice of one
    width gives one item of the format (an integer within the range of the
    format, a float, or one byte), and any other accepted slice gives the
    tuple of its items, one per width.  For the code 7 the result is the
    text of the first byte of the slice, which is an ASCII byte: no
    character when that byte is NUL, one otherwise. *)
Theorem parse_value_typed raw base_type endian f v :
  base_formats (Z.land base_type 0x1F) = Some f ->
  parse_value raw base_type endian = Ok v ->
  (base_type <> 7 ->
   (len raw = calcsize f /\ item_ok f v) \/
   (exists items,
      v = VTuple items /\ Forall (item_ok f) items /\
      len raw = len items * calcsize f /\ len items <> 1)) /\
  (base_type = 7 ->
   exists c rest,
     raw = c :: rest /\ byte_val c < 128 /\
     v = VStr (if byte_val c =? 0 then [] else [byte_val c])).
Proof.
  intros Hf Hv. pose proof (calcsize_pos f) as Hw. split.
  - intros H7. apply Z.eqb_neq in H7.
    rewrite (parse_value_known _ _ _ _ Hf H7) in Hv.
    destruct (Z.eqb_spec (len raw mod calcsize f) 0) as [Hm|]; [|discriminate].
    apply exact_multiple in Hm; [|assumption].
    destruct (Z.eqb_spec (len raw / calcsize f) 1) as [H1 | H1].
    + injection Hv as <-. left. rewrite H1 in Hm.
      split; [lia|]. apply unpack_one_ok. lia.
    + injection Hv as <-. right. eexists. split; [reflexivity|].
      assert (Hc : 0 <= len raw / calcsize f)
        by (apply Z.div_pos; [apply len_nonneg | lia]).
      assert (Hl : len (unpack_items endian f (Z.to_nat (len raw / calcsize f)) raw)
                   = len raw / calcsize f).
      { unfold len at 1. rewrite unpack_items_length. lia. }
      split; [apply unpack_items_ok; lia|]. rewrite Hl. split; lia.
  - intros ->. rewrite parse_value_string in Hv.
    destruct raw as [|c rest]; [discriminate|].
    destruct (Z.ltb_spec (byte_val c) 0x80) as [Hc|]; [|discriminate].
    injection Hv as <-. exists c, rest. split; [reflexivity|]. split; [lia|].
    reflexivity.
Qed.

Lemma parse_value_typed_witness :
  base_formats (Z.land 0x83 0x1F) = Some fmt_h /\
  parse_value [xff; xfe] 0x83 BigEndian = Ok (VInt (-2)) /\
  item_ok fmt_h (VInt (-2)).
Proof.
  assert (Hf : base_formats (Z.land 0x83 0x1F) = Some fmt_h) by reflexivity.
  assert (Hv : parse_value [xff; xfe] 0x83 BigEndian = Ok (VInt (-2)))
    by reflexivity.
  split; [exact Hf|]. split; [exact Hv|].
  destruct (parse_value_typed _ _ _ _ _ Hf Hv) as [Hn _].
  destruct (Hn ltac:(discriminate)) as [[_ Hok] | (items & Hitems & _)].
  - exact Hok.
  - discriminate Hitems.
Defined.

(** ** The layout of messages *)

Lemma fields_size_cons fd fds :
  fields_size (fd :: fds) = field_size fd + fields_size fds.
Proof. reflexivity. Qed.

Lemma decode_fields_pos_exact endian fds fields0 st fields st' :
  decode_fields endian fds fields0 st = Ok (fields, st') ->
  pos st' = pos st + fields_size fds /\ data st' = data st.
Proof.
  revert fields0 st. induction fds as [|[[fid size] bt] fds IH];
    intros fields0 st H.
  - injection H as <- <-. simpl. split; [lia | reflexivity].
  - cbn [decode_fields] in H. inv_bind H as raw s1 E1. injection E1 as <- <-.
    inv_bind H as v s2 E2. apply lift_Ok_inv in E2 as [_ ->].
    apply IH in H as [Hp Hd]. rewrite fields_size_cons.
    unfold field_size. simpl in *. split; [lia | assumption].
Qed.

(** A key no later field names keeps its value. *)
Lemma decode_fields_other endian fds fields0 st fields st' (k : Z) :
  decode_fields endian fds fields0 st = Ok (fields, st') ->
  ~ In k (map field_id fds) -> fields !! k = fields0 !! k.
Proof.
  revert fields0 st. induction fds as [|[[fid size] bt] fds IH];
    intros fields0 st H Hk.
  - now injection H as <- <-.
  - cbn [decode_fields] in H. inv_bind H as raw s1 E1.
    inv_bind H as v s2 E2. simpl in Hk.
    rewrite (IH _ _ H) by tauto.
    apply lookup_insert_ne. unfold field_id in Hk. simpl in Hk. tauto.
Qed.

Lemma decode_fields_lookup endian fds fields0 st fields st' (i : nat) fid size bt :
  decode_fields endian fds fields0 st = Ok (fields, st') ->
  fds !! i = Some (fid, size, bt) ->
  (forall j fd, (i < j)%nat -> fds !! j = Some fd -> field_id fd <> fid) ->
  exists v,
    parse_value (slice (data st) (pos st + fields_size (take i fds)) size)
      bt endian = Ok v /\
    fields !! fid = Some v.
Proof.
  revert fields0 st i. induction fds as [|[[fid0 size0] bt0] fds IH];
    intros fields0 st i H Hi Hlast; [discriminate|].
  cbn [decode_fields] in H. inv_bind H as raw s1 E1. injection E1 as <- <-.
  inv_bind H as v s2 E2. apply lift_Ok_inv in E2 as [Hv ->].
  destruct i as [|i].
  - injection Hi as -> -> ->. exists v. split.
    + change (fields_size (take 0 ((fid, size, bt) :: fds))) with 0.
      now rewrite Z.add_0_r.
    + rewrite (decode_fields_other _ _ _ _ _ _ fid H).
      * apply lookup_insert_eq.
      * intros Hin. apply in_map_iff in Hin as (fd & Hfd & Hin).
        apply list_elem_of_In, list_elem_of_lookup in Hin as [j Hj].
        apply (Hlast (S j) fd); [lia | exact Hj | exact Hfd].
  - simpl in Hi. destruct (IH _ _ i H Hi) as (w & Hw & Hlook).
    + intros j fd Hj Hfd. apply (Hlast (S j) fd); [lia | exact Hfd].
    + exists w. split; [|exact Hlook].
      cbn [take]. rewrite fields_size_cons. unfold field_size at 1.
      simpl in *.
      now replace (pos st + (size0 + fields_size (take i fds)))
        with (pos st + size0 + fields_size (take i fds)) by lia.
Qed.

(** X4: the length of a message is fixed by its header byte and the
    definition table, never by the contents of its fields.  An iteration
    that succeeds on a definition message moves the cursor by 6 bytes plus 3
    per declared field; one that succeeds on a data message or a compressed
    timestamp message moves it by 1 byte plus the sum of the sizes the
    definition of its slot declares, and leaves the table as it is. *)
Theorem message_length records st records' st' :
  parse_message records st = Ok (records', st') ->
  exists header st1,
    read_byte st = Ok (header, st1) /\
    ((Z.land header 0x80 = 0 /\ Z.land header 0x40 <> 0 /\
      exists d, defs st' !! Z.land header 0x0F = Some d /\
        pos st' = pos st + 6 + 3 * len (d_fields d)) \/
     ((Z.land header 0x80 = 0 -> Z.land header 0x40 = 0) /\
      exists d, defs st !! header_slot header = Some d /\
        defs st' = defs st /\
        pos st' = pos st + 1 + fields_size (d_fields d))).
Proof.
  intros H. rewrite parse_message_unfold in H.
  destruct (read_byte st) as [[header st1]|e] eqn:Hrd; [|discriminate].
  exists header, st1. split; [reflexivity|].
  apply read_byte_Ok in Hrd as (-> & _).
  assert (Hdata : forall st0 fields st2,
            pos st0 = pos st + 1 -> defs st0 = defs st ->
            parse_data_message (header_slot header) st0 = Ok (fields, st2) ->
            exists d, defs st !! header_slot header = Some d /\
              defs st2 = defs st /\
              pos st2 = pos st + 1 + fields_size (d_fields d)).
  { intros st0 fields st2 Hp0 Hd0 Hp.
    pose proof (parse_data_message_frame _ _ _ _ Hp) as (_ & Hdm & _).
    unfold parse_data_message in Hp. rewrite Hd0 in Hp.
    destruct (defs st !! header_slot header) as [d|]; [|discriminate].
    exists d. split; [reflexivity|]. split; [congruence|].
    apply decode_fields_pos_exact in Hp as [-> _]. lia. }
  unfold header_slot in *.
  destruct (Z.eqb_spec (Z.land header 0x80) 0) as [H80 | H80].
  - change (negb true) with false in H. cbv iota in H.
    destruct (Z.eq_dec (Z.land header 0x40) 0) as [Hdef | Hdef].
    + right. split; [auto|].
      destruct (parse_data_message (Z.land header 0x0F) (set_pos (pos st + 1) st))
        as [[fields st2]|e] eqn:Hp.
      * rewrite (normal_message_data _ _ _ _ _ Hdef Hp) in H.
        injection H as _ <-.
        destruct (Hdata (set_pos (pos st + 1) st) _ _ eq_refl eq_refl Hp)
          as (d & Hd & Hdm & Hpos).
        exists d. auto.
      * rewrite (normal_message_data_Err _ _ _ _ Hdef Hp) in H. discriminate.
    + left. split; [assumption|]. split; [assumption|].
      rewrite (normal_message_definition _ _ _ Hdef) in H.
      destruct (read_definition (set_pos (pos st + 1) st)) as [[d st2]|e] eqn:Hr;
        [|discriminate].
      injection H as _ <-. exists d. simpl.
      split; [apply lookup_insert_eq|].
      apply read_definition_Ok in Hr as (-> & _). simpl. lia.
  - change (negb false) with true in H. cbv iota in H. right.
    split; [contradiction|].
    apply compressed_message_Ok_inv in H as (T & ts & fields & _ & _ & Hp & _).
    eapply Hdata; [| | exact Hp]; reflexivity.
Qed.

Lemma message_length_witness :
  parse_message [] (sample_parser None)
  = Ok ([ <[253 := VInt 2]> {[ 253 := VInt 7 ]} ], sample_parser_after 2) /\
  exists header st1,
    read_byte (sample_parser None) = Ok (header, st1) /\
    ((Z.land header 0x80 = 0 /\ Z.land header 0x40 <> 0 /\
      exists d, defs (sample_parser_after 2) !! Z.land header 0x0F = Some d /\
        pos (sample_parser_after 2)
        = pos (sample_parser None) + 6 + 3 * len (d_fields d)) \/
     ((Z.land header 0x80 = 0 -> Z.land header 0x40 = 0) /\
      exists d, defs (sample_parser None) !! header_slot header = Some d /\
        defs (sample_parser_after 2) = defs (sample_parser None) /\
        pos (sample_parser_after 2)
        = pos (sample_parser None) + 1 + fields_size (d_fields d))).
Proof.
  assert (H : parse_message [] (sample_parser None)
              = Ok ([ <[253 := VInt 2]> {[ 253 := VInt 7 ]} ],
                    sample_parser_after 2)) by reflexivity.
  split; [exact H|]. exact (message_length _ _ _ _ H).
Defined.

(** X5: the fields of a data message lie one after the other from the
    cursor on, each as long as its declared size.  The decoded record holds
    exactly the identifiers the definition declares, and under an
    identifier it holds the value [parse_value] gives for the slice of the
    last field declared with it: a later field of the same identifier
    replaces an earlier one. *)
Theorem data_message_layout local_msg st d fields st' :
  defs st !! local_msg = Some d ->
  parse_data_message local_msg st = Ok (fields, st') ->
  (forall k, is_Some (fields !! k) <-> In k (map field_id (d_fields d))) /\
  (forall (i : nat) fid size bt,
     d_fields d !! i = Some (fid, size, bt) ->
     (forall j fd, (i < j)%nat -> d_fields d !! j = Some fd ->
        field_id fd <> fid) ->
     exists v,
       parse_value
         (slice (data st) (pos st + fields_size (take i (d_fields d))) size)
         bt (d_endian d) = Ok v /\
       fields !! fid = Some v) /\
  pos st' = pos st + fields_size (d_fields d).
Proof.
  intros Hd Hp. rewrite (parse_data_message_defined _ _ _ Hd) in Hp.
  split; [|split].
  - intros k. rewrite (decode_fields_keys _ _ _ _ _ _ k Hp), lookup_empty.
    split; [|auto]. intros [? | [? ?]]; [assumption | discriminate].
  - intros i fid size bt Hi Hlast.
    exact (decode_fields_lookup _ _ _ _ _ _ _ _ _ _ Hp Hi Hlast).
  - now apply decode_fields_pos_exact in Hp as [-> _].
Qed.

Lemma data_message_layout_witness :
  defs duplicate_field_parser !! 0
  = Some (mkDefinition 20 [(3, 1, 2); (3, 1, 2)] LittleEndian) /\
  parse_data_message 0 duplicate_field_parser
  = Ok ({[ 3 := VInt 2 ]}, set_pos 2 duplicate_field_parser) /\
  exists v,
    parse_value (slice [x01; x02] (0 + 1) 1) 2 LittleEndian = Ok v /\
    ({[ 3 := VInt 2 ]} : gmap Z value) !! 3 = Some v.
Proof.
  assert (Hd : defs duplicate_field_parser !! 0
               = Some (mkDefinition 20 [(3, 1, 2); (3, 1, 2)] LittleEndian))
    by reflexivity.
  assert (Hp : parse_data_message 0 duplicate_field_parser
               = Ok ({[ 3 := VInt 2 ]}, set_pos 2 duplicate_field_parser))
    by reflexivity.
  split; [exact Hd|]. split; [exact Hp|].
  destruct (data_message_layout _ _ _ _ _ Hd Hp) as (_ & Hlayout & _).
  apply (Hlayout 1%nat 3 1 2); [reflexivity|].
  intros [|[|j]] fd Hj Hfd; try lia; discriminate Hfd.
Defined.

(** ** Invariants of a pass *)

Lemma slot_range header :
  0 <= Z.land header 0x0F <= 15 /\ 0 <= Z.land (Z.shiftr header 5) 0x3 <= 3.
Proof.
  split.
  - assert (H : Z.land header 0x0F = header mod 16)
      by (apply (Z.land_ones header 4); lia).
    rewrite H. pose proof (Z.mod_pos_bound header 16 ltac:(lia)). lia.
  - assert (H : Z.land (Z.shiftr header 5) 0x3 = Z.shiftr header 5 mod 4)
      by (apply (Z.land_ones (Z.shiftr header 5) 2); lia).
    rewrite H. pose proof (Z.mod_pos_bound (Z.shiftr header 5) 4 ltac:(lia)). lia.
Qed.

Lemma header_slot_range header : 0 <= header_slot header <= 15.
Proof.
  unfold header_slot. pose proof (slot_range header).
  destruct (Z.land header 0x80 =? 0); lia.
Qed.

(** Every component of a field triple read from the buffer is a byte. *)
Lemma read_fields_bytes n st fds st' :
  read_fields n st = Ok (fds, st') ->
  Forall (fun fd => 0 <= field_id fd < 256 /\ 0 <= field_size fd < 256 /\
                    0 <= snd fd < 256) fds.
Proof.
  revert st fds st'. induction n as [|n IH]; intros st fds st' H.
  - injection H as <- _. constructor.
  - cbn [read_fields] in H.
    inv_bind H as a s1 E1. inv_bind H as b s2 E2. inv_bind H as c s3 E3.
    inv_bind H as rest s4 E4. injection H as <- _.
    apply read_byte_Ok in E1 as (_ & Ha & _).
    apply read_byte_Ok in E2 as (_ & Hb & _).
    apply read_byte_Ok in E3 as (_ & Hc & _).
    constructor; [|eauto]. unfold field_id, field_size. simpl. auto.
Qed.

Lemma read_definition_ok st d st' :
  read_definition st = Ok (d, st') -> definition_ok d.
Proof.
  unfold read_definition. intros H.
  inv_bind H as r0 s0 E0. inv_bind H as arch s1 E1.
  inv_bind H as raw s2 E2. inv_bind H as g s3 E3.
  apply lift_Ok_inv in E3 as [Hg _].
  inv_bind H as n s4 E4. apply read_byte_Ok in E4 as (_ & Hn & _).
  inv_bind H as fds s5 E5. injection H as <- _.
  pose proof (read_fields_bytes _ _ _ _ E5) as Hb.
  apply read_fields_Ok in E5 as (_ & _ & Hl & _).
  unfold definition_ok. simpl. split; [|split; [|exact Hb]].
  - unfold unpack_H in Hg. destruct (Z.eqb_spec (len raw) 2) as [Hlen|];
      [|discriminate].
    injection Hg as <-.
    pose proof (unsigned_of_range (if arch =? 0 then LittleEndian else BigEndian) raw)
      as Hu.
    rewrite Hlen in Hu. change (256 ^ 2) with 65536 in Hu. exact Hu.
  - unfold len. lia.
Qed.

(** What an iteration does to the table: nothing, or one insertion of the
    definition it read under the slot of its header. *)
Lemma parse_message_defs records st records' st' :
  parse_message records st = Ok (records', st') ->
  defs st' = defs st \/
  exists header st1 d st2,
    read_byte st = Ok (header, st1) /\
    Z.land header 0x80 = 0 /\ Z.land header 0x40 <> 0 /\
    read_definition st1 = Ok (d, st2) /\
    defs st' = <[Z.land header 0x0F := d]> (defs st).
Proof.
  intros H. rewrite parse_message_unfold in H.
  destruct (read_byte st) as [[header st1]|e] eqn:Hrd; [|discriminate].
  pose proof Hrd as Hst1. apply read_byte_Ok in Hst1 as (-> & _).
  destruct (Z.eqb_spec (Z.land header 0x80) 0) as [H80 | H80].
  - change (negb true) with false in H. cbv iota in H.
    destruct (Z.eq_dec (Z.land header 0x40) 0) as [Hdef | Hdef].
    + left.
      destruct (parse_data_message (Z.land header 0x0F) (set_pos (pos st + 1) st))
        as [[fields st2]|e] eqn:Hp.
      * rewrite (normal_message_data _ _ _ _ _ Hdef Hp) in H.
        injection H as _ <-.
        apply parse_data_message_frame in Hp as (_ & Hdm & _). exact Hdm.
      * rewrite (normal_message_data_Err _ _ _ _ Hdef Hp) in H. discriminate.
    + right. rewrite (normal_message_definition _ _ _ Hdef) in H.
      destruct (read_definition (set_pos (pos st + 1) st)) as [[d st2]|e] eqn:Hr;
        [|discriminate].
      injection H as _ <-. exists header, (set_pos (pos st + 1) st), d, st2.
      pose proof (cursor_only_Ok _ _ _ _ cursor_only_read_definition Hr)
        as (_ & Hdm & _).
      split; [reflexivity|]. split; [assumption|]. split; [assumption|].
      split; [exact Hr|]. simpl in *. now rewrite Hdm.
  - change (negb false) with true in H. cbv iota in H. left.
    apply compressed_message_Ok_inv in H as (T & ts & fields & _ & _ & Hp & _).
    apply parse_data_message_frame in Hp as (_ & Hdm & _). exact Hdm.
Qed.

Lemma table_ok_sizes dm : table_ok dm -> sizes_ok dm.
Proof.
  intros Hdm slot d Hd. destruct (Hdm slot d Hd) as (_ & _ & _ & Hf).
  eapply Forall_impl; [exact Hf|]. simpl. intros fd (_ & Hs & _). lia.
Qed.

Lemma parse_message_table_ok records st records' st' :
  parse_message records st = Ok (records', st') ->
  table_ok (defs st) -> table_ok (defs st').
Proof.
  intros H Hdm.
  destruct (parse_message_defs _ _ _ _ H)
    as [-> | (header & st1 & d & st2 & _ & _ & _ & Hr & ->)]; [assumption|].
  intros slot d' Hd'. destruct (decide (Z.land header 0x0F = slot)) as [<- | Hne].
  - rewrite lookup_insert_eq in Hd'. injection Hd' as <-.
    split; [apply slot_range | now apply read_definition_ok in Hr].
  - rewrite lookup_insert_ne in Hd' by assumption. now apply Hdm.
Qed.

(** X6: what a pass keeps, from any state with a well-formed table and a
    cursor that is not negative (the state [parse] starts from is one):
    every state the loop reaches has the same buffer, a cursor that is not
    behind, and a table whose slots are among 0..15 and whose definitions
    hold a 16-bit global number, at most 255 fields and byte-sized field
    identifiers, sizes and base types. *)
Theorem pass_invariants st st' :
  0 <= pos st -> table_ok (defs st) -> reaches st st' ->
  data st' = data st /\ pos st <= pos st' /\ table_ok (defs st').
Proof.
  intros Hpos Hdm Hreach. induction Hreach as [st | st records records' st1 st2 Hstep _ IH].
  - split; [reflexivity|]. split; [lia | assumption].
  - pose proof (parse_message_table_ok _ _ _ _ Hstep Hdm) as Hdm1.
    apply parse_message_progress in Hstep as (_ & Hd & Hp & _);
      [|split; [assumption | now apply table_ok_sizes]].
    destruct (IH ltac:(lia) Hdm1) as (Hd2 & Hp2 & Hdm2).
    split; [congruence|]. split; [lia | assumption].
Qed.

Lemma table_ok_empty : table_ok ∅.
Proof. intros slot d H. rewrite lookup_empty in H. discriminate. Qed.

Lemma pass_invariants_witness :
  0 <= pos (set_pos 12 (init no_timestamp_stream)) /\
  table_ok (defs (set_pos 12 (init no_timestamp_stream))) /\
  reaches (set_pos 12 (init no_timestamp_stream))
    (mkFitParser no_timestamp_stream 33 no_timestamp_defs None) /\
  table_ok no_timestamp_defs.
Proof.
  assert (Hpos : 0 <= pos (set_pos 12 (init no_timestamp_stream)))
    by (simpl; lia).
  assert (Hreach : reaches (set_pos 12 (init no_timestamp_stream))
                     (mkFitParser no_timestamp_stream 33 no_timestamp_defs None)).
  { apply (reaches_next _ [] []
             (mkFitParser no_timestamp_stream 24 no_timestamp_defs None));
      [reflexivity|].
    apply (reaches_next _ [] [ {[ 0 := VInt 1; 1 := VInt 2 ]} ]
             (mkFitParser no_timestamp_stream 33 no_timestamp_defs None));
      [reflexivity|].
    apply reaches_here. }
  split; [exact Hpos|]. split; [exact table_ok_empty|]. split; [exact Hreach|].
  exact (proj2 (proj2 (pass_invariants _ _ Hpos table_ok_empty Hreach))).
Defined.

(** ** The exceptions of a pass *)

Lemma parse_value_Err_kinds raw base_type endian e :
  parse_value raw base_type endian = Err e ->
  e = StructError \/ e = IndexError \/ e = UnicodeDecodeError.
Proof.
  intros H. destruct (base_formats (Z.land base_type 0x1F)) as [f|] eqn:Hf.
  - destruct (Z.eq_dec base_type 7) as [-> | Hne].
    + rewrite parse_value_string in H. destruct raw as [|c rest].
      * injection H as <-. auto.
      * destruct (byte_val c <? 0x80); [discriminate|]. injection H as <-. auto.
    + apply Z.eqb_neq in Hne. rewrite (parse_value_known _ _ _ _ Hf Hne) in H.
      destruct (len raw mod calcsize f =? 0).
      * destruct (len raw / calcsize f =? 1); discriminate.
      * injection H as <-. auto.
  - unfold parse_value in H. rewrite Hf in H. discriminate.
Qed.

Lemma decode_fields_Err_kinds endian fds fields0 st e :
  decode_fields endian fds fields0 st = Err e ->
  e = StructError \/ e = IndexError \/ e = UnicodeDecodeError.
Proof.
  revert fields0 st. induction fds as [|[[fid size] bt] fds IH];
    intros fields0 st H; [discriminate|].
  cbn [decode_fields] in H.
  apply bind_Err_inv in H as [H | (raw & s1 & _ & H)]; [discriminate|].
  apply bind_Err_inv in H as [H | (v & s2 & _ & H)]; [|eauto].
  apply lift_Err_inv in H. now apply parse_value_Err_kinds in H.
Qed.

Lemma parse_data_message_Err_kinds local_msg st e :
  parse_data_message local_msg st = Err e ->
  e = ValueError_missing local_msg \/
  e = StructError \/ e = IndexError \/ e = UnicodeDecodeError.
Proof.
  unfold parse_data_message. destruct (defs st !! local_msg) as [d|].
  - intros H. right. now apply decode_fields_Err_kinds in H.
  - intros [= <-]. now left.
Qed.

(** The exceptions of one iteration. *)
Lemma parse_message_Err_kinds records st e :
  parse_message records st = Err e -> decode_error e.
Proof.
  intros H. rewrite parse_message_unfold in H. unfold decode_error.
  destruct (read_byte st) as [[header st1]|e'] eqn:Hrd.
  - assert (Hdata : forall slot st0,
              0 <= slot <= 15 ->
              parse_data_message slot st0 = Err e -> decode_error e).
    { intros slot st0 Hslot Hp. unfold decode_error.
      apply parse_data_message_Err_kinds in Hp as [-> | [-> | [-> | ->]]];
        eauto 10. }
    pose proof (slot_range header) as [Hs15 Hs3].
    destruct (Z.eqb_spec (Z.land header 0x80) 0) as [H80 | H80].
    + change (negb true) with false in H. cbv iota in H.
      destruct (Z.eq_dec (Z.land header 0x40) 0) as [Hdef | Hdef].
      * destruct (parse_data_message (Z.land header 0x0F) st1)
          as [[fields st2]|e'] eqn:Hp.
        -- rewrite (normal_message_data _ _ _ _ _ Hdef Hp) in H. discriminate.
        -- rewrite (normal_message_data_Err _ _ _ _ Hdef Hp) in H.
           injection H as ->. exact (Hdata _ _ Hs15 Hp).
      * rewrite (normal_message_definition _ _ _ Hdef) in H.
        destruct (read_definition st1) as [[d st2]|e'] eqn:Hr; [discriminate|].
        injection H as ->. apply read_definition_Err in Hr as [-> | ->]; auto.
    + change (negb false) with true in H. cbv iota in H.
      assert (Hint : (exists T, default (VInt 0) (last_timestamp st1) = VInt T)
                     \/ e = TypeError).
      { destruct (last_timestamp st1) as [v|] eqn:Hv; [|left; now exists 0].
        destruct v; try (right;
          rewrite (compressed_message_TypeError _ _ _ _ Hv) in H;
          [congruence | intros ?; discriminate]).
        left. now eexists. }
      destruct Hint as [[T HT] | ->]; [|auto].
      rewrite (compressed_message_int _ _ _ _ _ HT (compressed_timestamp_int _ _))
        in H.
      apply bind_Err_inv in H as [H | (fields & st2 & _ & H)]; [|discriminate].
      eapply Hdata; [|exact H]. lia.
  - injection H as <-. apply read_byte_Err_inv in Hrd as ->. auto.
Qed.

Lemma parse_loop_Err_kinds fuel end_ records st e :
  parse_loop fuel end_ records st = Some (Err e) -> decode_error e.
Proof.
  revert records st. induction fuel as [|fuel IH]; intros records st H;
    simpl in H.
  - destruct (pos st <? end_); discriminate.
  - destruct (pos st <? end_); [|discriminate].
    destruct (parse_message records st) as [[records' st']|e'] eqn:Hstep.
    + eauto.
    + injection H as ->. now apply parse_message_Err_kinds in Hstep.
Qed.

(** X7: the exceptions a decode pass can end with are [IndexError],
    [struct.error], [UnicodeDecodeError], [TypeError], and the [ValueError]
    of a missing definition, for a slot among 0..15; [parse] never raises
    another one. *)
Theorem parse_error_kinds st e :
  parse st = Some (Err e) -> decode_error e.
Proof.
  unfold parse, decode_error. intros H.
  destruct (item0 (data st)) as [header_size|e'] eqn:Hh.
  - destruct (unpack_from_I (data st) 4) as [data_size|e'] eqn:Hu.
    + now apply parse_loop_Err_kinds in H.
    + injection H as ->. unfold unpack_from_I in Hu.
      destruct (len (data st) - 4 <? 4); [|discriminate].
      injection Hu as <-. auto.
  - injection H as ->. unfold item0 in Hh.
    destruct (data st); [|discriminate]. injection Hh as <-. auto.
Qed.

Lemma parse_error_kinds_witness :
  parse (init undefined_slot_stream) = Some (Err (ValueError_missing 1)) /\
  decode_error (ValueError_missing 1).
Proof.
  assert (H : parse (init undefined_slot_stream)
              = Some (Err (ValueError_missing 1))) by reflexivity.
  split; [exact H | exact (parse_error_kinds _ _ H)].
Defined.

(** ** Messages that are no records *)

(** An iteration appends nothing, or one record whose slot holds a
    definition with the global number 20. *)
Lemma parse_message_appends records st records' st' :
  parse_message records st = Ok (records', st') ->
  records' = records \/
  exists record slot d,
    records' = records ++ [record] /\
    defs st' !! slot = Some d /\ d_global d = 20.
Proof.
  intros H. rewrite parse_message_unfold in H.
  destruct (read_byte st) as [[header st1]|e] eqn:Hrd; [|discriminate].
  assert (Hrec : forall slot st2,
            is_record slot st2 = true ->
            exists d, defs st2 !! slot = Some d /\ d_global d = 20).
  { intros slot st2. unfold is_record, get_global.
    destruct (defs st2 !! slot) as [d|]; [|discriminate]. simpl.
    intros Hg. apply Z.eqb_eq in Hg. eauto. }
  destruct (negb (Z.land header 0x80 =? 0)).
  - apply compressed_message_Ok_inv in H as (T & ts & fields & _ & _ & _ & ->).
    destruct (is_record _ st') eqn:Hr; [|now left].
    right. destruct (Hrec _ _ Hr) as (d & Hd & Hg). eauto 10.
  - destruct (Z.eq_dec (Z.land header 0x40) 0) as [Hdef | Hdef].
    + destruct (parse_data_message (Z.land header 0x0F) st1)
        as [[fields st2]|e] eqn:Hp.
      * rewrite (normal_message_data _ _ _ _ _ Hdef Hp) in H.
        injection H as <- <-.
        destruct (is_record _ st2) eqn:Hr; [|now left].
        right. destruct (Hrec _ _ Hr) as (d & Hd & Hg). eauto 10.
      * rewrite (normal_message_data_Err _ _ _ _ Hdef Hp) in H. discriminate.
    + rewrite (normal_message_definition _ _ _ Hdef) in H.
      destruct (read_definition st1) as [[d st2]|e]; [|discriminate].
      injection H as <- _. now left.
Qed.

(** X8: messages that are no record messages are decoded and dropped.  If
    no state the loop reaches by its iterations, which start only while the
    cursor is before the end of the data section, holds a definition with
    the global number 20, a pass that ends normally returns the records it
    started with: none, for [parse].  Bytes after the data section do not
    count. *)
Theorem non_record_messages_skipped fuel end_ records st rs :
  (forall st', loop_reaches end_ st st' ->
     forall slot d, defs st' !! slot = Some d -> d_global d <> 20) ->
  parse_loop fuel end_ records st = Some (Ok rs) ->
  rs = records.
Proof.
  revert records st. induction fuel as [|fuel IH]; intros records st Hno H;
    simpl in H.
  - destruct (pos st <? end_); [discriminate|]. now injection H as <-.
  - destruct (Z.ltb_spec (pos st) end_) as [Hlt|]; [|now injection H as <-].
    destruct (parse_message records st) as [[records' st1]|e] eqn:Hstep;
      [|discriminate].
    assert (Hone : loop_reaches end_ st st1)
      by (eapply loop_reaches_next;
          [exact Hlt | exact Hstep | apply loop_reaches_here]).
    destruct (parse_message_appends _ _ _ _ Hstep)
      as [-> | (record & slot & d & _ & Hd & Hg)].
    + apply (IH _ _) in H; [assumption|].
      intros st' Hreach. apply Hno. eapply loop_reaches_next; eassumption.
    + now destruct (Hno st1 Hone slot d Hd).
Qed.

Lemma non_record_messages_skipped_witness :
  (forall st', loop_reaches 23 (set_pos 12 (init trailer_stream)) st' ->
     forall slot d, defs st' !! slot = Some d -> d_global d <> 20) /\
  exists rs,
    parse_loop 30 23 [] (set_pos 12 (init trailer_stream)) = Some (Ok rs) /\
    rs = [].
Proof.
  assert (Hno : forall st',
            loop_reaches 23 (set_pos 12 (init trailer_stream)) st' ->
            forall slot d, defs st' !! slot = Some d -> d_global d <> 20).
  { intros st' Hreach slot d Hd.
    assert (Hdefs : defs st' = ∅ \/
                    defs st' = {[ 0 := mkDefinition 21 [(0, 1, 2)] LittleEndian ]}).
    { inversion Hreach as [|? records0 records1 st1 ? _ Hstep1 Hreach1]; subst;
        [now left|].
      vm_compute in Hstep1. injection Hstep1 as _ <-.
      inversion Hreach1 as [|? records2 records3 st2 ? _ Hstep2 Hreach2]; subst;
        [now right|].
      vm_compute in Hstep2. injection Hstep2 as _ <-.
      inversion Hreach2 as [|? records4 records5 st3 ? Hlt3 _ _]; subst;
        [now right|].
      vm_compute in Hlt3. discriminate Hlt3. }
    destruct Hdefs as [Hdefs | Hdefs]; rewrite Hdefs in Hd.
    - rewrite lookup_empty in Hd. discriminate.
    - destruct (decide (slot = 0)) as [-> | Hne].
      + rewrite lookup_singleton_eq in Hd. injection Hd as <-. discriminate.
      + rewrite lookup_singleton_ne in Hd by congruence. discriminate. }
  assert (Hloop : parse_loop 30 23 [] (set_pos 12 (init trailer_stream))
                  = Some (Ok [])) by reflexivity.
  split; [exact Hno|]. exists []. split; [exact Hloop|].
  exact (non_record_messages_skipped _ _ _ _ _ Hno Hloop).
Defined.

(** ** The projector on decoded records *)

(** A decoded integer fits 64 bits, signed or unsigned. *)
Lemma decoded_int_bound n : decoded (VInt n) -> Z.abs n < 2 ^ 64.
Proof.
  intros (raw & bt & endian & H).
  destruct (base_formats (Z.land bt 0x1F)) as [f|] eqn:Hf.
  - destruct (Z.eq_dec bt 7) as [-> | Hne].
    + rewrite parse_value_string in H. destruct raw as [|c rest]; [discriminate|].
      destruct (byte_val c <? 0x80); discriminate.
    + apply Z.eqb_neq in Hne. rewrite (parse_value_known _ _ _ _ Hf Hne) in H.
      pose proof (calcsize_pos f) as Hw.
      destruct (Z.eqb_spec (len raw mod calcsize f) 0) as [Hm|]; [|discriminate].
      apply exact_multiple in Hm; [|assumption].
      destruct (Z.eqb_spec (len raw / calcsize f) 1) as [H1|]; [|discriminate].
      rewrite H1 in Hm. injection H as H.
      pose proof (unpack_one_ok endian f raw ltac:(lia)) as Hok.
      rewrite H in Hok. destruct Hok as (lo & hi & Hr & Hn).
      destruct f; simpl in Hr; try discriminate; injection Hr as <- <-; lia.
  - unfold parse_value in H. rewrite Hf in H. discriminate.
Qed.

(** On a decoded value the unit conversions raise nothing but [TypeError]. *)
Lemma degrees_decoded v e : decoded v -> degrees v = Err e -> e = TypeError.
Proof.
  intros Hv H. destruct v as [n| x | s | b | items].
  - rewrite degrees_int in H by now apply decoded_int_bound. discriminate.
  - rewrite degrees_float in H. discriminate.
  - rewrite degrees_TypeError in H by (simpl; tauto). congruence.
  - rewrite degrees_TypeError in H by (simpl; tauto). congruence.
  - rewrite degrees_TypeError in H by (simpl; tauto). congruence.
Qed.

Lemma meters_decoded v e : decoded v -> meters v = Err e -> e = TypeError.
Proof.
  intros Hv H. destruct v as [n| x | s | b | items].
  - rewrite meters_int in H by now apply decoded_int_bound. discriminate.
  - rewrite meters_float in H. discriminate.
  - rewrite meters_TypeError in H by (simpl; tauto). congruence.
  - rewrite meters_TypeError in H by (simpl; tauto). congruence.
  - rewrite meters_TypeError in H by (simpl; tauto). congruence.
Qed.

Lemma trackpoint_record_ok format_float epoch_isoformat r e :
  record_ok r ->
  trackpoint format_float epoch_isoformat r = Err e ->
  e = TypeError \/ exists t, r !! 253 = Some t /\ epoch_isoformat t = Err e.
Proof.
  intros Hr H.
  destruct (r !! 0) as [v0|] eqn:H0;
    [|rewrite trackpoint_dropped in H by auto; discriminate].
  destruct (r !! 1) as [v1|] eqn:H1;
    [|rewrite trackpoint_dropped in H by auto; discriminate].
  rewrite (trackpoint_present _ _ _ _ _ H0 H1) in H.
  destruct (degrees v0) as [lat_|e0] eqn:Hlat.
  2:{ injection H as <-. left.
      eapply degrees_decoded; [|exact Hlat]. apply (Hr 0); [lia | exact H0]. }
  destruct (degrees v1) as [lon_|e1] eqn:Hlon.
  2:{ injection H as <-. left.
      eapply degrees_decoded; [|exact Hlon]. apply (Hr 1); [lia | exact H1]. }
  cbn [rbind] in H.
  destruct (r !! 2) as [v2|] eqn:H2.
  - destruct (meters v2) as [alt|e2] eqn:Hm.
    2:{ injection H as <-. left.
        eapply meters_decoded; [|exact Hm]. apply (Hr 2); [lia | exact H2]. }
    cbn [rbind] in H.
    destruct (r !! 253) as [t|]; [|discriminate].
    destruct (epoch_isoformat t) as [s|e3] eqn:Ht; [discriminate|].
    injection H as <-. right. eauto.
  - cbn [rbind] in H.
    destruct (r !! 253) as [t|]; [|discriminate].
    destruct (epoch_isoformat t) as [s|e3] eqn:Ht; [discriminate|].
    injection H as <-. right. eauto.
Qed.

Lemma decode_fields_decoded endian fds fields0 st fields st' :
  decode_fields endian fds fields0 st = Ok (fields, st') ->
  (forall k v, fields0 !! k = Some v -> decoded v) ->
  forall k v, fields !! k = Some v -> decoded v.
Proof.
  revert fields0 st. induction fds as [|[[fid size] bt] fds IH];
    intros fields0 st H H0.
  - now injection H as <- <-.
  - cbn [decode_fields] in H. inv_bind H as raw s1 E1.
    inv_bind H as v s2 E2. apply lift_Ok_inv in E2 as [Hv _].
    apply (IH _ _ H). intros k w Hk.
    destruct (decide (fid = k)) as [-> | Hne].
    + rewrite lookup_insert_eq in Hk. injection Hk as <-.
      now exists raw, bt, endian.
    + rewrite lookup_insert_ne in Hk by assumption. eauto.
Qed.

Lemma parse_data_message_decoded local_msg st fields st' :
  parse_data_message local_msg st = Ok (fields, st') ->
  forall k v, fields !! k = Some v -> decoded v.
Proof.
  unfold parse_data_message. destruct (defs st !! local_msg) as [d|];
    [|discriminate].
  intros H. apply (decode_fields_decoded _ _ _ _ _ _ H).
  intros k v Hk. rewrite lookup_empty in Hk. discriminate.
Qed.

Lemma record_ok_insert_253 fields t :
  (forall k v, fields !! k = Some v -> decoded v) ->
  record_ok (<[253 := t]> fields).
Proof.
  intros H k v Hk Hv. rewrite lookup_insert_ne in Hv by congruence. eauto.
Qed.

Lemma parse_message_record_ok records st records' st' :
  parse_message records st = Ok (records', st') ->
  Forall record_ok records -> Forall record_ok records'.
Proof.
  intros H Hok. rewrite parse_message_unfold in H.
  destruct (read_byte st) as [[header st1]|e] eqn:Hrd; [|discriminate].
  destruct (negb (Z.land header 0x80 =? 0)).
  - apply compressed_message_Ok_inv in H as (T & ts & fields & _ & _ & Hp & ->).
    destruct (is_record _ st'); [|assumption].
    apply Forall_app. split; [assumption|]. constructor; [|constructor].
    apply record_ok_insert_253. exact (parse_data_message_decoded _ _ _ _ Hp).
  - destruct (Z.eq_dec (Z.land header 0x40) 0) as [Hdef | Hdef].
    + destruct (parse_data_message (Z.land header 0x0F) st1)
        as [[fields st2]|e] eqn:Hp.
      * rewrite (normal_message_data _ _ _ _ _ Hdef Hp) in H.
        injection H as <- _.
        destruct (is_record _ st2); [|assumption].
        apply Forall_app. split; [assumption|]. constructor; [|constructor].
        pose proof (parse_data_message_decoded _ _ _ _ Hp) as Hdec.
        unfold inherit_timestamp.
        destruct (fields !! 253) as [t|]; [intros k w _; apply Hdec|].
        destruct (last_timestamp st1) as [t|];
          [now apply record_ok_insert_253 | intros k w _; apply Hdec].
      * rewrite (normal_message_data_Err _ _ _ _ Hdef Hp) in H. discriminate.
    + rewrite (normal_message_definition _ _ _ Hdef) in H.
      destruct (read_definition st1) as [[d st2]|e]; [|discriminate].
      now injection H as <- _.
Qed.

Lemma parse_loop_record_ok fuel end_ records st rs :
  parse_loop fuel end_ records st = Some (Ok rs) ->
  Forall record_ok records -> Forall record_ok rs.
Proof.
  revert records st. induction fuel as [|fuel IH]; intros records st H Hok;
    simpl in H.
  - destruct (pos st <? end_); [discriminate|]. now injection H as <-.
  - destruct (pos st <? end_); [|now injection H as <-].
    destruct (parse_message records st) as [[records' st1]|e] eqn:Hstep;
      [|discriminate].
    apply (IH _ _ H). exact (parse_message_record_ok _ _ _ _ Hstep Hok).
Qed.

Lemma records_to_gpx_Err format_float epoch_isoformat rs e :
  records_to_gpx format_float epoch_isoformat rs = Err e ->
  exists r, In r rs /\ trackpoint format_float epoch_isoformat r = Err e.
Proof.
  induction rs as [|r rs IH]; [discriminate|]. cbn [records_to_gpx].
  destruct (trackpoint format_float epoch_isoformat r) as [p|e'] eqn:Hr.
  - cbn [rbind].
    destruct (records_to_gpx format_float epoch_isoformat rs) as [ps|e'] eqn:Hrs;
      [discriminate|].
    intros [= <-]. destruct (IH eq_refl) as (r' & Hin & Hr'). exists r'.
    split; [now right | assumption].
  - intros [= <-]. exists r. split; [now left | assumption].
Qed.

(** X9: on the records of a decode pass the unit conversions of the
    projector never overflow and never divide by zero.  When [parse]
    returns records and [records_to_gpx] raises on them, the exception is
    [TypeError] (a field 0, 1 or 2 that holds no number), or it comes
    from the date arithmetic on the field 253 of one of the records. *)
Theorem projector_error_kinds format_float epoch_isoformat st rs e :
  parse st = Some (Ok rs) ->
  records_to_gpx format_float epoch_isoformat rs = Err e ->
  e = TypeError \/
  exists r t, In r rs /\ r !! 253 = Some t /\ epoch_isoformat t = Err e.
Proof.
  intros Hparse Hgpx.
  assert (Hok : Forall record_ok rs).
  { unfold parse in Hparse.
    destruct (item0 (data st)) as [header_size|]; [|discriminate].
    destruct (unpack_from_I (data st) 4) as [data_size|]; [|discriminate].
    apply (parse_loop_record_ok _ _ _ _ _ Hparse). constructor. }
  apply records_to_gpx_Err in Hgpx as (r & Hin & Hr).
  rewrite Forall_forall in Hok.
  destruct (trackpoint_record_ok _ _ _ _ (Hok r ltac:(now apply list_elem_of_In)) Hr)
    as [-> | (t & Ht & He)]; [now left|].
  right. eauto.
Qed.

Lemma projector_error_kinds_witness :
  parse (init array_position_stream)
  = Some (Ok [ {[ 0 := VTuple [VInt 1; VInt 2]; 1 := VInt 3 ]} ]) /\
  records_to_gpx (fun _ _ => []) (fun _ => Ok [])
    [ {[ 0 := VTuple [VInt 1; VInt 2]; 1 := VInt 3 ]} ]
  = Err TypeError /\
  (TypeError = TypeError \/
   exists r t,
     In r [ ({[ 0 := VTuple [VInt 1; VInt 2]; 1 := VInt 3 ]} : gmap Z value) ] /\
     r !! 253 = Some t /\ (fun _ : value => Ok (A := pystr) []) t = Err TypeError).
Proof.
  assert (Hparse : parse (init array_position_stream)
                   = Some (Ok [ {[ 0 := VTuple [VInt 1; VInt 2]; 1 := VInt 3 ]} ]))
    by reflexivity.
  assert (Hgpx : records_to_gpx (fun _ _ => []) (fun _ => Ok [])
                   [ {[ 0 := VTuple [VInt 1; VInt 2]; 1 := VInt 3 ]} ]
                 = Err TypeError) by reflexivity.
  split; [exact Hparse|]. split; [exact Hgpx|].
  exact (projector_error_kinds _ _ _ _ _ Hparse Hgpx).
Defined.

(** ** Positions convert without rounding *)

Lemma Zdigits2_unique m k :
  2 ^ (k - 1) <= m < 2 ^ k -> 0 < m -> Zdigits2 m = k.
Proof.
  intros [Hlo Hhi] Hm.
  assert (Hk : 1 <= k).
  { destruct (Z_lt_le_dec k 1) as [Hlt|]; [|assumption].
    assert (2 ^ k <= 2 ^ 0) by (apply Z.pow_le_mono_r; lia).
    change (2 ^ 0) with 1 in *. lia. }
  pose proof (Zdigits2_nonneg m) as Hd.
  assert (Hle : Zdigits2 m <= k) by (apply Zdigits2_le_iff; lia).
  destruct (Z_le_gt_dec k (Zdigits2 m)) as [|Hgt]; [lia|].
  assert (Hsmall : m < 2 ^ (k - 1)) by (apply Zdigits2_le_iff; lia).
  lia.
Qed.

(** Scaling by a power of two adds that many digits. *)
Lemma Zdigits2_mul_pow m j :
  0 < m -> 0 <= j -> Zdigits2 (m * 2 ^ j) = Zdigits2 m + j.
Proof.
  intros Hm Hj. assert (Hp : 0 < 2 ^ j) by (apply Z.pow_pos_nonneg; lia).
  destruct m as [|p|p]; try lia.
  pose proof (digits2_pos_bounds p) as [Hlo Hhi].
  apply Zdigits2_unique; [|nia]. simpl Zdigits2.
  replace (Zpos (digits2_pos p) + j - 1) with (Zpos (digits2_pos p) - 1 + j) by lia.
  rewrite !Z.pow_add_r by lia. nia.
Qed.

(** An integer of at most 53 bits divided by [2 ^ 31]: the mantissa is the
    integer, scaled to 53 bits. *)
Lemma int_quotient_semicircles n p :
  Z.abs n = Zpos p -> Zpos p < 2 ^ 53 ->
  int_quotient n (2 ^ 31)
  = S754_finite (n <? 0)
      (Z.to_pos (Zpos p * 2 ^ (53 - Zdigits2 (Zpos p))))
      (Zdigits2 (Zpos p) - 84).
Proof.
  intros Hn Hp. set (d := Zdigits2 (Zpos p)).
  assert (Hd : 1 <= d <= 53).
  { split; [unfold d; simpl; lia|]. apply Zdigits2_le_iff; lia. }
  set (m := Z.to_pos (Zpos p * 2 ^ (53 - d))).
  assert (Hpow : 0 < 2 ^ (53 - d)) by (apply Z.pow_pos_nonneg; lia).
  assert (Hm : Zpos m = Zpos p * 2 ^ (53 - d)) by (unfold m; rewrite Z2Pos.id; nia).
  assert (Hdm : Zdigits2 (Zpos m) = 53).
  { rewrite Hm, Zdigits2_mul_pow by lia. fold d. lia. }
  unfold int_quotient, SFdiv_core_binary. rewrite Hn. fold d.
  change (Z.abs (2 ^ 31)) with (2 ^ 31).
  change (Zdigits2 (2 ^ 31)) with 32.
  change (2 ^ 31 <? 0) with false. rewrite xorb_false_r.
  rewrite fexp_eq.
  replace (Z.min (Z.max (d + 0 - (32 + 0) - 53) (-1074)) (0 - 0)) with (d - 85) by lia.
  destruct (0 - 0 - (d - 85)) as [|s|s] eqn:Hs; try lia.
  rewrite Z.shiftl_mul_pow2 by lia.
  assert (Hq : Z.div_eucl (Zpos p * 2 ^ Zpos s) (2 ^ 31) = (Zpos m~0, 0)).
  { assert (Hdiv : Zpos p * 2 ^ Zpos s = 2 ^ 31 * Zpos m~0 + 0).
    { rewrite (Pos2Z.inj_xO m), Hm.
      replace (Zpos s) with (53 - d + 1 + 31) by lia.
      rewrite !Z.pow_add_r by lia. change (2 ^ 1) with 2. lia. }
    assert (Hr : 0 <= 0 < 2 ^ 31 \/ 2 ^ 31 < 0 <= 0)
      by (left; split; [lia | reflexivity]).
    pose proof (Z.div_unique _ _ _ _ Hr Hdiv) as Hquot.
    pose proof (Z.mod_unique _ _ _ _ Hr Hdiv) as Hrem.
    unfold Z.div, Z.modulo in Hquot, Hrem.
    destruct (Z.div_eucl (Zpos p * 2 ^ Zpos s) (2 ^ 31)) as [q r].
    simpl in Hquot, Hrem. now subst. }
  rewrite Hq. cbv iota beta.
  unfold binary_round_aux, shr_fexp.
  assert (Hdq : Zdigits2 (Zpos m~0) = 54).
  { replace (Zpos m~0) with (Zpos m * 2 ^ 1) by (change (2 ^ 1) with 2; lia).
    rewrite (Zdigits2_mul_pow (Zpos m) 1) by lia. lia. }
  rewrite Hdq, fexp_eq.
  replace (Z.max (54 + (d - 85) - 53) (-1074) - (d - 85)) with 1 by lia.
  change (new_location (2 ^ 31) 0) with loc_Exact.
  cbn [shr shr_record_of_loc SpecFloat.iter_pos shr_1 shr_m loc_of_shr_record
       round_nearest_even orb].
  cbv iota beta. rewrite Hdm, fexp_eq.
  replace (Z.max (53 + (d - 85 + 1) - 53) (-1074) - (d - 85 + 1)) with 0 by lia.
  cbn [shr shr_m].
  assert (Hle : (d - 85 + 1 <=? 1024 - 53) = true) by (apply Z.leb_le; lia).
  rewrite Hle. f_equal. lia.
Qed.

Lemma int_quotient_exact n :
  Z.abs n < 2 ^ 53 -> exact_quotient (int_quotient n (2 ^ 31)) n 31.
Proof.
  intros Hn. destruct (Z.abs n) as [|p|p] eqn:Hp; try lia.
  - assert (Hz : n = 0) by lia. rewrite Hz. reflexivity.
  - rewrite (int_quotient_semicircles _ p Hp Hn).
    set (d := Zdigits2 (Zpos p)).
    assert (Hd : 1 <= d <= 53).
    { split; [unfold d; simpl; lia|]. apply Zdigits2_le_iff; lia. }
    assert (Hpow : 0 < 2 ^ (53 - d)) by (apply Z.pow_pos_nonneg; lia).
    unfold exact_quotient.
    rewrite Z.max_l by lia. rewrite Z.max_r by lia.
    replace (- (d - 84 + 31)) with (53 - d) by lia.
    change (2 ^ 0) with 1.
    destruct (Z.ltb_spec n 0) as [Hneg | Hpos].
    + rewrite <- Pos2Z.opp_pos, Z2Pos.id by nia. lia.
    + rewrite Z2Pos.id by nia. lia.
Qed.

(** X10: a position converts to degrees without rounding.  For an integer
    [a] with [|a * 180| < 2^53], which covers every 32-bit value,
    [a * 180 / 2**31] raises nothing and is exactly the number
    [a * 180 / 2^31]. *)
Theorem degrees_exact a :
  Z.abs (a * 180) < 2 ^ 53 ->
  exists x, degrees (VInt a) = Ok x /\ exact_quotient x (a * 180) 31.
Proof.
  intros Ha. rewrite degrees_int.
  2:{ rewrite Z.abs_mul in Ha. change (Z.abs 180) with 180 in Ha.
      assert (2 ^ 53 < 2 ^ 64) by reflexivity. lia. }
  eexists. split; [reflexivity|]. now apply int_quotient_exact.
Qed.

Lemma degrees_exact_witness :
  Z.abs (- 2 ^ 31 * 180) < 2 ^ 53 /\
  exists x, degrees (VInt (- 2 ^ 31)) = Ok x /\
            exact_quotient x (- 2 ^ 31 * 180) 31.
Proof.
  split; [reflexivity|]. apply (degrees_exact (- 2 ^ 31)). reflexivity.
Defined.

(** ** The track follows the records *)

Lemma trackpoint_position format_float epoch_isoformat (r : gmap Z value) :
  has_position r = true ->
  trackpoint format_float epoch_isoformat r <> Ok None.
Proof.
  unfold has_position. intros Hpos.
  destruct (r !! 0) as [v0|] eqn:H0; [|discriminate].
  destruct (r !! 1) as [v1|] eqn:H1; [|discriminate].
  rewrite (trackpoint_present _ _ _ _ _ H0 H1).
  destruct (degrees v0); [|discriminate]. destruct (degrees v1); [|discriminate].
  cbn [rbind].
  destruct (r !! 2) as [v2|].
  - destruct (meters v2); [|discriminate]. cbn [rbind].
    destruct (r !! 253) as [t|]; [|discriminate].
    destruct (epoch_isoformat t); discriminate.
  - cbn [rbind]. destruct (r !! 253) as [t|]; [|discriminate].
    destruct (epoch_isoformat t); discriminate.
Qed.

Lemma has_position_false (r : gmap Z value) :
  has_position r = false -> r !! 0 = None \/ r !! 1 = None.
Proof.
  unfold has_position. destruct (r !! 0); [|now left].
  destruct (r !! 1); [discriminate | now right].
Qed.

(** X11: the track follows the records.  When [records_to_gpx] raises
    nothing, the track segment has one point for each record that holds
    both field 0 and field 1, in the order of the records; the other
    records leave nothing in the track. *)
Theorem track_follows_records format_float epoch_isoformat rs pts :
  records_to_gpx format_float epoch_isoformat rs = Ok pts ->
  Forall2 (fun r p => trackpoint format_float epoch_isoformat r = Ok (Some p))
    (List.filter has_position rs) pts.
Proof.
  revert pts. induction rs as [|r rs IH]; intros pts H.
  - injection H as <-. constructor.
  - cbn [List.filter]. destruct (has_position r) eqn:Hpos.
    + cbn [records_to_gpx] in H.
      pose proof (trackpoint_position format_float epoch_isoformat r Hpos) as Hne.
      destruct (trackpoint format_float epoch_isoformat r) as [[p|]|e] eqn:Hr;
        [|congruence|discriminate].
      cbn [rbind] in H.
      destruct (records_to_gpx format_float epoch_isoformat rs) as [ps|e];
        [|discriminate].
      injection H as <-. constructor; [assumption | now apply IH].
    + rewrite records_to_gpx_dropped in H by now apply has_position_false.
      now apply IH.
Qed.

Lemma track_follows_records_witness :
  records_to_gpx (fun _ _ => []) (fun _ => Ok [])
    [ {[ 2 := VInt 5 ]}; {[ 0 := VInt 0; 1 := VInt 0 ]} ]
  = Ok [ mkTrkpt [] [] None None ] /\
  Forall2 (fun r p => trackpoint (fun _ _ => []) (fun _ => Ok []) r = Ok (Some p))
    (List.filter has_position
       [ ({[ 2 := VInt 5 ]} : gmap Z value); {[ 0 := VInt 0; 1 := VInt 0 ]} ])
    [ mkTrkpt [] [] None None ].
Proof.
  assert (H : records_to_gpx (fun _ _ => []) (fun _ => Ok [])
                [ {[ 2 := VInt 5 ]}; {[ 0 := VInt 0; 1 := VInt 0 ]} ]
              = Ok [ mkTrkpt [] [] None None ]) by reflexivity.
  split; [exact H|]. exact (track_follows_records _ _ _ _ H).
Defined.

(** ** Bytes after the last message *)

Lemma slice_app (d extra : list byte) lo size :
  0 <= lo -> 0 <= size -> lo + size <= len d ->
  slice (d ++ extra) lo size = slice d lo size.
Proof.
  unfold slice, len. intros Hlo Hsize Hle.
  rewrite drop_app_le by lia. apply take_app_le. rewrite length_drop. lia.
Qed.

Lemma buffer_local_ret {A} (a : A) : buffer_local (ret a).
Proof.
  intros st b st' Hwf [= <- <-]. repeat split; try apply Hwf. lia.
Qed.

Lemma buffer_local_lift {A} (r : result A) : buffer_local (lift r).
Proof.
  intros st a st' Hwf H. apply lift_Ok_inv in H as [-> ->].
  repeat split; try apply Hwf. lia.
Qed.

Lemma buffer_local_bind {A B} (m : M A) (k : A -> M B) :
  buffer_local m -> (forall a, buffer_local (k a)) -> buffer_local (bind m k).
Proof.
  intros Hm Hk st b st2 Hwf H. inv_bind H as a st1 E.
  destruct (Hm _ _ _ Hwf E) as (Hwf1 & Hd1 & Hp1 & Hx1).
  destruct (Hk a _ _ _ Hwf1 H) as (Hwf2 & Hd2 & Hp2 & Hx2).
  split; [assumption|]. split; [congruence|]. split; [lia|].
  intros extra Hle. unfold bind. rewrite Hx1 by lia.
  apply Hx2. rewrite Hd1. assumption.
Qed.

(** Reading a field of the parser other than the buffer. *)
Lemma buffer_local_gets {A} (f : FitParser -> A) :
  (forall extra st, f (extend extra st) = f st) -> buffer_local (gets f).
Proof.
  intros Hf st a st' Hwf [= <- <-]. repeat split; try apply Hwf; [lia|].
  intros extra _. unfold gets. now rewrite Hf.
Qed.

(** Updating the remembered timestamp. *)
Lemma buffer_local_modify (f : FitParser -> FitParser) :
  (forall st, data (f st) = data st /\ pos (f st) = pos st /\
              defs (f st) = defs st) ->
  (forall extra st, f (extend extra st) = extend extra (f st)) ->
  buffer_local (modify f).
Proof.
  intros Hkeep Hf st a st' Hwf [= <- <-].
  destruct (Hkeep st) as (Hd & Hp & Hdm). destruct Hwf as [Hpos Hsz].
  split; [split; [lia | now rewrite Hdm]|]. split; [assumption|].
  split; [lia|]. intros extra _. unfold modify. now rewrite Hf.
Qed.

Lemma buffer_local_read size : 0 <= size -> buffer_local (read size).
Proof.
  intros Hsize st a st' [Hpos Hsz] [= <- <-]. cbn [set_pos pos data defs].
  split; [split; [cbn [set_pos pos]; lia | assumption]|].
  split; [reflexivity|]. split; [lia|].
  intros extra Hle. unfold read, extend. cbn [data pos].
  rewrite slice_app by lia. reflexivity.
Qed.

Lemma buffer_local_read_byte : buffer_local read_byte.
Proof.
  apply buffer_local_bind; [apply buffer_local_read; lia|].
  intros b. apply buffer_local_lift.
Qed.

Lemma buffer_local_read_fields n : buffer_local (read_fields n).
Proof.
  induction n as [|n IH]; cbn [read_fields]; [apply buffer_local_ret|].
  repeat (apply buffer_local_bind; [apply buffer_local_read_byte | intros ?]).
  apply buffer_local_bind; [exact IH|]. intros rest. apply buffer_local_ret.
Qed.

Lemma buffer_local_read_definition : buffer_local read_definition.
Proof.
  unfold read_definition.
  apply buffer_local_bind; [apply buffer_local_read; lia | intros _].
  apply buffer_local_bind; [apply buffer_local_read_byte | intros arch].
  cbv zeta.
  apply buffer_local_bind; [apply buffer_local_read; lia | intros raw].
  apply buffer_local_bind; [apply buffer_local_lift | intros global_msg].
  apply buffer_local_bind; [apply buffer_local_read_byte | intros num_fields].
  apply buffer_local_bind; [apply buffer_local_read_fields | intros fields].
  apply buffer_local_ret.
Qed.

Lemma buffer_local_decode_fields endian fds fields :
  Forall (fun fd => 0 <= field_size fd) fds ->
  buffer_local (decode_fields endian fds fields).
Proof.
  intros Hfds. revert fields.
  induction Hfds as [|[[fid size] bt] fds Hsize Hfds IH]; intros fields;
    cbn [decode_fields]; [apply buffer_local_ret|].
  apply buffer_local_bind; [apply buffer_local_read; exact Hsize | intros raw].
  apply buffer_local_bind; [apply buffer_local_lift | intros v]. apply IH.
Qed.

Lemma buffer_local_parse_data_message local_msg :
  buffer_local (parse_data_message local_msg).
Proof.
  intros st a st' Hwf H. unfold parse_data_message in *. cbn [extend defs].
  destruct (defs st !! local_msg) as [d|] eqn:Hd; [|discriminate].
  destruct Hwf as [Hpos Hsz].
  exact (buffer_local_decode_fields _ _ _ (Hsz _ _ Hd) _ _ _ (conj Hpos Hsz) H).
Qed.

Lemma buffer_local_forward local_msg fields records :
  buffer_local (forward local_msg fields records).
Proof.
  intros st a st' Hwf [= <- <-].
  split; [assumption|]. split; [reflexivity|]. split; [lia|].
  intros extra _. reflexivity.
Qed.

Lemma buffer_local_set_last_timestamp t :
  buffer_local (modify (set_last_timestamp t)).
Proof.
  apply buffer_local_modify.
  - intros st. repeat split.
  - reflexivity.
Qed.

Lemma buffer_local_compressed_message header records :
  buffer_local (compressed_message header records).
Proof.
  unfold compressed_message. cbv zeta.
  apply buffer_local_bind; [|intros _].
  { apply buffer_local_modify.
    - intros st. destruct (last_timestamp st); repeat split.
    - intros extra [d p dm [t|]]; reflexivity. }
  apply buffer_local_bind; [now apply buffer_local_gets | intros last].
  apply buffer_local_bind; [apply buffer_local_lift | intros ts].
  apply buffer_local_bind; [apply buffer_local_set_last_timestamp | intros _].
  apply buffer_local_bind; [apply buffer_local_parse_data_message | intros fields].
  apply buffer_local_forward.
Qed.

Lemma buffer_local_parse_message records : buffer_local (parse_message records).
Proof.
  intros st a st' Hwf H.
  destruct (parse_message_progress _ _ _ _ Hwf H) as (Hwf' & Hdata & Hpos & Hin).
  split; [assumption|]. split; [assumption|]. split; [lia|].
  intros extra Hle. rewrite parse_message_unfold in H |- *.
  destruct (read_byte st) as [[header st1]|e] eqn:Hrd; [|discriminate].
  destruct (buffer_local_read_byte _ _ _ Hwf Hrd) as (Hwf1 & Hd1 & Hp1 & Hx1).
  apply read_byte_Ok in Hrd as (Hst1 & _ & _).
  rewrite Hx1 by (rewrite Hst1; cbn [set_pos pos]; lia).
  destruct (negb (Z.land header 0x80 =? 0)).
  - apply (buffer_local_compressed_message _ _ _ _ _ Hwf1 H). now rewrite Hd1.
  - destruct (Z.eq_dec (Z.land header 0x40) 0) as [Hdef | Hdef].
    + assert (Hloc : buffer_local (normal_message header records)).
      { unfold normal_message. cbv zeta. rewrite Hdef.
        change (negb (0 =? 0)) with false. cbv iota.
        apply buffer_local_bind;
          [apply buffer_local_parse_data_message | intros fields].
        apply buffer_local_bind; [now apply buffer_local_gets | intros last].
        apply buffer_local_bind; [|intros fields'; apply buffer_local_forward].
        destruct (fields !! 253) as [t|]; [|destruct last as [t|]];
          try apply buffer_local_ret.
        apply buffer_local_bind;
          [apply buffer_local_set_last_timestamp | intros _; apply buffer_local_ret]. }
      apply (Hloc _ _ _ Hwf1 H). now rewrite Hd1.
    + rewrite (normal_message_definition _ _ _ Hdef) in H.
      rewrite (normal_message_definition _ _ _ Hdef).
      destruct (read_definition st1) as [[d st2]|e] eqn:Hdf; [|discriminate].
      destruct (buffer_local_read_definition _ _ _ Hwf1 Hdf) as (_ & _ & _ & Hx2).
      injection H as <- <-. cbn [set_defs pos] in Hle.
      rewrite Hx2 by now rewrite Hd1. reflexivity.
Qed.

Lemma parse_loop_more_fuel fuel fuel' end_ records st r :
  parse_loop fuel end_ records st = Some r -> (fuel <= fuel')%nat ->
  parse_loop fuel' end_ records st = Some r.
Proof.
  revert fuel' records st. induction fuel as [|fuel IH];
    intros fuel' records st H Hle.
  - simpl in H. destruct fuel'; simpl; destruct (pos st <? end_);
      try discriminate; assumption.
  - destruct fuel' as [|fuel']; [lia|]. simpl in H |- *.
    destruct (pos st <? end_); [|assumption].
    destruct (parse_message records st) as [[records' st1]|e]; [|assumption].
    apply IH; [assumption | lia].
Qed.

Lemma parse_loop_extend extra end_ fuel records st rs :
  wf st ->
  (forall st', reaches st st' -> pos st' < end_ ->
     forall records0 records1 st'',
       parse_message records0 st' = Ok (records1, st'') ->
       pos st'' <= len (data st)) ->
  parse_loop fuel end_ records st = Some (Ok rs) ->
  parse_loop fuel end_ records (extend extra st) = Some (Ok rs).
Proof.
  revert records st. induction fuel as [|fuel IH]; intros records st Hwf Hin H;
    simpl in H |- *.
  - destruct (pos st <? end_); [discriminate | assumption].
  - destruct (Z.ltb_spec (pos st) end_) as [Hlt|]; [|assumption].
    destruct (parse_message records st) as [[records' st1]|e] eqn:Hstep;
      [|discriminate].
    destruct (buffer_local_parse_message _ _ _ _ Hwf Hstep)
      as (Hwf1 & Hd1 & _ & Hx).
    rewrite Hx by exact (Hin st (reaches_here st) Hlt _ _ _ Hstep).
    apply IH; [assumption | | assumption].
    intros st' Hreach. rewrite Hd1. apply Hin.
    exact (reaches_next _ _ _ _ _ Hstep Hreach).
Qed.

(** X12: nothing after the last message is read.  When no message of the
    pass over [d] runs past the end of [d], a pass that returns records
    returns the same records over [d] followed by any other bytes: a
    trailer such as the checksum of the file has no influence. *)
Theorem trailing_bytes_ignored d extra rs :
  within_buffer d ->
  parse (init d) = Some (Ok rs) ->
  parse (init (d ++ extra)) = Some (Ok rs).
Proof.
  intros Hin H. unfold parse in *. cbn [init data] in *.
  destruct d as [|c d']; [discriminate|]. cbn [item0 app] in *.
  destruct (unpack_from_I (c :: d') 4) as [data_size|e] eqn:Hsz; [|discriminate].
  assert (Hsz' : unpack_from_I (c :: d' ++ extra) 4 = Ok data_size).
  { unfold unpack_from_I in *.
    destruct (Z.ltb_spec (len (c :: d') - 4) 4) as [|Hge]; [discriminate|].
    change (c :: d' ++ extra) with ((c :: d') ++ extra).
    assert (Hlen : len ((c :: d') ++ extra) = len (c :: d') + len extra)
      by (unfold len; rewrite length_app; lia).
    pose proof (len_nonneg extra).
    destruct (Z.ltb_spec (len ((c :: d') ++ extra) - 4) 4); [lia|].
    rewrite slice_app by lia. assumption. }
  rewrite Hsz'.
  change (set_pos (byte_val c) (init (c :: d' ++ extra)))
    with (extend extra (set_pos (byte_val c) (init (c :: d')))).
  apply parse_loop_more_fuel with (fuel := S (length (c :: d')));
    [|cbn [length]; rewrite length_app; lia].
  apply parse_loop_extend; [| |assumption].
  - split; [cbn [set_pos pos]; apply byte_val_range | apply sizes_ok_empty].
  - intros st' Hreach Hlt records0 records1 st'' Hstep.
    exact (Hin _ _ _ _ _ _ eq_refl Hsz Hreach Hlt Hstep).
Qed.

Lemma trailing_bytes_ignored_witness :
  within_buffer non_record_stream /\
  parse (init non_record_stream) = Some (Ok []) /\
  parse (init (non_record_stream ++ [xff; xff])) = Some (Ok []).
Proof.
  assert (Hin : within_buffer non_record_stream).
  { intros header_size data_size st' records records' st'' Hh Hd Hreach Hlt Hstep.
    injection Hh as <-. vm_compute in Hd. injection Hd as <-.
    inversion Hreach as [|? records0 records1 st1 ? Hstep1 Hreach1]; subst.
    { vm_compute in Hstep. injection Hstep as _ <-. vm_compute. discriminate. }
    vm_compute in Hstep1. injection Hstep1 as _ <-.
    inversion Hreach1 as [|? records2 records3 st2 ? Hstep2 Hreach2]; subst.
    { vm_compute in Hstep. injection Hstep as _ <-. vm_compute. discriminate. }
    vm_compute in Hstep2. injection Hstep2 as _ <-.
    inversion Hreach2 as [|? records4 records5 st3 ? Hstep3 Hreach3]; subst.
    { vm_compute in Hstep. discriminate Hstep. }
    vm_compute in Hstep3. discriminate Hstep3. }
  assert (H : parse (init non_record_stream) = Some (Ok [])) by reflexivity.
  split; [exact Hin|]. split; [exact H|].
  exact (trailing_bytes_ignored _ [xff; xff] _ Hin H).
Defined.

(** ** A position record, from the bytes to the track *)

Lemma degrees_int32 bs :
  len bs = 4 ->
  exists x, degrees (VInt (signed_of LittleEndian bs)) = Ok x /\
            exact_quotient x (signed_of LittleEndian bs * 180) 31.
Proof.
  intros Hlen. pose proof (signed_of_range LittleEndian bs ltac:(lia)) as Hr.
  rewrite Hlen in Hr. change (2 ^ (8 * 4 - 1)) with 2147483648 in Hr.
  assert (H53 : 2 ^ 53 = 9007199254740992) by reflexivity.
  assert (H64 : 2 ^ 64 = 18446744073709551616) by reflexivity.
  rewrite degrees_int by lia.
  eexists. split; [reflexivity|]. apply int_quotient_exact. lia.
Qed.

(** X2: a position record from the bytes to the track.  A stream with one
    definition message (slot 0, global number 20, latitude and longitude as
    little-endian [sint32], timestamp as [uint32]) and one data message of
    12 bytes decodes to one record with the three decoded integers, and
    the script renders one point whose latitude and longitude are exactly
    [value * 180 / 2^31], without elevation, with the time of the
    timestamp. *)
Theorem position_record_end_to_end format_float epoch_isoformat payload :
  length payload = 12%nat ->
  parse (init (position_stream payload))
  = Some (Ok [ {[ 0 := VInt (signed_of LittleEndian (take 4 payload));
                  1 := VInt (signed_of LittleEndian (take 4 (drop 4 payload)));
                  253 := VInt (unsigned_of LittleEndian (drop 8 payload)) ]} ]) /\
  exists x y,
    exact_quotient x (signed_of LittleEndian (take 4 payload) * 180) 31 /\
    exact_quotient y
      (signed_of LittleEndian (take 4 (drop 4 payload)) * 180) 31 /\
    main format_float epoch_isoformat (position_stream payload)
    = Some (rbind (epoch_isoformat
                     (VInt (unsigned_of LittleEndian (drop 8 payload))))
              (fun s => Ok [ mkTrkpt (format_float 6 x) (format_float 6 y)
                               None (Some s) ])).
Proof.
  intros Hlen.
  do 12 (destruct payload as [|? payload]; [discriminate|]).
  destruct payload; [clear Hlen | discriminate].
  cbn [take drop].
  match goal with
  | |- ?P = Some (Ok [?r]) /\ _ =>
    assert (Hparse : P = Some (Ok [r])) by reflexivity;
    assert (H0 : r !! 0 = Some (VInt (signed_of LittleEndian [b; b0; b1; b2])))
      by reflexivity;
    assert (H1 : r !! 1 = Some (VInt (signed_of LittleEndian [b3; b4; b5; b6])))
      by reflexivity;
    assert (H2 : r !! 2 = None) by reflexivity;
    assert (H253 : r !! 253
                   = Some (VInt (unsigned_of LittleEndian [b7; b8; b9; b10])))
      by reflexivity
  end.
  split; [exact Hparse|].
  destruct (degrees_int32 [b; b0; b1; b2] eq_refl) as (x & Hx & Hex).
  destruct (degrees_int32 [b3; b4; b5; b6] eq_refl) as (y & Hy & Hey).
  exists x, y. split; [exact Hex|]. split; [exact Hey|].
  unfold main. rewrite Hparse. cbn [records_to_gpx].
  rewrite (trackpoint_present _ _ _ _ _ H0 H1), Hx, Hy, H2, H253.
  cbn [rbind]. now destruct (epoch_isoformat _).
Qed.

Lemma position_record_end_to_end_witness :
  length [x00; x00; x00; x40; x00; x00; x00; x80; x01; x00; x00; x00] = 12%nat /\
  parse (init (position_stream
                 [x00; x00; x00; x40; x00; x00; x00; x80; x01; x00; x00; x00]))
  = Some (Ok [ {[ 0 := VInt (2 ^ 30); 1 := VInt (- 2 ^ 31); 253 := VInt 1 ]} ]).
Proof.
  split; [reflexivity|].
  exact (proj1 (position_record_end_to_end (fun _ _ => []) (fun _ => Ok [])
                  [x00; x00; x00; x40; x00; x00; x00; x80; x01; x00; x00; x00]
                  eq_refl)).
Defined.

(** ** What a data message decodes *)

Lemma field_slice_cons st fid size bt fds (i : nat) size' :
  field_slice st ((fid, size, bt) :: fds) (S i) size'
  = field_slice (set_pos (pos st + size) st) fds i size'.
Proof.
  unfold field_slice. cbn [take set_pos data pos]. rewrite fields_size_cons.
  unfold field_size. cbn [fst snd]. f_equal. lia.
Qed.

Lemma field_slice_0 st fds size :
  field_slice st fds 0 size = slice (data st) (pos st) size.
Proof.
  unfold field_slice. change (fields_size (take 0 fds)) with 0.
  now rewrite Z.add_0_r.
Qed.

(** When the loop over the fields returns, the decoder accepted every
    slice. *)
Lemma decode_fields_accepts endian fds fields0 st fields st' (i : nat)
    fid size bt :
  decode_fields endian fds fields0 st = Ok (fields, st') ->
  fds !! i = Some (fid, size, bt) ->
  exists v, parse_value (field_slice st fds i size) bt endian = Ok v.
Proof.
  revert fields0 st i. induction fds as [|[[fid0 size0] bt0] fds IH];
    intros fields0 st i H Hi; [discriminate|].
  cbn [decode_fields] in H. inv_bind H as raw s1 E1. injection E1 as <- <-.
  inv_bind H as v s2 E2. apply lift_Ok_inv in E2 as [Hv ->].
  destruct i as [|i].
  - injection Hi as -> -> ->. exists v. now rewrite field_slice_0.
  - rewrite field_slice_cons. exact (IH _ _ i H Hi).
Qed.

(** When it raises, the decoder raised on the slice of a field, having
    accepted the slices before it. *)
Lemma decode_fields_rejects endian fds fields0 st e :
  decode_fields endian fds fields0 st = Err e ->
  exists (i : nat) fid size bt,
    fds !! i = Some (fid, size, bt) /\
    parse_value (field_slice st fds i size) bt endian = Err e /\
    forall (j : nat) fid' size' bt',
      (j < i)%nat -> fds !! j = Some (fid', size', bt') ->
      exists v, parse_value (field_slice st fds j size') bt' endian = Ok v.
Proof.
  revert fields0 st. induction fds as [|[[fid0 size0] bt0] fds IH];
    intros fields0 st H; [discriminate|].
  cbn [decode_fields] in H.
  apply bind_Err_inv in H as [H | (raw & s1 & E1 & H)]; [discriminate|].
  injection E1 as <- <-.
  apply bind_Err_inv in H as [H | (v & s2 & E2 & H)].
  - apply lift_Err_inv in H. exists 0%nat, fid0, size0, bt0.
    split; [reflexivity|]. split; [now rewrite field_slice_0|].
    intros j fid' size' bt' Hj. lia.
  - apply lift_Ok_inv in E2 as [Hv ->].
    destruct (IH _ _ H) as (i & fid & size & bt & Hi & He & Hbefore).
    exists (S i), fid, size, bt. split; [exact Hi|].
    split; [now rewrite field_slice_cons|].
    intros [|j] fid' size' bt' Hj Hfd.
    + injection Hfd as <- <- <-. exists v. now rewrite field_slice_0.
    + rewrite field_slice_cons. apply (Hbefore j fid'); [lia | exact Hfd].
Qed.

(** [parse_data_message] with the definition [d] in its slot: the record
    that [d] prescribes and the cursor after the declared sizes, or the
    exception of the decoder on the slice of a field of [d]. *)
Lemma parse_data_message_spec local_msg st d :
  defs st !! local_msg = Some d ->
  match parse_data_message local_msg st with
  | Ok (fields, st') =>
    decoded_with d st fields /\
    st' = set_pos (pos st + fields_size (d_fields d)) st
  | Err e => rejected_with d st e
  end.
Proof.
  intros Hd. rewrite (parse_data_message_defined _ _ _ Hd).
  destruct (decode_fields (d_endian d) (d_fields d) ∅ st)
    as [[fields st']|e] eqn:H.
  - split; [split|].
    + intros k. rewrite (decode_fields_keys _ _ _ _ _ _ k H).
      rewrite lookup_empty. split; [intros [Hin | [v Hv]] | auto];
        [assumption | discriminate].
    + intros i fid size bt Hi.
      destruct (decode_fields_accepts _ _ _ _ _ _ _ _ _ _ H Hi) as [v Hv].
      exists v. split; [exact Hv|]. intros Hlast.
      destruct (decode_fields_lookup _ _ _ _ _ _ _ _ _ _ H Hi Hlast)
        as (w & Hw & Hlook).
      unfold field_slice in Hv. congruence.
    + pose proof (cursor_only_decode_fields (d_endian d) (d_fields d) ∅ st) as Hc.
      rewrite H in Hc. destruct Hc as [Hst _].
      apply decode_fields_pos_exact in H as [Hp _]. now rewrite Hst, Hp.
  - exact (decode_fields_rejects _ _ _ _ _ H).
Qed.

(** A normal data message for a slot that holds [d]: the record that [d]
    prescribes for the bytes after the header byte, or the exception of the
    decoder on the slice of a field of [d]. *)
Lemma data_message_decodes records st header st1 d :
  read_byte st = Ok (header, st1) ->
  Z.land header 0x80 = 0 -> Z.land header 0x40 = 0 ->
  defs st !! Z.land header 0x0F = Some d ->
  match parse_message records st with
  | Ok (records', st') =>
    exists fields,
      decoded_with d st1 fields /\
      pos st' = pos st + 1 + fields_size (d_fields d) /\
      data st' = data st /\ defs st' = defs st /\
      last_timestamp st' = next_timestamp fields (last_timestamp st) /\
      records' = if d_global d =? 20
                 then records ++ [inherit_timestamp fields (last_timestamp st)]
                 else records
  | Err e => rejected_with d st1 e
  end.
Proof.
  intros Hrd H80 H40 Hd. rewrite (data_step records _ _ _ _ Hrd H80 H40 Hd).
  apply read_byte_Ok in Hrd as (Hst1 & _).
  assert (Hd1 : defs st1 !! Z.land header 0x0F = Some d) by now rewrite Hst1.
  pose proof (parse_data_message_spec _ _ _ Hd1) as Hspec.
  rewrite (parse_data_message_defined _ _ _ Hd1) in Hspec.
  destruct (decode_fields (d_endian d) (d_fields d) ∅ st1)
    as [[fields st2]|e]; [|exact Hspec].
  destruct Hspec as [Hdec ->]. exists fields. subst st1.
  cbn [set_last_timestamp set_pos pos data defs last_timestamp].
  split; [exact Hdec|]. repeat split; reflexivity.
Qed.

(** A compressed timestamp message for a slot that holds [d]: the same,
    unless the timestamp arithmetic raises first. *)
Lemma compressed_message_decodes records st header st1 d :
  read_byte st = Ok (header, st1) ->
  Z.land header 0x80 <> 0 ->
  defs st !! Z.land (Z.shiftr header 5) 0x3 = Some d ->
  match parse_message records st with
  | Ok (records', st') =>
    exists T fields,
      default (VInt 0) (last_timestamp st) = VInt T /\
      decoded_with d st1 fields /\
      pos st' = pos st + 1 + fields_size (d_fields d) /\
      data st' = data st /\ defs st' = defs st /\
      last_timestamp st'
      = Some (VInt (reconstructed T (Z.land header 0x1F))) /\
      records' = if d_global d =? 20
                 then records
                      ++ [<[253 := VInt (reconstructed T (Z.land header 0x1F))]>
                            fields]
                 else records
  | Err e =>
    (e = TypeError /\
     exists v, last_timestamp st = Some v /\ forall T, v <> VInt T) \/
    rejected_with d st1 e
  end.
Proof.
  intros Hrd H80 Hd.
  assert (Hcases : (exists T, default (VInt 0) (last_timestamp st) = VInt T) \/
                   exists v, last_timestamp st = Some v /\ forall T, v <> VInt T).
  { destruct (last_timestamp st) as [[n|x|t|b|items]|];
      [left; now exists n | right .. | left; now exists 0];
      eexists; (split; [reflexivity | discriminate]). }
  destruct Hcases as [[T HT] | (v & Hv & Hnot)].
  - rewrite (compressed_data_step records _ _ _ _ _ Hrd H80 Hd HT).
    apply read_byte_Ok in Hrd as (Hst1 & _).
    set (ts := reconstructed T (Z.land header 0x1F)).
    set (st1' := set_last_timestamp (Some (VInt ts)) st1).
    assert (Hd1 : defs st1' !! Z.land (Z.shiftr header 5) 0x3 = Some d)
      by (unfold st1'; rewrite Hst1; exact Hd).
    pose proof (parse_data_message_spec _ _ _ Hd1) as Hspec.
    rewrite (parse_data_message_defined _ _ _ Hd1) in Hspec.
    destruct (decode_fields (d_endian d) (d_fields d) ∅ st1')
      as [[fields st2]|e]; [|right; exact Hspec].
    destruct Hspec as [Hdec ->]. exists T, fields. subst st1' st1.
    cbn [set_last_timestamp set_pos pos data defs last_timestamp].
    split; [exact HT|]. split; [exact Hdec|].
    repeat split; reflexivity.
  - rewrite parse_message_unfold, Hrd.
    apply Z.eqb_neq in H80. rewrite H80. change (negb false) with true.
    cbv iota. apply read_byte_Ok in Hrd as (Hst1 & _).
    rewrite (compressed_message_TypeError header records st1 v);
      [left; eauto | now rewrite Hst1 | exact Hnot].
Qed.

(** ** Short reads *)

(** A normal data message fails exactly when its field loop does. *)
Lemma data_message_Err_iff records st header st1 e :
  read_byte st = Ok (header, st1) ->
  Z.land header 0x80 = 0 -> Z.land header 0x40 = 0 ->
  (parse_message records st = Err e <->
   parse_data_message (Z.land header 0x0F) st1 = Err e).
Proof.
  intros Hrd H80 H40. rewrite parse_message_unfold, Hrd, H80.
  change (negb (0 =? 0)) with false. cbv iota.
  destruct (parse_data_message (Z.land header 0x0F) st1)
    as [[fields st2]|e'] eqn:Hp.
  - rewrite (normal_message_data _ _ _ _ _ H40 Hp). split; discriminate.
  - rewrite (normal_message_data_Err _ _ _ _ H40 Hp).
    split; intros [= ->]; reflexivity.
Qed.

(** The decoder on a kind other than the string kind 7. *)
Lemma parse_value_numeric raw base_type endian :
  Z.land base_type 0x1F <> 7 ->
  match base_formats (Z.land base_type 0x1F) with
  | None => parse_value raw base_type endian = Ok (VBytes raw)
  | Some f =>
    (len raw mod calcsize f <> 0 ->
     parse_value raw base_type endian = Err StructError) /\
    (len raw mod calcsize f = 0 ->
     exists v, parse_value raw base_type endian = Ok v /\
       (len raw = calcsize f \/
        exists items, v = VTuple items /\ len items = len raw / calcsize f))
  end.
Proof.
  intros Hkind.
  assert (Hne : (base_type =? 7) = false).
  { apply Z.eqb_neq. intros ->. now apply Hkind. }
  destruct (base_formats (Z.land base_type 0x1F)) as [f|] eqn:Hf.
  - rewrite (parse_value_known raw _ endian _ Hf Hne).
    pose proof (calcsize_pos f) as Hw. split; intros Hm.
    + apply Z.eqb_neq in Hm. now rewrite Hm.
    + rewrite Hm. change (0 =? 0) with true. cbv iota.
      destruct (Z.eqb_spec (len raw / calcsize f) 1) as [H1 | H1].
      * eexists. split; [reflexivity|]. left.
        apply exact_multiple in Hm; [|assumption]. rewrite H1 in Hm. lia.
      * eexists. split; [reflexivity|]. right. eexists. split; [reflexivity|].
        unfold len at 1. rewrite unpack_items_length.
        apply Z2Nat.id, Z.div_pos; [apply len_nonneg | lia].
  - unfold parse_value. cbv zeta. now rewrite Hf.
Qed.

(** C1, as the code has it.  The cursor checks nothing: [read] returns the
    bytes that exist and never raises.  A short read ends the pass where its
    result is indexed or unpacked at a fixed width: the file header
    ([IndexError] on an empty buffer, [struct.error] below 8 bytes), the
    record header byte ([IndexError]), and the bytes of a definition message
    ([IndexError] or [struct.error]; a definition that parses read only
    bytes that exist).  The slice of a field of a data message goes to the
    field/type decoder as it is, short or empty: the message gives the
    record its definition prescribes for these slices, or fails with the
    exception the decoder raises on one of them, and a normal data message
    fails in no other way.  On a kind other than the string kind 7 the
    decoder raises exactly when the kind is recognized and the length of
    the slice is no multiple of the scalar width, and then [struct.error];
    otherwise it returns the short value: the items that fit, none for an
    empty slice, or the bytes themselves for an unrecognized kind.  An
    exception ends the loop at once with no record list, and the script
    then writes nothing. *)
Theorem C1_short_reads :
  (forall size st,
     read size st
     = Ok (slice (data st) (pos st) size, set_pos (pos st + size) st) /\
     (0 <= pos st -> 0 <= size ->
      len (slice (data st) (pos st) size)
      = Z.min size (Z.max 0 (len (data st) - pos st)))) /\
  (forall st,
     len (data st) < 8 ->
     parse st
     = Some (Err (if len (data st) =? 0 then IndexError else StructError))) /\
  (forall records st,
     0 <= pos st -> len (data st) <= pos st ->
     parse_message records st = Err IndexError) /\
  (forall local_msg st,
     0 <= pos st ->
     match parse_definition local_msg st with
     | Ok (_, st') => pos st' <= len (data st)
     | Err e => e = IndexError \/ e = StructError
     end) /\
  (forall local_msg st d,
     defs st !! local_msg = Some d ->
     match parse_data_message local_msg st with
     | Ok (fields, st') =>
       decoded_with d st fields /\
       st' = set_pos (pos st + fields_size (d_fields d)) st
     | Err e => rejected_with d st e
     end) /\
  (forall records st header st1 e,
     read_byte st = Ok (header, st1) ->
     Z.land header 0x80 = 0 -> Z.land header 0x40 = 0 ->
     (parse_message records st = Err e <->
      parse_data_message (Z.land header 0x0F) st1 = Err e)) /\
  (forall raw base_type endian,
     Z.land base_type 0x1F <> 7 ->
     match base_formats (Z.land base_type 0x1F) with
     | None => parse_value raw base_type endian = Ok (VBytes raw)
     | Some f =>
       (len raw mod calcsize f <> 0 ->
        parse_value raw base_type endian = Err StructError) /\
       (len raw mod calcsize f = 0 ->
        exists v, parse_value raw base_type endian = Ok v /\
          (len raw = calcsize f \/
           exists items, v = VTuple items /\
             len items = len raw / calcsize f))
     end) /\
  (forall fuel end_ records st e,
     pos st < end_ -> parse_message records st = Err e ->
     parse_loop (S fuel) end_ records st = Some (Err e)) /\
  (forall format_float epoch_isoformat d e,
     parse (init d) = Some (Err e) ->
     main format_float epoch_isoformat d = Some (Err e)).
Proof.
  split.
  { intros size st. split; [apply read_never_raises | apply slice_length]. }
  split; [exact parse_short_header|].
  split; [exact parse_message_no_header|].
  split; [exact parse_definition_in_buffer|].
  split; [exact parse_data_message_spec|].
  split; [exact data_message_Err_iff|].
  split; [exact parse_value_numeric|].
  split; [exact parse_loop_Err|].
  intros ff ei d e H. unfold main. now rewrite H.
Qed.

Lemma C1_short_reads_witness :
  parse (init []) = Some (Err IndexError) /\
  parse (init [x0c; x00; x00; x00; x00]) = Some (Err StructError) /\
  parse_message [] (mkFitParser [x00] 1 ∅ None) = Err IndexError /\
  parse_value [x01; x02; x03] 0x84 LittleEndian = Err StructError /\
  rejected_with (mkDefinition 20 [(0, 4, 0x84)] LittleEndian)
    (mkFitParser [x01; x02; x03] 0
       {[ 0 := mkDefinition 20 [(0, 4, 0x84)] LittleEndian ]} None)
    StructError.
Proof.
  destruct C1_short_reads
    as (_ & Hheader & Hbyte & _ & Hfields & _ & Hvalue & _).
  split; [apply (Hheader (init [])); reflexivity|].
  split; [apply (Hheader (init [x0c; x00; x00; x00; x00])); reflexivity|].
  split; [apply Hbyte; simpl; unfold len; simpl; lia|].
  split.
  - apply (Hvalue [x01; x02; x03] 0x84 LittleEndian); discriminate.
  - exact (Hfields 0
             (mkFitParser [x01; x02; x03] 0
                {[ 0 := mkDefinition 20 [(0, 4, 0x84)] LittleEndian ]} None)
             (mkDefinition 20 [(0, 4, 0x84)] LittleEndian) eq_refl).
Defined.

(** The field read of that data message asks for 4 bytes where none is
    left; it returns the empty slice, the decoder turns it into the empty
    tuple, and the pass ends normally with one record. *)
Lemma C1_counterexample :
  len truncated_stream = 22 /\
  parse_message [] (set_pos 12 (init truncated_stream))
  = Ok ([], mkFitParser truncated_stream 21 truncated_defs None) /\
  read_byte (mkFitParser truncated_stream 21 truncated_defs None)
  = Ok (0, mkFitParser truncated_stream 22 truncated_defs None) /\
  read 4 (mkFitParser truncated_stream 22 truncated_defs None)
  = Ok ([], mkFitParser truncated_stream 26 truncated_defs None) /\
  parse_message [] (mkFitParser truncated_stream 21 truncated_defs None)
  = Ok ([ {[ 0 := VTuple [] ]} ],
        mkFitParser truncated_stream 26 truncated_defs None) /\
  parse (init truncated_stream) = Some (Ok [ {[ 0 := VTuple [] ]} ]) /\
  main (fun _ _ => []) (fun _ => Ok []) truncated_stream = Some (Ok []).
Proof. repeat split. Qed.

(** ** The latest definition is used *)

(** C8: the table is a map, so a slot holds at most one definition.  When
    the last definition message for [slot] before [st] read [d], the slot
    holds [d] at [st].  A data message for the slot at [st] then gives the
    record that [d] prescribes for the bytes after its header byte (the
    identifiers of [d], each value decoded from the slice of its field with
    the base type of the field and the byte order of [d], the cursor moved
    by the sizes [d] declares), or fails with the exception of the decoder
    on the slice of a field of [d]; a compressed timestamp message for the
    slot does the same, unless the last timestamp is no integer and the
    timestamp arithmetic raises first.  A further definition message for
    the slot stores what it reads over [d], whatever the table held, and
    becomes the latest definition in its turn. *)
Theorem C8_latest_definition_is_used slot d st :
  latest_definition slot d st ->
  defs st !! slot = Some d /\
  (forall records header st1,
     read_byte st = Ok (header, st1) ->
     Z.land header 0x80 = 0 -> Z.land header 0x40 = 0 ->
     Z.land header 0x0F = slot ->
     match parse_message records st with
     | Ok (records', st') =>
       exists fields,
         decoded_with d st1 fields /\
         pos st' = pos st + 1 + fields_size (d_fields d) /\
         data st' = data st /\ defs st' = defs st /\
         last_timestamp st' = next_timestamp fields (last_timestamp st) /\
         records' = if d_global d =? 20
                    then records
                         ++ [inherit_timestamp fields (last_timestamp st)]
                    else records
     | Err e => rejected_with d st1 e
     end) /\
  (forall records header st1,
     read_byte st = Ok (header, st1) ->
     Z.land header 0x80 <> 0 ->
     Z.land (Z.shiftr header 5) 0x3 = slot ->
     match parse_message records st with
     | Ok (records', st') =>
       exists T fields,
         default (VInt 0) (last_timestamp st) = VInt T /\
         decoded_with d st1 fields /\
         pos st' = pos st + 1 + fields_size (d_fields d) /\
         data st' = data st /\ defs st' = defs st /\
         last_timestamp st'
         = Some (VInt (reconstructed T (Z.land header 0x1F))) /\
         records' = if d_global d =? 20
                    then records
                         ++ [<[253 := VInt (reconstructed T
                                             (Z.land header 0x1F))]> fields]
                    else records
     | Err e =>
       (e = TypeError /\
        exists v, last_timestamp st = Some v /\ forall T, v <> VInt T) \/
       rejected_with d st1 e
     end) /\
  (forall records header st1 d' st2,
     read_byte st = Ok (header, st1) ->
     Z.land header 0x80 = 0 -> Z.land header 0x40 <> 0 ->
     Z.land header 0x0F = slot ->
     read_definition st1 = Ok (d', st2) ->
     parse_message records st
     = Ok (records, set_defs (<[slot := d']> (defs st)) st2) /\
     latest_definition slot d' (set_defs (<[slot := d']> (defs st)) st2) /\
     (forall slot', slot' <> slot ->
        <[slot := d']> (defs st) !! slot' = defs st !! slot') /\
     (forall dm lt,
        read_definition (with_cursor st1 dm lt)
        = Ok (d', with_cursor st2 dm lt))).
Proof.
  intros Hlatest. pose proof (latest_definition_lookup _ _ _ Hlatest) as Hd.
  split; [exact Hd|]. split; [|split].
  - intros records header st1 Hrd H80 H40 Hs. subst slot.
    exact (data_message_decodes records _ _ _ _ Hrd H80 H40 Hd).
  - intros records header st1 Hrd H80 Hs. subst slot.
    exact (compressed_message_decodes records _ _ _ _ Hrd H80 Hd).
  - intros records header st1 d' st2 Hrd H80 H40 Hs Hr.
    pose proof (definition_step records _ _ _ _ _ Hrd H80 H40 Hr) as Hstep.
    rewrite Hs in Hstep. split; [exact Hstep|]. split; [|split].
    + eapply latest_defined; eassumption.
    + intros slot' Hne. now apply lookup_insert_ne.
    + intros dm lt. pose proof (cursor_only_read_definition st1) as Hc.
      rewrite Hr in Hc. apply Hc.
Qed.

Lemma C8_latest_definition_is_used_witness :
  latest_definition 0 (mkDefinition 21 [(3, 1, 2)] LittleEndian)
    (redefinition_parser 15
       {[ 0 := mkDefinition 21 [(3, 1, 2)] LittleEndian ]}) /\
  defs (redefinition_parser 15
          {[ 0 := mkDefinition 21 [(3, 1, 2)] LittleEndian ]}) !! 0
  = Some (mkDefinition 21 [(3, 1, 2)] LittleEndian) /\
  parse_message []
    (redefinition_parser 15
       {[ 0 := mkDefinition 21 [(3, 1, 2)] LittleEndian ]})
  = Ok ([], redefinition_parser 17
              {[ 0 := mkDefinition 21 [(3, 1, 2)] LittleEndian ]}) /\
  exists fields,
    decoded_with (mkDefinition 21 [(3, 1, 2)] LittleEndian)
      (redefinition_parser 16
         {[ 0 := mkDefinition 21 [(3, 1, 2)] LittleEndian ]}) fields.
Proof.
  assert (H : latest_definition 0 (mkDefinition 21 [(3, 1, 2)] LittleEndian)
                (redefinition_parser 15
                   {[ 0 := mkDefinition 21 [(3, 1, 2)] LittleEndian ]})).
  { apply (latest_defined 0 _
             (redefinition_parser 6 {[ 0 := mkDefinition 20 [] LittleEndian ]})
             0x40
             (redefinition_parser 7 {[ 0 := mkDefinition 20 [] LittleEndian ]})
             (redefinition_parser 15 {[ 0 := mkDefinition 20 [] LittleEndian ]})
             [] []);
      [reflexivity | reflexivity | discriminate | reflexivity | reflexivity
      | reflexivity]. }
  assert (Hparse : parse_message []
            (redefinition_parser 15
               {[ 0 := mkDefinition 21 [(3, 1, 2)] LittleEndian ]})
          = Ok ([], redefinition_parser 17
                      {[ 0 := mkDefinition 21 [(3, 1, 2)] LittleEndian ]}))
    by reflexivity.
  split; [exact H|].
  destruct (C8_latest_definition_is_used _ _ _ H) as (Hd & Hdata & _).
  split; [exact Hd|]. split; [exact Hparse|].
  pose proof (Hdata [] 0 (redefinition_parser 16
                            {[ 0 := mkDefinition 21 [(3, 1, 2)] LittleEndian ]})
                eq_refl eq_refl eq_refl eq_refl) as Hm.
  rewrite Hparse in Hm. destruct Hm as (fields & Hdec & _).
  exists fields. exact Hdec.
Defined.

(** ** Forwarded records and the time of their points *)

(** The time element of a point: the text of field 253 when the record
    holds it, none otherwise. *)
Lemma trackpoint_time format_float epoch_isoformat (r : gmap Z value) p :
  trackpoint format_float epoch_isoformat r = Ok (Some p) ->
  match r !! 253 with
  | Some t => exists s, epoch_isoformat t = Ok s /\ time p = Some s
  | None => time p = None
  end.
Proof.
  intros H.
  destruct (r !! 0) as [v0|] eqn:H0;
    [|rewrite trackpoint_dropped in H by auto; discriminate].
  destruct (r !! 1) as [v1|] eqn:H1;
    [|rewrite trackpoint_dropped in H by auto; discriminate].
  rewrite (trackpoint_present _ _ _ _ _ H0 H1) in H.
  destruct (degrees v0) as [x|]; [|discriminate].
  destruct (degrees v1) as [y|]; [|discriminate].
  cbn [rbind] in H.
  destruct (match r !! 2 with
            | Some v2 => rbind (meters v2) (fun alt => Ok (Some (format_float 2 alt)))
            | None => Ok None
            end) as [ele_|]; [|discriminate].
  cbn [rbind] in H.
  destruct (r !! 253) as [t|].
  - destruct (epoch_isoformat t) as [s|]; [|discriminate].
    injection H as <-. exists s. split; reflexivity.
  - injection H as <-. reflexivity.
Qed.

(** Without field 253 the date arithmetic is not reached: the point has its
    position and its elevation, and no time element. *)
Lemma trackpoint_without_time format_float epoch_isoformat
    (r : gmap Z value) v0 v1 :
  r !! 253 = None -> r !! 0 = Some v0 -> r !! 1 = Some v1 ->
  trackpoint format_float epoch_isoformat r =
  rbind (degrees v0) (fun lat_ =>
  rbind (degrees v1) (fun lon_ =>
  rbind
    match r !! 2 with
    | Some v2 => rbind (meters v2) (fun alt => Ok (Some (format_float 2 alt)))
    | None => Ok None
    end (fun ele_ =>
  Ok (Some (mkTrkpt (format_float 6 lat_) (format_float 6 lon_) ele_ None))))).
Proof.
  intros H253 H0 H1. rewrite (trackpoint_present _ _ _ _ _ H0 H1), H253.
  destruct (degrees v0); [|reflexivity]. destruct (degrees v1); [|reflexivity].
  cbn [rbind].
  destruct (match r !! 2 with
            | Some v2 => rbind (meters v2) (fun alt => Ok (Some (format_float 2 alt)))
            | None => Ok None
            end); reflexivity.
Qed.

(** A message for a slot whose definition has the global number 20 is
    forwarded. *)
Lemma record_message_forwarded records st records' st' header st1 d :
  parse_message records st = Ok (records', st') ->
  read_byte st = Ok (header, st1) ->
  (Z.land header 0x80 = 0 -> Z.land header 0x40 = 0) ->
  defs st !! header_slot header = Some d -> d_global d = 20 ->
  exists record, records' = records ++ [record].
Proof.
  intros H Hrd Hdata Hd Hg. unfold header_slot in Hd.
  destruct (Z.eqb_spec (Z.land header 0x80) 0) as [H80 | H80].
  - pose proof (data_message_decodes records _ _ _ _ Hrd H80 (Hdata H80) Hd)
      as Hm.
    rewrite H in Hm. destruct Hm as (fields & _ & _ & _ & _ & _ & ->).
    rewrite Hg. eauto.
  - pose proof (compressed_message_decodes records _ _ _ _ Hrd H80 Hd) as Hm.
    rewrite H in Hm. destruct Hm as (T & fields & _ & _ & _ & _ & _ & _ & ->).
    rewrite Hg. eauto.
Qed.

(** C4, as the code has it: an iteration forwards at most one record, and
    it forwards one for every data or compressed timestamp message whose
    slot holds a definition with the global number 20; a record forwarded
    from a compressed timestamp message holds field 253; a record forwarded
    from a normal data message holds field 253 exactly when a timestamp was
    known before the message or the definition of its slot declares field
    253, so a record message read while no timestamp is known, with a
    definition that does not declare field 253, is forwarded without it;
    from a state in which a timestamp is known, all the records the rest of
    the pass forwards hold field 253.  The projector gives a point the
    time text of field 253 when the record holds it, and for a record
    without field 253 it emits the point with no time element, the date
    arithmetic not being reached. *)
Theorem C4_forwarded_record_timestamp records st records' st' :
  parse_message records st = Ok (records', st') ->
  (exists header st1,
     read_byte st = Ok (header, st1) /\
     (records' = records \/
      exists record,
        records' = records ++ [record] /\
        (Z.land header 0x80 <> 0 -> has_timestamp record) /\
        (Z.land header 0x80 = 0 ->
         Z.land header 0x40 = 0 /\
         exists d, defs st !! Z.land header 0x0F = Some d /\ d_global d = 20 /\
           (has_timestamp record <->
            is_Some (last_timestamp st) \/ declares_timestamp d)))) /\
  (is_Some (last_timestamp st) ->
   (forall record, records' = records ++ [record] -> has_timestamp record) /\
   forall fuel end_ rs,
     parse_loop fuel end_ records' st' = Some (Ok rs) ->
     exists new, rs = records' ++ new /\ Forall has_timestamp new) /\
  (forall header st1 d,
     read_byte st = Ok (header, st1) ->
     (Z.land header 0x80 = 0 -> Z.land header 0x40 = 0) ->
     defs st !! header_slot header = Some d -> d_global d = 20 ->
     exists record, records' = records ++ [record]) /\
  (forall header st1 d,
     read_byte st = Ok (header, st1) ->
     Z.land header 0x80 = 0 -> Z.land header 0x40 = 0 ->
     defs st !! Z.land header 0x0F = Some d -> d_global d = 20 ->
     last_timestamp st = None -> ~ declares_timestamp d ->
     exists record, records' = records ++ [record] /\ record !! 253 = None) /\
  (forall format_float epoch_isoformat (record : gmap Z value) p,
     trackpoint format_float epoch_isoformat record = Ok (Some p) ->
     match record !! 253 with
     | Some t => exists s, epoch_isoformat t = Ok s /\ time p = Some s
     | None => time p = None
     end) /\
  (forall format_float epoch_isoformat (record : gmap Z value) v0 v1,
     record !! 253 = None -> record !! 0 = Some v0 -> record !! 1 = Some v1 ->
     trackpoint format_float epoch_isoformat record =
     rbind (degrees v0) (fun lat_ =>
     rbind (degrees v1) (fun lon_ =>
     rbind
       match record !! 2 with
       | Some v2 =>
         rbind (meters v2) (fun alt => Ok (Some (format_float 2 alt)))
       | None => Ok None
       end (fun ele_ =>
     Ok (Some (mkTrkpt (format_float 6 lat_) (format_float 6 lon_)
                 ele_ None)))))).
Proof.
  intros H. split; [exact (parse_message_forwards _ _ _ _ H)|].
  split; [|split; [|split; [|split]]].
  - intros Hlast. split.
    + intros record Heq.
      destruct (parse_message_forwards _ _ _ _ H)
        as (header & st1 & _ & [Hsame | (record' & Heq' & Hc & Hn)]).
      * rewrite Hsame in Heq. apply (f_equal (@length _)) in Heq.
        rewrite length_app in Heq. simpl in Heq. lia.
      * rewrite Heq' in Heq. apply app_inj_tail in Heq as [_ <-].
        destruct (Z.eq_dec (Z.land header 0x80) 0) as [H80 | H80]; [|auto].
        destruct (Hn H80) as (_ & d & _ & _ & Hiff). apply Hiff. now left.
    + intros fuel end_ rs Hloop.
      eapply parse_loop_timestamps; [|exact Hloop].
      eapply parse_message_keeps_timestamp; eassumption.
  - intros header st1 d. exact (record_message_forwarded _ _ _ _ _ _ _ H).
  - intros header st1 d Hrd H80 H40 Hd Hg Hlast Hdecl.
    pose proof (data_message_decodes records _ _ _ _ Hrd H80 H40 Hd) as Hm.
    rewrite H in Hm. destruct Hm as (fields & [Hkeys _] & _ & _ & _ & _ & ->).
    rewrite Hg. change (20 =? 20) with true. cbv iota.
    eexists. split; [reflexivity|].
    assert (Hnone : fields !! 253 = None).
    { destruct (fields !! 253) as [v|] eqn:Hv; [|reflexivity].
      exfalso. apply Hdecl. apply Hkeys. rewrite Hv. eauto. }
    unfold inherit_timestamp. now rewrite Hnone, Hlast.
  - exact trackpoint_time.
  - exact trackpoint_without_time.
Qed.

Lemma C4_forwarded_record_timestamp_witness :
  parse_message [] (sample_parser (Some (VInt 100)))
  = Ok ([ <[253 := VInt 130]> {[ 253 := VInt 7 ]} ], sample_parser_after 130) /\
  has_timestamp (<[253 := VInt 130]> {[ 253 := VInt 7 ]}).
Proof.
  assert (H : parse_message [] (sample_parser (Some (VInt 100)))
              = Ok ([ <[253 := VInt 130]> {[ 253 := VInt 7 ]} ],
                    sample_parser_after 130)) by reflexivity.
  split; [exact H|].
  destruct (C4_forwarded_record_timestamp _ _ _ _ H) as (_ & Hknown & _).
  destruct (Hknown (ex_intro _ (VInt 100) eq_refl)) as [Hrecord _].
  apply Hrecord. reflexivity.
Defined.

(** The record of that stream is forwarded without field 253, and its
    point has no time element. *)
Lemma C4_counterexample :
  parse_message [] (set_pos 12 (init no_timestamp_stream))
  = Ok ([], mkFitParser no_timestamp_stream 24 no_timestamp_defs None) /\
  d_global <$> no_timestamp_defs !! 0 = Some 20 /\
  parse_message [] (mkFitParser no_timestamp_stream 24 no_timestamp_defs None)
  = Ok ([ {[ 0 := VInt 1; 1 := VInt 2 ]} ],
        mkFitParser no_timestamp_stream 33 no_timestamp_defs None) /\
  parse (init no_timestamp_stream)
  = Some (Ok [ {[ 0 := VInt 1; 1 := VInt 2 ]} ]) /\
  ({[ 0 := VInt 1; 1 := VInt 2 ]} : gmap Z value) !! 253 = None /\
  ~ has_timestamp {[ 0 := VInt 1; 1 := VInt 2 ]} /\
  main (fun _ _ => []) (fun _ => Ok [90]) no_timestamp_stream
  = Some (Ok [ mkTrkpt [] [] None None ]).
Proof.
  split; [reflexivity|]. split; [reflexivity|]. split; [reflexivity|].
  split; [reflexivity|]. split; [reflexivity|].
  split; [|reflexivity].
  intros [v Hv]. discriminate Hv.
Qed.
